(** * Backtracking search for a normalized Hadamard matrix of order 4n

    Shallow embedding of [minimal-real-generator.py] and verification of its
    specification.  Python integers are unbounded, so rows are [Z] and the bit
    operations are those of [Z].  The program has one mutable object, the list
    [matrix]; the generator [build_row] is consumed lazily by a [for] loop
    whose body appends to and pops from that very list, so the embedding
    threads a state through generator and loop body alike.  A second
    embedding keeps every list of the program in a store of objects, the
    lists [new_overlaps] that [build_row] makes and fills among them; the
    first is proved to stand for it. *)

From Stdlib Require Import ZArith List Bool Lia Sorted.
Import ListNotations.
Local Open Scope Z_scope.

(** ** Outcomes of running Python code *)

(** The exceptions the program can raise: [ValueError] is "negative shift
    count", [IndexError] is "pop from empty list", [TypeError] is iterating
    over [None]. *)
Inductive exn : Type :=
| ValueError
| IndexError
| TypeError.

(** A computation ends normally with a value, raises, or exhausts the
    recursion budget [fuel] (unbounded recursion in the source). *)
Inductive outcome (St A : Type) : Type :=
| Normal (a : A) (s : St)
| Raise (e : exn) (s : St)
| OutOfFuel.

Arguments Normal {St A} a s.
Arguments Raise {St A} e s.
Arguments OutOfFuel {St A}.

Definition M (St A : Type) : Type := St -> outcome St A.

Definition ret {St A} (a : A) : M St A := fun s => Normal a s.

Definition bind {St A B} (c : M St A) (k : A -> M St B) : M St B :=
  fun s =>
    match c s with
    | Normal a s' => k a s'
    | Raise e s' => Raise e s'
    | OutOfFuel => OutOfFuel
    end.

Notation "'let!' x ':=' c 'in' k" := (bind c (fun x => k))
  (at level 10, x name, c at level 100, k at level 200).

(** ** Integer operations *)

(** [a >> k] and [a << k]: Python raises [ValueError] on a negative count. *)
Definition py_rshift (a k : Z) : option Z :=
  if k <? 0 then None else Some (Z.shiftr a k).

Definition py_lshift (a k : Z) : option Z :=
  if k <? 0 then None else Some (Z.shiftl a k).

(** [(prev >> k) & 1], as a truth value. *)
Definition bit_set (prev k : Z) : option bool :=
  match py_rshift prev k with
  | None => None
  | Some v => Some (negb (Z.land v 1 =? 0))
  end.

(** [range(k)] *)
Definition range (k : Z) : list Z := map Z.of_nat (seq 0 (Z.to_nat k)).

(** ** RowCandidateGenerator: [build_row] *)

(** Result of one [for prev, needed in zip(prev_rows, overlaps_needed)] loop:
    the loop broke with [prune = True], ran to its end with [new_overlaps],
    or a shift raised. *)
Inductive scan : Type :=
| Pruned
| Kept (new_overlaps : list Z)
| ShiftError.

(** The loop of the "place 1" branch. *)
Fixpoint set_scan (bit_index remaining_positions m : Z)
    (prev_rows overlaps_needed new_overlaps : list Z) : scan :=
  match prev_rows, overlaps_needed with
  | prev :: prev_rows', needed :: overlaps_needed' =>
      match bit_set prev (m - 1 - bit_index) with
      | None => ShiftError
      | Some b =>
          let needed := if b then needed - 1 else needed in
          if (needed <? 0) || (needed >? remaining_positions - 1) then Pruned
          else set_scan bit_index remaining_positions m prev_rows'
                 overlaps_needed' (new_overlaps ++ [needed])
      end
  | _, _ => Kept new_overlaps
  end.

(** The loop of the "place 0" branch. *)
Fixpoint clear_scan (bit_index remaining_positions m : Z)
    (prev_rows overlaps_needed new_overlaps : list Z) : scan :=
  match prev_rows, overlaps_needed with
  | prev :: prev_rows', needed :: overlaps_needed' =>
      match bit_set prev (m - 1 - bit_index) with
      | None => ShiftError
      | Some b =>
          if b && (needed >? remaining_positions - 1) then Pruned
          else clear_scan bit_index remaining_positions m prev_rows'
                 overlaps_needed' (new_overlaps ++ [needed])
      end
  | _, _ => Kept new_overlaps
  end.

Section Generator.

(** [St] is the program state the generator runs in, [prev_rows] reads the
    list object the parameter [prev_rows] refers to.  [body] is the consumer
    of the generator, run at each [yield]: it answers [None] when the
    consuming loop goes on (the generator is resumed) and [Some r] when the
    consumer left the loop with [r] (the generator is dropped). *)
Context {St R : Type}.
Variable prev_rows : St -> list Z.
Variable body : Z -> M St (option R).

(** [fuel] bounds the depth of the recursion: each call of [build_row] in
    the source takes one unit. *)
Fixpoint build_row (fuel : nat) (bit_index ones_left current_row : Z)
    (overlaps_needed : list Z) (m n : Z) (s : St) {struct fuel}
    : outcome St (option R) :=
  match fuel with
  | O => OutOfFuel
  | S fuel' =>
      if bit_index =? m then
        if (ones_left =? 0) && forallb (fun x => x =? 0) overlaps_needed
        then body current_row s
        else Normal None s
      else
        let remaining_positions := m - bit_index in
        (* Try placing 1 at this position *)
        let placed_one :=
          if ones_left >? 0 then
            match set_scan bit_index remaining_positions m
                    (prev_rows s) overlaps_needed [] with
            | ShiftError => Raise ValueError s
            | Pruned => Normal None s
            | Kept new_overlaps =>
                match py_lshift 1 (m - 1 - bit_index) with
                | None => Raise ValueError s
                | Some b =>
                    build_row fuel' (bit_index + 1) (ones_left - 1)
                      (Z.lor current_row b) new_overlaps m n s
                end
            end
          else Normal None s in
        match placed_one with
        | Normal None s1 =>
            (* Try placing 0 at this position *)
            match clear_scan bit_index remaining_positions m
                    (prev_rows s1) overlaps_needed [] with
            | ShiftError => Raise ValueError s1
            | Pruned => Normal None s1
            | Kept new_overlaps =>
                build_row fuel' (bit_index + 1) ones_left current_row
                  new_overlaps m n s1
            end
        | stopped => stopped
        end
  end.

End Generator.

(** [list(build_row(bit_index, ones_left, current_row, prev_rows,
    overlaps_needed, m, n))]: the generator run on its own, its yields
    collected in order.  The state is the pair of [prev_rows] and the list
    collected so far. *)
Definition collect (candidate : Z) : M (list Z * list Z) (option Empty_set) :=
  fun s => Normal None (fst s, snd s ++ [candidate]).

Definition build_row_list (fuel : nat) (bit_index ones_left current_row : Z)
    (prev_rows overlaps_needed : list Z) (m n : Z) : outcome unit (list Z) :=
  match build_row fst collect fuel bit_index ones_left current_row
          overlaps_needed m n (prev_rows, []) with
  | Normal _ s => Normal (snd s) tt
  | Raise e _ => Raise e tt
  | OutOfFuel => OutOfFuel
  end.

(** ** Program state and output *)

(** A printed line.  The elapsed time is a float computed from two readings
    of a wall clock; the line keeps the readings and not their rendering. *)
Inductive line (float : Type) : Type :=
| ElapsedLine (start_time end_time : float)
| RowLine (i : Z) (row_list : list Z).

Arguments ElapsedLine {float} start_time end_time.
Arguments RowLine {float} i row_list.

Record state (float : Type) : Type := mkState {
  matrix : list Z;
  stdout : list (line float)
}.

Arguments mkState {float} matrix stdout.
Arguments matrix {float} s.
Arguments stdout {float} s.

(** What [backtrack] returns: [None], or the list it was given (the one list
    object [matrix]). *)
Inductive value : Type :=
| PyNone
| MatrixRef.

Section Search.

Context {float : Type}.
Variable n : Z.

Definition size : Z := 4 * n.
Definition total_ones : Z := 2 * n - 1.
Definition m : Z := size - 1.

(** [rows.append(candidate)] *)
Definition append (candidate : Z) : M (state float) unit :=
  fun s => Normal tt (mkState (matrix s ++ [candidate]) (stdout s)).

(** [rows.pop()] *)
Definition pop : M (state float) unit :=
  fun s =>
    match matrix s with
    | [] => Raise IndexError s
    | _ :: _ => Normal tt (mkState (removelast (matrix s)) (stdout s))
    end.

(** Truth value of a result: [None] and the empty list are false. *)
Definition truthy (result : value) (s : state float) : bool :=
  match result with
  | PyNone => false
  | MatrixRef => match matrix s with [] => false | _ :: _ => true end
  end.

(** ** MatrixBacktracker: [backtrack] *)

(** The body of the loop over the candidates; [recurse] is the call
    [backtrack(rows)] inside it. *)
Definition loop_body (recurse : M (state float) value) (candidate : Z)
    : M (state float) (option value) :=
  let! _ := append candidate in
  let! result := recurse in
  fun s =>
    if truthy result s then Normal (Some result) s
    else (let! _ := pop in ret None) s.

(** [backtrack(rows)]; [rows] is the list [matrix] of the state.  The
    generator gets the [m + 1] units of fuel that its recursion from
    [bit_index = 0] to [bit_index = m] takes. *)
Fixpoint backtrack (fuel : nat) (s : state float) {struct fuel}
    : outcome (state float) value :=
  match fuel with
  | O => OutOfFuel
  | S fuel' =>
      if Z.of_nat (length (matrix s)) =? size - 1 then Normal MatrixRef s
      else
        let overlaps_needed := repeat (n - 1) (length (matrix s)) in
        (let! result := build_row matrix (loop_body (backtrack fuel'))
                          (S (Z.to_nat m)) 0 total_ones 0 overlaps_needed
                          m n in
         match result with
         | Some r => ret r
         | None => ret PyNone
         end) s
  end.

(** [sum(1 << (m - 1 - i) for i in range(total_ones))] *)
Definition first_row : option Z :=
  fold_left
    (fun acc i =>
       match acc, py_lshift 1 (m - 1 - i) with
       | Some a, Some b => Some (a + b)
       | _, _ => None
       end)
    (range total_ones) (Some 0).

(** [print(...)] of one line *)
Definition print (l : line float) : M (state float) unit :=
  fun s => Normal tt (mkState (matrix s) (stdout s ++ [l])).

(** [find_minimal_hadamard(n)]; the two readings of [time.perf_counter()]
    are parameters.  [backtrack] gets [4n + 1] units of fuel, more than the
    [4n - 1] rows it can recurse over. *)
Definition find_minimal_hadamard (start_time end_time : float)
    : M (state float) value :=
  fun s =>
    match first_row with
    | None => Raise ValueError s
    | Some first_row =>
        (let! result := backtrack (S (Z.to_nat size)) in
         let! _ := print (ElapsedLine start_time end_time) in
         ret result) (mkState [first_row] (stdout s))
    end.

(** ** Presenter: [print_hadamard_01] *)

(** [[1 if (row >> (m - 1 - j)) & 1 else 0 for j in js]] *)
Fixpoint row_bits (row : Z) (js : list Z) : option (list Z) :=
  match js with
  | [] => Some []
  | j :: js' =>
      match bit_set row (m - 1 - j) with
      | None => None
      | Some b => option_map (cons (if b then 1 else 0)) (row_bits row js')
      end
  end.

(** [[1] + [1 if (row >> (m - 1 - j)) & 1 else 0 for j in range(m)]] *)
Definition row_list (row : Z) : option (list Z) :=
  option_map (cons 1) (row_bits row (range m)).

(** [for i, row in enumerate(rows, start=i): print(f"Row {i}:", row_list)] *)
Fixpoint print_rows (i : Z) (rows : list Z) : M (state float) unit :=
  match rows with
  | [] => ret tt
  | row :: rows' =>
      fun s =>
        match row_list row with
        | None => Raise ValueError s
        | Some l =>
            (let! _ := print (RowLine i l) in print_rows (i + 1) rows') s
        end
  end.

(** [print_hadamard_01(n, rows_bitmask)] *)
Definition print_hadamard_01 (rows_bitmask : value) : M (state float) unit :=
  let! _ := print (RowLine 0 (repeat 1 (Z.to_nat size))) in
  fun s =>
    match rows_bitmask with
    | PyNone => Raise TypeError s
    | MatrixRef => print_rows 1 (matrix s) s
    end.

(** The script: [rows_bitmask = find_minimal_hadamard(n)], then the matrix
    is printed if [rows_bitmask] is true. *)
Definition main (start_time end_time : float) : M (state float) unit :=
  let! rows_bitmask := find_minimal_hadamard start_time end_time in
  fun s =>
    if truthy rows_bitmask s then print_hadamard_01 rows_bitmask s
    else Normal tt s.

End Search.

(** The state the script starts in: nothing allocated, nothing printed. *)
Definition initial {float : Type} : state float := mkState [] [].

(** ** Notions of the specification *)

(** Number of set bits of a non-negative integer ([int.bit_count]). *)
Fixpoint pos_popcount (p : positive) : Z :=
  match p with
  | xH => 1
  | xO q => pos_popcount q
  | xI q => 1 + pos_popcount q
  end.

Definition popcount (z : Z) : Z :=
  match z with
  | Z0 => 0
  | Zpos p => pos_popcount p
  | Zneg p => pos_popcount p
  end.

(** The consumer loop [for candidate in l: body], over a list. *)
Fixpoint for_each {St R : Type} (body : Z -> M St (option R)) (l : list Z)
    (s : St) : outcome St (option R) :=
  match l with
  | [] => Normal None s
  | candidate :: l' =>
      match body candidate s with
      | Normal None s' => for_each body l' s'
      | stopped => stopped
      end
  end.

Definition b2z (b : bool) : Z := if b then 1 else 0.

(** The requirement vector after a set bit at position [d], and the two
    pruning tests, as functions of the rows paired with their requirements. *)
Definition set_overlaps (d : Z) (prev_rows overlaps_needed : list Z) : list Z :=
  map (fun pn => snd pn - b2z (Z.testbit (fst pn) d))
      (combine prev_rows overlaps_needed).

Definition set_ok (d : Z) (prev_rows overlaps_needed : list Z) : bool :=
  forallb (fun x => (0 <=? x) && (x <=? d))
          (set_overlaps d prev_rows overlaps_needed).

Definition clear_overlaps (prev_rows overlaps_needed : list Z) : list Z :=
  map snd (combine prev_rows overlaps_needed).

Definition clear_ok (d : Z) (prev_rows overlaps_needed : list Z) : bool :=
  forallb (fun pn => negb (Z.testbit (fst pn) d && (snd pn >? d)))
          (combine prev_rows overlaps_needed).

(** The values of the [d] lowest positions that [build_row] appends to a
    prefix, in the order of the yields. *)
Fixpoint completions (d : nat) (ones_left : Z)
    (prev_rows overlaps_needed : list Z) : list Z :=
  match d with
  | O =>
      if (ones_left =? 0) && forallb (fun x => x =? 0) overlaps_needed
      then [0] else []
  | S d' =>
      (if (ones_left >? 0) && set_ok (Z.of_nat d') prev_rows overlaps_needed
       then map (Z.add (2 ^ Z.of_nat d'))
                (completions d' (ones_left - 1) prev_rows
                   (set_overlaps (Z.of_nat d') prev_rows overlaps_needed))
       else [])
      ++
      (if clear_ok (Z.of_nat d') prev_rows overlaps_needed
       then completions d' ones_left prev_rows
              (clear_overlaps prev_rows overlaps_needed)
       else [])
  end.

(** [x] is a row of [d] bits with [k] ones that overlaps each accepted row
    in as many positions as required. *)
Definition valid (d : nat) (k : Z) (prev_rows overlaps_needed : list Z)
    (x : Z) : Prop :=
  0 <= x < 2 ^ Z.of_nat d /\
  popcount x = k /\
  Forall (fun pn => popcount (Z.land x (fst pn)) = snd pn)
         (combine prev_rows overlaps_needed).

(** What a loop over the generator establishes: [Inv] when it runs to its
    end, [Post] when its body leaves it. *)
Definition loop_post {St R : Type} (Inv : St -> Prop)
    (Post : R -> St -> Prop) (o : outcome St (option R)) : Prop :=
  match o with
  | Normal None s' => Inv s'
  | Normal (Some r) s' => Post r s'
  | _ => True
  end.


(** Rows accepted so far: each has [m] bits of which [total_ones] are set,
    and each overlaps every earlier one in [n - 1] positions. *)
Definition row_ok (n r : Z) : Prop :=
  0 <= r < 2 ^ m n /\ popcount r = total_ones n.

Definition overlap_ok (n earlier later : Z) : Prop :=
  popcount (Z.land later earlier) = n - 1.

Definition partial_design (n : Z) (rows : list Z) : Prop :=
  Forall (row_ok n) rows /\ ForallOrdPairs (overlap_ok n) rows.

(** [backtrack] found a design: from [s0] it reached [s'] with all the rows
    and without printing. *)
Definition found {float : Type} (n : Z) (s0 s' : state float) : Prop :=
  stdout s' = stdout s0 /\
  partial_design n (matrix s') /\
  Z.of_nat (length (matrix s')) = size n - 1.

(** The number of bits of a row, as a natural number. *)
Definition width (n : Z) : nat := Z.to_nat (m n).

(** ** The expanded matrix *)

(** The [m] bits of a row, most significant first. *)
Definition bits (m row : Z) : list Z :=
  map (fun j => b2z (Z.testbit row (m - 1 - j))) (range m).

Definition expand_row (m row : Z) : list Z := 1 :: bits m row.

(** The grid that is printed: the row of ones, then the expanded rows. *)
Definition expand (n : Z) (rows : list Z) : list (list Z) :=
  repeat 1 (Z.to_nat (size n)) :: map (expand_row (m n)) rows.

(** The lines [Row i: ...], numbered from [i]. *)
Fixpoint row_lines {float : Type} (i : Z) (grid : list (list Z))
    : list (line float) :=
  match grid with
  | [] => []
  | l :: grid' => RowLine i l :: row_lines (i + 1) grid'
  end.

(** Entry [0] stands for [-1], entry [1] for [+1]. *)
Definition pm1 (b : Z) : Z := 2 * b - 1.

Fixpoint dot (u v : list Z) : Z :=
  match u, v with
  | a :: u', b :: v' => a * b + dot u' v'
  | _, _ => 0
  end.

Definition sum (u : list Z) : Z := fold_right Z.add 0 u.

(** [H] is a Hadamard matrix of order [N]: [N] rows of [N] entries [+1] or
    [-1], and [H * H^T = N * I]. *)
Definition hadamard (N : Z) (H : list (list Z)) : Prop :=
  Z.of_nat (length H) = N /\
  Forall (fun r => Z.of_nat (length r) = N /\
                   Forall (fun e => e = 1 \/ e = -1) r) H /\
  forall i j, (i < length H)%nat -> (j < length H)%nat ->
    dot (nth i H []) (nth j H []) = if (i =? j)%nat then N else 0.

(** ** Notions of determinism *)

(** What a run shows apart from the clock: the list, and the printed lines
    with the value of the elapsed time left out. *)
Definition untimed {float : Type} (l : line float) : option (Z * list Z) :=
  match l with
  | ElapsedLine _ _ => None
  | RowLine i row_list => Some (i, row_list)
  end.

Definition observe {float A : Type} (o : outcome (state float) A)
    : outcome (list Z * list (option (Z * list Z))) A :=
  match o with
  | Normal a s => Normal a (matrix s, map untimed (stdout s))
  | Raise e s => Raise e (matrix s, map untimed (stdout s))
  | OutOfFuel => OutOfFuel
  end.

(** The outcome [o] of a collecting run, had [acc] been collected before. *)
Definition after {A : Type} (acc : list Z)
    (o : outcome (list Z * list Z) A) : outcome (list Z * list Z) A :=
  match o with
  | Normal a s => Normal a (fst s, acc ++ snd s)
  | Raise e s => Raise e (fst s, acc ++ snd s)
  | OutOfFuel => OutOfFuel
  end.

(** The list [prev_rows] at the end of a collecting run. *)
Definition rows_kept {A : Type} (P : list Z)
    (o : outcome (list Z * list Z) A) : Prop :=
  match o with
  | Normal _ s | Raise _ s => fst s = P
  | OutOfFuel => True
  end.

(** Two runs of the generator, in states that agree on [prev_rows] and
    with consumers that keep the states related, end alike. *)
Definition alike {St1 St2 A : Type} (Rel : St1 -> St2 -> Prop)
    (o1 : outcome St1 A) (o2 : outcome St2 A) : Prop :=
  match o1, o2 with
  | Normal a1 s1, Normal a2 s2 => a1 = a2 /\ Rel s1 s2
  | Raise e1 s1, Raise e2 s2 => e1 = e2 /\ Rel s1 s2
  | OutOfFuel, OutOfFuel => True
  | _, _ => False
  end.

(** ** Notions for the further properties *)

(** A complete design: a partial design of [4n - 1] rows. *)
Definition design (n : Z) (rows : list Z) : Prop :=
  partial_design n rows /\ Z.of_nat (length rows) = size n - 1.

(** Lexicographic comparison of two lists of rows, greater rows first. *)
Inductive lex_ge : list Z -> list Z -> Prop :=
| lex_ge_nil : lex_ge [] []
| lex_ge_head (a b : Z) (l l' : list Z) :
    a > b -> lex_ge (a :: l) (b :: l')
| lex_ge_tail (a : Z) (l l' : list Z) :
    lex_ge l l' -> lex_ge (a :: l) (a :: l').

(** The integer written by binary digits, most significant first. *)
Definition decode (digits : list Z) : Z :=
  fold_left (fun acc b => 2 * acc + b) digits 0.

(** The rows of [m] bits with [2n - 1] ones that are not in the list:
    every candidate that [backtrack] appends is one of them, which bounds
    the depth of its recursion whatever list it starts from. *)
Definition untried (n : Z) (rows : list Z) : list Z :=
  filter (fun x => negb (existsb (Z.eqb x) rows))
    (completions (Z.to_nat (m n)) (total_ones n) [] []).

(** ** The program over a store of list objects *)

(** The lists of the program are objects: a parameter holds a reference,
    and [append] and [pop] change the object for all who hold one.  A
    reference is the number of list objects created before its own, and the
    store holds the elements of each object. *)
Definition ref : Type := nat.
Definition heap : Type := list (list Z).

Definition deref (h : heap) (r : ref) : list Z := nth r h [].

Fixpoint store (r : ref) (l : list Z) (h : heap) : heap :=
  match h with
  | [] => []
  | x :: h' =>
      match r with
      | O => l :: h'
      | S r' => x :: store r' l h'
      end
  end.

(** What a run reads and changes: the list objects, the wall clock (all
    its readings, and how many of them were taken) and the printed lines. *)
Record world (float : Type) : Type := mkWorld {
  objects : heap;
  clock : nat -> float;
  now : nat;
  printed : list (line float)
}.

Arguments mkWorld {float} objects clock now printed.
Arguments objects {float} w.
Arguments clock {float} w.
Arguments now {float} w.
Arguments printed {float} w.

Definition with_objects {float : Type} (h : heap) (w : world float)
    : world float :=
  mkWorld h (clock w) (now w) (printed w).

Section Store.

Context {float : Type}.

(** A list display or [list(...)]: a new object *)
Definition list_new (l : list Z) : M (world float) ref :=
  fun w => Normal (length (objects w)) (with_objects (objects w ++ [l]) w).

(** [r.append(x)] *)
Definition list_append (r : ref) (x : Z) : M (world float) unit :=
  fun w =>
    Normal tt
      (with_objects (store r (deref (objects w) r ++ [x]) (objects w)) w).

(** [r.pop()] *)
Definition list_pop (r : ref) : M (world float) unit :=
  fun w =>
    match deref (objects w) r with
    | [] => Raise IndexError w
    | _ :: _ =>
        Normal tt
          (with_objects
             (store r (removelast (deref (objects w) r)) (objects w)) w)
    end.

(** [time.perf_counter()] *)
Definition perf_counter : M (world float) float :=
  fun w =>
    Normal (clock w (now w))
      (mkWorld (objects w) (clock w) (S (now w)) (printed w)).

(** [print(...)] of one line *)
Definition print_line (l : line float) : M (world float) unit :=
  fun w =>
    Normal tt (mkWorld (objects w) (clock w) (now w) (printed w ++ [l])).

(** The most iterations a loop over [zip(prev_rows, overlaps_needed)] can
    take if it ends: its body appends to one list, so at least one of the
    two lists keeps its length.  A loop given that many steps runs out of
    them only if it does not end. *)
Definition zip_steps (prev_rows overlaps_needed : ref) (w : world float)
    : nat :=
  S (length (deref (objects w) prev_rows)
     + length (deref (objects w) overlaps_needed)).

(** Iteration [i] and the following ones of the loop of the "place 1"
    branch: the iterators of [zip] read the two objects at index [i], as
    they are then.  The result is [prune]. *)
Fixpoint set_scan_heap (steps i : nat) (bit_index remaining_positions m : Z)
    (prev_rows overlaps_needed new_overlaps : ref) (w : world float)
    {struct steps} : outcome (world float) bool :=
  match steps with
  | O => OutOfFuel
  | S steps' =>
      match nth_error (deref (objects w) prev_rows) i with
      | None => Normal false w
      | Some prev =>
          match nth_error (deref (objects w) overlaps_needed) i with
          | None => Normal false w
          | Some needed =>
              match bit_set prev (m - 1 - bit_index) with
              | None => Raise ValueError w
              | Some b =>
                  let needed := if b then needed - 1 else needed in
                  if (needed <? 0) || (needed >? remaining_positions - 1)
                  then Normal true w
                  else
                    (let! _ := list_append new_overlaps needed in
                     set_scan_heap steps' (S i) bit_index
                       remaining_positions m prev_rows overlaps_needed
                       new_overlaps) w
              end
          end
      end
  end.

(** The same for the loop of the "place 0" branch. *)
Fixpoint clear_scan_heap (steps i : nat)
    (bit_index remaining_positions m : Z)
    (prev_rows overlaps_needed new_overlaps : ref) (w : world float)
    {struct steps} : outcome (world float) bool :=
  match steps with
  | O => OutOfFuel
  | S steps' =>
      match nth_error (deref (objects w) prev_rows) i with
      | None => Normal false w
      | Some prev =>
          match nth_error (deref (objects w) overlaps_needed) i with
          | None => Normal false w
          | Some needed =>
              match bit_set prev (m - 1 - bit_index) with
              | None => Raise ValueError w
              | Some b =>
                  if b && (needed >? remaining_positions - 1)
                  then Normal true w
                  else
                    (let! _ := list_append new_overlaps needed in
                     clear_scan_heap steps' (S i) bit_index
                       remaining_positions m prev_rows overlaps_needed
                       new_overlaps) w
              end
          end
      end
  end.

End Store.

Section HeapGenerator.

(** [build_row] with its parameters [prev_rows] and [overlaps_needed] as
    references, and [new_overlaps] a new object of each branch.  [body] is
    the consumer of the generator, as for [build_row] above. *)
Context {float R : Type}.
Variable body : Z -> M (world float) (option R).

Fixpoint build_row_heap (fuel : nat) (bit_index ones_left current_row : Z)
    (prev_rows overlaps_needed : ref) (m n : Z) (w : world float)
    {struct fuel} : outcome (world float) (option R) :=
  match fuel with
  | O => OutOfFuel
  | S fuel' =>
      if bit_index =? m then
        if (ones_left =? 0)
           && forallb (fun x => x =? 0)
                (deref (objects w) overlaps_needed)
        then body current_row w
        else Normal None w
      else
        let remaining_positions := m - bit_index in
        (* Try placing 1 at this position *)
        let placed_one :=
          if ones_left >? 0 then
            (let! new_overlaps := list_new [] in
             let! prune :=
               fun w1 =>
                 set_scan_heap (zip_steps prev_rows overlaps_needed w1) 0
                   bit_index remaining_positions m prev_rows
                   overlaps_needed new_overlaps w1 in
             fun w2 =>
               if prune then Normal None w2
               else
                 match py_lshift 1 (m - 1 - bit_index) with
                 | None => Raise ValueError w2
                 | Some b =>
                     build_row_heap fuel' (bit_index + 1) (ones_left - 1)
                       (Z.lor current_row b) prev_rows new_overlaps m n w2
                 end) w
          else Normal None w in
        match placed_one with
        | Normal None w1 =>
            (* Try placing 0 at this position *)
            (let! new_overlaps := list_new [] in
             let! prune :=
               fun w2 =>
                 clear_scan_heap (zip_steps prev_rows overlaps_needed w2) 0
                   bit_index remaining_positions m prev_rows
                   overlaps_needed new_overlaps w2 in
             fun w3 =>
               if prune then Normal None w3
               else
                 build_row_heap fuel' (bit_index + 1) ones_left
                   current_row prev_rows new_overlaps m n w3) w1
        | stopped => stopped
        end
  end.

End HeapGenerator.

Section HeapSearch.

Context {float : Type}.
Variable n : Z.

(** The body of [out = list(build_row(...))]: each yield is appended to the
    new list [out]. *)
Definition collect_heap (out : ref) (candidate : Z)
    : M (world float) (option Empty_set) :=
  let! _ := list_append out candidate in
  ret None.

Definition build_row_list_heap (fuel : nat)
    (bit_index ones_left current_row : Z) (prev_rows overlaps_needed : ref)
    (m n : Z) : M (world float) ref :=
  let! out := list_new [] in
  let! _ := build_row_heap (collect_heap out) fuel bit_index ones_left
              current_row prev_rows overlaps_needed m n in
  ret out.

(** What [backtrack] returns: [None] or a reference to a list. *)
Inductive hvalue : Type :=
| HNone
| HList (r : ref).

Definition htruthy (result : hvalue) (w : world float) : bool :=
  match result with
  | HNone => false
  | HList r => match deref (objects w) r with [] => false | _ :: _ => true end
  end.

Definition loop_body_heap (recurse : ref -> M (world float) hvalue)
    (rows : ref) (candidate : Z) : M (world float) (option hvalue) :=
  let! _ := list_append rows candidate in
  let! result := recurse rows in
  fun w =>
    if htruthy result w then Normal (Some result) w
    else (let! _ := list_pop rows in ret None) w.

(** [backtrack(rows)] *)
Fixpoint backtrack_heap (fuel : nat) (rows : ref) (w : world float)
    {struct fuel} : outcome (world float) hvalue :=
  match fuel with
  | O => OutOfFuel
  | S fuel' =>
      if Z.of_nat (length (deref (objects w) rows)) =? size n - 1
      then Normal (HList rows) w
      else
        (let! overlaps_needed :=
           list_new (repeat (n - 1) (length (deref (objects w) rows))) in
         let! result :=
           build_row_heap (loop_body_heap (backtrack_heap fuel') rows)
             (S (Z.to_nat (m n))) 0 (total_ones n) 0 rows overlaps_needed
             (m n) n in
         match result with
         | Some r => ret r
         | None => ret HNone
         end) w
  end.

(** [find_minimal_hadamard(n)], the clock read where the source reads it *)
Definition find_minimal_hadamard_heap : M (world float) hvalue :=
  fun w =>
    match first_row n with
    | None => Raise ValueError w
    | Some first_row =>
        (let! matrix := list_new [first_row] in
         let! start_time := perf_counter in
         let! result := backtrack_heap (S (Z.to_nat (size n))) matrix in
         let! end_time := perf_counter in
         let! _ := print_line (ElapsedLine start_time end_time) in
         ret result) w
    end.

(** The loop of [print_hadamard_01]; its body only prints. *)
Fixpoint print_rows_heap (i : Z) (rows : list Z) : M (world float) unit :=
  match rows with
  | [] => ret tt
  | row :: rows' =>
      fun w =>
        match row_list n row with
        | None => Raise ValueError w
        | Some l =>
            (let! _ := print_line (RowLine i l) in
             print_rows_heap (i + 1) rows') w
        end
  end.

Definition print_hadamard_01_heap (rows_bitmask : hvalue)
    : M (world float) unit :=
  let! _ := print_line (RowLine 0 (repeat 1 (Z.to_nat (size n)))) in
  fun w =>
    match rows_bitmask with
    | HNone => Raise TypeError w
    | HList r => print_rows_heap 1 (deref (objects w) r) w
    end.

Definition main_heap : M (world float) unit :=
  let! rows_bitmask := find_minimal_hadamard_heap in
  fun w =>
    if htruthy rows_bitmask w then print_hadamard_01_heap rows_bitmask w
    else Normal tt w.

End HeapSearch.

(** ** Notions of determinism over the store *)

(** Every object that [w] holds and that [mine] does not name is in [w']
    with the same elements. *)
Definition unchanged_except {float : Type} (mine : ref -> Prop)
    (w w' : world float) : Prop :=
  (length (objects w) <= length (objects w'))%nat /\
  forall r, (r < length (objects w))%nat -> ~ mine r ->
    deref (objects w') r = deref (objects w) r.

(** A run from [w] that left every object of [w] as it was, read no clock
    and printed nothing. *)
Definition untouched {float A : Type} (w : world float)
    (o : outcome (world float) A) : Prop :=
  match o with
  | Normal _ w' | Raise _ w' =>
      unchanged_except (fun _ => False) w w' /\
      clock w' = clock w /\ now w' = now w /\ printed w' = printed w
  | OutOfFuel => True
  end.

(** The list that a run returned, by its elements. *)
Definition yields {float : Type} (o : outcome (world float) ref)
    : outcome unit (list Z) :=
  match o with
  | Normal out w' => Normal (deref (objects w') out) tt
  | Raise e _ => Raise e tt
  | OutOfFuel => OutOfFuel
  end.

(** The elements of the list returned, if one was. *)
Definition contents {float : Type} (result : hvalue) (w : world float)
    : option (list Z) :=
  match result with
  | HNone => None
  | HList r => Some (deref (objects w) r)
  end.

(** What a run from [w] shows: how it ended, its result as [see] shows it,
    and the lines it printed, without the value of the elapsed time. *)
Definition observe_heap {float A B : Type} (see : A -> world float -> B)
    (w : world float) (o : outcome (world float) A)
    : outcome (list (option (Z * list Z))) B :=
  match o with
  | Normal a w' =>
      Normal (see a w')
        (map untimed (skipn (length (printed w)) (printed w')))
  | Raise e w' =>
      Raise e (map untimed (skipn (length (printed w)) (printed w')))
  | OutOfFuel => OutOfFuel
  end.

(** A run from [w] that left every object of [w] as it was and kept the
    lines printed before. *)
Definition extends {float A : Type} (w : world float)
    (o : outcome (world float) A) : Prop :=
  match o with
  | Normal _ w' | Raise _ w' =>
      unchanged_except (fun _ => False) w w' /\
      clock w' = clock w /\
      firstn (length (printed w)) (printed w') = printed w
  | OutOfFuel => True
  end.

(** Two runs, one over values and one over the store, that end alike. *)
Definition sim {St1 St2 A1 A2 : Type}
    (RelA : A1 -> St1 -> A2 -> St2 -> Prop) (RelE : St1 -> St2 -> Prop)
    (o1 : outcome St1 A1) (o2 : outcome St2 A2) : Prop :=
  match o1, o2 with
  | Normal a1 s1, Normal a2 s2 => RelA a1 s1 a2 s2
  | Raise e1 s1, Raise e2 s2 => e1 = e2 /\ RelE s1 s2
  | OutOfFuel, OutOfFuel => True
  | _, _ => False
  end.

(** How a loop over the generator ends alike in both: the loop went on in
    related states, or was left with related results. *)
Definition loop_rel {float St Rv R : Type} (mine : ref -> Prop)
    (Rel : St -> world float -> Prop)
    (RelR : Rv -> St -> R -> world float -> Prop) (w : world float)
    (a1 : option Rv) (s' : St) (a2 : option R) (w' : world float) : Prop :=
  unchanged_except mine w w' /\
  match a1, a2 with
  | None, None => Rel s' w'
  | Some r1, Some r2 => RelR r1 s' r2 w'
  | _, _ => False
  end.

(** The result over the store that stands for one over values. *)
Definition hv_matches (rows : ref) (v : value) (hv : hvalue) : Prop :=
  match v, hv with
  | PyNone, HNone => True
  | MatrixRef, HList r => r = rows
  | _, _ => False
  end.

(** What [observe_heap] shows of a run that [observe] shows as [o]. *)
Definition seen {A B : Type} (see : A -> list Z -> B)
    (o : outcome (list Z * list (option (Z * list Z))) A)
    : outcome (list (option (Z * list Z))) B :=
  match o with
  | Normal a s => Normal (see a (fst s)) (snd s)
  | Raise e s => Raise e (snd s)
  | OutOfFuel => OutOfFuel
  end.

Definition value_contents (result : value) (rows : list Z)
    : option (list Z) :=
  match result with
  | PyNone => None
  | MatrixRef => Some rows
  end.

(** The states of a collecting run over values and over the store that
    stand for each other, in a run that started from [w0]. *)
Definition collect_rel {float : Type} (prev_rows out : ref)
    (w0 : world float) (s : list Z * list Z) (w : world float) : Prop :=
  deref (objects w) prev_rows = fst s /\
  deref (objects w) out = snd s /\
  (prev_rows < length (objects w))%nat /\
  (out < length (objects w))%nat /\
  prev_rows <> out /\
  clock w = clock w0 /\ now w = now w0 /\ printed w = printed w0.

(** The same for a run of [backtrack] on the list [rows], which started
    from [s0] and [w0]. *)
Definition rows_rel {float : Type} (rows : ref) (s0 : state float)
    (w0 : world float) (s : state float) (w : world float) : Prop :=
  deref (objects w) rows = matrix s /\
  (rows < length (objects w))%nat /\
  clock w = clock w0 /\ now w = now w0 /\ printed w = printed w0 /\
  stdout s = stdout s0.

(** A result over the store that stands for one over values: both [None],
    or a list of the same elements. *)
Definition same_result {float : Type} (v : value) (rows : list Z)
    (hv : hvalue) (w : world float) : Prop :=
  match v, hv with
  | PyNone, HNone => True
  | MatrixRef, HList r => deref (objects w) r = rows
  | _, _ => False
  end.

(** What a run over the store did that a run over values stands for: it
    printed the same lines after those of [w], and left the objects of
    [w] as they were. *)
Definition same_effects {float : Type} (w : world float) (s' : state float)
    (w' : world float) : Prop :=
  printed w' = printed w ++ stdout s' /\
  unchanged_except (fun _ => False) w w' /\
  clock w' = clock w.

(** ** Bits *)

Lemma bit_set_testbit (prev k : Z) :
  0 <= k -> bit_set prev k = Some (Z.testbit prev k).
Proof.
  intros Hk. unfold bit_set, py_rshift.
  destruct (Z.ltb_spec k 0) as [Hlt | _]; [lia |].
  f_equal.
  change 1 with (Z.ones 1).
  rewrite Z.land_ones by lia.
  rewrite <- (Z.add_0_l k) at 2.
  rewrite <- Z.shiftr_spec by lia.
  rewrite Z.bit0_eqb. change (2 ^ 1) with 2.
  pose proof (Z.mod_pos_bound (Z.shiftr prev k) 2 eq_refl) as Hb.
  destruct (Z.eqb_spec (Z.shiftr prev k mod 2) 0) as [E | E];
    destruct (Z.eqb_spec (Z.shiftr prev k mod 2) 1) as [E1 | E1];
    simpl; try reflexivity; lia.
Qed.

Lemma bit_set_negative (prev k : Z) : k < 0 -> bit_set prev k = None.
Proof.
  intros Hk. unfold bit_set, py_rshift.
  destruct (Z.ltb_spec k 0); [reflexivity | lia].
Qed.

Lemma py_lshift_pow2 (k : Z) : 0 <= k -> py_lshift 1 k = Some (2 ^ k).
Proof.
  intros Hk. unfold py_lshift.
  destruct (Z.ltb_spec k 0); [lia |].
  now rewrite Z.shiftl_1_l.
Qed.

Lemma testbit_small (x d j : Z) :
  0 <= x < 2 ^ d -> d <= j -> Z.testbit x j = false.
Proof.
  intros Hx Hj.
  destruct (Z.ltb_spec d 0) as [Hd | Hd].
  - rewrite Z.pow_neg_r in Hx by assumption. lia.
  - rewrite <- (Z.mod_small x (2 ^ d)) by assumption.
    apply Z.mod_pow2_bits_high. lia.
Qed.

Lemma land_small (x p d : Z) :
  0 <= x < 2 ^ d -> 0 <= Z.land x p < 2 ^ d.
Proof.
  intros Hx.
  destruct (Z.ltb_spec d 0) as [Hd | Hd].
  { rewrite Z.pow_neg_r in Hx by assumption. lia. }
  assert (E : Z.land x p = Z.land x p mod 2 ^ d).
  { apply Z.bits_inj'. intros j Hj.
    destruct (Z.ltb_spec j d) as [Hlt | Hge].
    - now rewrite Z.mod_pow2_bits_low.
    - rewrite Z.mod_pow2_bits_high by lia.
      rewrite Z.land_spec, (testbit_small x d j) by assumption.
      reflexivity. }
  rewrite E. apply Z.mod_pos_bound. apply Z.pow_pos_nonneg; lia.
Qed.

Lemma land_pow2_small (x d : Z) :
  0 <= d -> 0 <= x < 2 ^ d -> Z.land (2 ^ d) x = 0.
Proof.
  intros Hd Hx. apply Z.bits_inj'. intros j Hj.
  rewrite Z.land_spec, Z.bits_0, Z.pow2_bits_eqb by assumption.
  destruct (Z.eqb_spec d j) as [-> | Hne]; [| reflexivity].
  rewrite (testbit_small x j j); [reflexivity | assumption | lia].
Qed.

Lemma lor_pow2_small (x d : Z) :
  0 <= d -> 0 <= x < 2 ^ d -> Z.lor (2 ^ d) x = 2 ^ d + x.
Proof.
  intros Hd Hx.
  rewrite <- Z.lxor_lor by now apply land_pow2_small.
  symmetry. apply Z.add_nocarry_lxor. now apply land_pow2_small.
Qed.

Lemma land_high_bit (x p d : Z) :
  0 <= d -> 0 <= x < 2 ^ d ->
  Z.land (2 ^ d + x) p = b2z (Z.testbit p d) * 2 ^ d + Z.land x p.
Proof.
  intros Hd Hx.
  rewrite <- lor_pow2_small by assumption.
  rewrite Z.land_lor_distr_l.
  assert (E : Z.land (2 ^ d) p = b2z (Z.testbit p d) * 2 ^ d).
  { apply Z.bits_inj'. intros j Hj.
    rewrite Z.land_spec, Z.pow2_bits_eqb by assumption.
    destruct (Z.eqb_spec d j) as [<- | Hne].
    - destruct (Z.testbit p d); simpl b2z.
      + rewrite Z.mul_1_l, Z.pow2_bits_true by assumption. reflexivity.
      + rewrite Z.mul_0_l, Z.bits_0. reflexivity.
    - destruct (Z.testbit p d); simpl b2z.
      + rewrite Z.mul_1_l, Z.pow2_bits_false by assumption. reflexivity.
      + rewrite Z.mul_0_l, Z.bits_0. reflexivity. }
  rewrite E.
  destruct (Z.testbit p d); simpl b2z.
  - rewrite Z.mul_1_l. apply lor_pow2_small; [assumption |].
    now apply land_small.
  - rewrite Z.mul_0_l. apply Z.lor_0_l.
Qed.

(** ** Counting bits *)

Lemma popcount_double (z b : Z) :
  0 <= z -> 0 <= b <= 1 -> popcount (2 * z + b) = popcount z + b.
Proof.
  intros Hz Hb.
  assert (Eb : b = 0 \/ b = 1) by lia.
  destruct z as [| p | p]; [| | lia]; destruct Eb as [-> | ->].
  - reflexivity.
  - reflexivity.
  - change (2 * Z.pos p + 0) with (Z.pos p~0).
    cbn [popcount pos_popcount]. lia.
  - change (2 * Z.pos p + 1) with (Z.pos p~1).
    cbn [popcount pos_popcount]. lia.
Qed.

Lemma popcount_high_bit (d : nat) (x : Z) :
  0 <= x < 2 ^ Z.of_nat d ->
  popcount (2 ^ Z.of_nat d + x) = 1 + popcount x.
Proof.
  revert x. induction d as [| d IH]; intros x Hx.
  - simpl in Hx. assert (x = 0) as -> by lia. reflexivity.
  - rewrite Nat2Z.inj_succ, Z.pow_succ_r in * by lia.
    pose proof (Z.div_mod x 2 ltac:(lia)) as Hdm.
    pose proof (Z.mod_pos_bound x 2 eq_refl) as Hm.
    assert (Hq : 0 <= x / 2 < 2 ^ Z.of_nat d).
    { split; [apply Z.div_pos; lia | apply Z.div_lt_upper_bound; lia]. }
    replace (2 * 2 ^ Z.of_nat d + x)
      with (2 * (2 ^ Z.of_nat d + x / 2) + x mod 2) by lia.
    rewrite popcount_double by lia.
    rewrite IH by assumption.
    rewrite Hdm at 3. rewrite popcount_double by lia. lia.
Qed.

Lemma popcount_bounds (d : nat) (x : Z) :
  0 <= x < 2 ^ Z.of_nat d -> 0 <= popcount x <= Z.of_nat d.
Proof.
  revert x. induction d as [| d IH]; intros x Hx.
  - simpl in Hx. assert (x = 0) as -> by lia. simpl. lia.
  - rewrite Nat2Z.inj_succ, Z.pow_succ_r in * by lia.
    pose proof (Z.div_mod x 2 ltac:(lia)) as Hdm.
    pose proof (Z.mod_pos_bound x 2 eq_refl) as Hm.
    assert (Hq : 0 <= x / 2 < 2 ^ Z.of_nat d).
    { split; [apply Z.div_pos; lia | apply Z.div_lt_upper_bound; lia]. }
    rewrite Hdm, popcount_double by lia.
    specialize (IH _ Hq). lia.
Qed.

(** ** The two scanning loops *)

Lemma set_scan_spec (bit_index remaining_positions m : Z)
    (prev_rows overlaps_needed new_overlaps : list Z) :
  0 <= m - 1 - bit_index ->
  remaining_positions = m - bit_index ->
  set_scan bit_index remaining_positions m prev_rows overlaps_needed
    new_overlaps =
  if set_ok (m - 1 - bit_index) prev_rows overlaps_needed
  then Kept (new_overlaps
             ++ set_overlaps (m - 1 - bit_index) prev_rows overlaps_needed)
  else Pruned.
Proof.
  intros Hd ->. unfold set_ok, set_overlaps.
  revert overlaps_needed new_overlaps.
  induction prev_rows as [| prev P IH]; intros [| needed ov] acc; simpl;
    try (now rewrite app_nil_r).
  rewrite bit_set_testbit by assumption.
  destruct (Z.testbit prev (m - 1 - bit_index)); simpl b2z.
  - destruct (Z.ltb_spec (needed - 1) 0);
      destruct (Z.leb_spec 0 (needed - 1)); try lia; simpl; [reflexivity |].
    rewrite Z.gtb_ltb.
    destruct (Z.ltb_spec (m - bit_index - 1) (needed - 1));
      destruct (Z.leb_spec (needed - 1) (m - 1 - bit_index)); try lia;
      simpl; [reflexivity |].
    rewrite IH, <- app_assoc. reflexivity.
  - rewrite Z.sub_0_r.
    destruct (Z.ltb_spec needed 0);
      destruct (Z.leb_spec 0 needed); try lia; simpl; [reflexivity |].
    rewrite Z.gtb_ltb.
    destruct (Z.ltb_spec (m - bit_index - 1) needed);
      destruct (Z.leb_spec needed (m - 1 - bit_index)); try lia;
      simpl; [reflexivity |].
    rewrite IH, <- app_assoc. reflexivity.
Qed.

Lemma clear_scan_spec (bit_index remaining_positions m : Z)
    (prev_rows overlaps_needed new_overlaps : list Z) :
  0 <= m - 1 - bit_index ->
  remaining_positions = m - bit_index ->
  clear_scan bit_index remaining_positions m prev_rows overlaps_needed
    new_overlaps =
  if clear_ok (m - 1 - bit_index) prev_rows overlaps_needed
  then Kept (new_overlaps ++ clear_overlaps prev_rows overlaps_needed)
  else Pruned.
Proof.
  intros Hd ->. unfold clear_ok, clear_overlaps.
  revert overlaps_needed new_overlaps.
  induction prev_rows as [| prev P IH]; intros [| needed ov] acc; simpl;
    try (now rewrite app_nil_r).
  rewrite bit_set_testbit by assumption.
  replace (m - bit_index - 1) with (m - 1 - bit_index) by lia.
  destruct (Z.testbit prev (m - 1 - bit_index)
            && (needed >? m - 1 - bit_index)); simpl; [reflexivity |].
  rewrite IH, <- app_assoc. reflexivity.
Qed.

(** Without a valid shift count each loop raises as soon as it has a row to
    look at. *)
Lemma clear_scan_negative (bit_index remaining_positions m prev needed : Z)
    (prev_rows overlaps_needed new_overlaps : list Z) :
  m - 1 - bit_index < 0 ->
  clear_scan bit_index remaining_positions m (prev :: prev_rows)
    (needed :: overlaps_needed) new_overlaps = ShiftError.
Proof.
  intros Hd. simpl. now rewrite bit_set_negative.
Qed.

(** ** The consumer loop *)

Lemma for_each_app {St R : Type} (body : Z -> M St (option R))
    (l1 l2 : list Z) (s : St) :
  for_each body (l1 ++ l2) s =
  match for_each body l1 s with
  | Normal None s1 => for_each body l2 s1
  | stopped => stopped
  end.
Proof.
  revert s. induction l1 as [| c l1 IH]; intros s; simpl; [reflexivity |].
  destruct (body c s) as [[r |] s' | e s' |]; auto.
Qed.

(** Hoare rule for the loop: [Inv] holds between iterations, [Post] when the
    body leaves the loop; the loop neither raises nor diverges when the body
    does not. *)
Lemma for_each_rule {St R : Type} (body : Z -> M St (option R))
    (Inv : St -> Prop) (Post : R -> St -> Prop) (l : list Z) :
  (forall c s, In c l -> Inv s ->
     match body c s with
     | Normal None s' => Inv s'
     | Normal (Some r) s' => Post r s'
     | _ => False
     end) ->
  forall s, Inv s ->
    match for_each body l s with
    | Normal None s' => Inv s'
    | Normal (Some r) s' => Post r s'
    | _ => False
    end.
Proof.
  induction l as [| c l IH]; intros Hbody s Hs; simpl; [assumption |].
  pose proof (Hbody c s (or_introl eq_refl) Hs) as Hc.
  destruct (body c s) as [[r |] s' | e s' |]; try assumption.
  apply IH; [| assumption].
  intros c' s0 Hin. apply Hbody. now right.
Qed.

Lemma for_each_preserves {St R : Type} (body : Z -> M St (option R))
    (Inv : St -> Prop) (l : list Z) :
  (forall c s s', In c l -> Inv s -> body c s = Normal None s' -> Inv s') ->
  forall s s', Inv s -> for_each body l s = Normal None s' -> Inv s'.
Proof.
  induction l as [| c l IH]; intros Hbody s s' Hs; simpl.
  - intros [= <-]. assumption.
  - destruct (body c s) as [[r |] s1 | e s1 |] eqn:E; try discriminate.
    apply IH; [| eapply Hbody; eauto; now left].
    intros c' t t' Hin. apply Hbody. now right.
Qed.

(** ** The generator enumerates [completions] *)

Lemma completions_range (d : nat) (k : Z) (P ov : list Z) (x : Z) :
  In x (completions d k P ov) -> 0 <= x < 2 ^ Z.of_nat d.
Proof.
  revert k ov x. induction d as [| d IH]; intros k ov x; simpl completions.
  - destruct ((k =? 0) && forallb (fun x => x =? 0) ov); simpl;
      [intros [<- | []]; simpl; lia | intros []].
  - rewrite Nat2Z.inj_succ, Z.pow_succ_r by lia.
    rewrite in_app_iff. intros [Hin | Hin].
    + destruct ((k >? 0) && set_ok (Z.of_nat d) P ov); [| destruct Hin].
      apply in_map_iff in Hin as (y & <- & Hy). apply IH in Hy. lia.
    + destruct (clear_ok (Z.of_nat d) P ov); [| destruct Hin].
      apply IH in Hin. lia.
Qed.

Lemma lor_set_bit (cur x : Z) (d : nat) :
  0 <= x < 2 ^ Z.of_nat d ->
  Z.lor (Z.lor cur (2 ^ Z.of_nat d)) x = Z.lor cur (2 ^ Z.of_nat d + x).
Proof.
  intros Hx. rewrite <- Z.lor_assoc. f_equal.
  apply lor_pow2_small; [lia | assumption].
Qed.

Theorem build_row_for_each {St R : Type} (prev_rows : St -> list Z)
    (body : Z -> M St (option R)) (P : list Z) (m n : Z) :
  forall (d fuel : nat) (k cur : Z) (ov : list Z) (s : St),
    (d < fuel)%nat ->
    Z.of_nat d <= m ->
    prev_rows s = P ->
    (forall c t t', In c (map (Z.lor cur) (completions d k P ov)) ->
       prev_rows t = P -> body c t = Normal None t' -> prev_rows t' = P) ->
    build_row prev_rows body fuel (m - Z.of_nat d) k cur ov m n s =
    for_each body (map (Z.lor cur) (completions d k P ov)) s.
Proof.
  induction d as [| d IH]; intros fuel k cur ov s Hfuel Hm HP Hbody;
    (destruct fuel as [| fuel]; [lia |]).
  - cbn [build_row completions]. rewrite Z.sub_0_r, Z.eqb_refl.
    destruct ((k =? 0) && forallb (fun x => x =? 0) ov); simpl;
      [| reflexivity].
    rewrite Z.lor_0_r.
    destruct (body cur s) as [[r |] s' | e s' |]; reflexivity.
  - cbn [build_row].
    destruct (Z.eqb_spec (m - Z.of_nat (S d)) m) as [E | _]; [lia |].
    assert (Hsh : m - 1 - (m - Z.of_nat (S d)) = Z.of_nat d) by lia.
    assert (Hnext : m - Z.of_nat (S d) + 1 = m - Z.of_nat d) by lia.
    rewrite Hnext.
    rewrite set_scan_spec by lia.
    rewrite py_lshift_pow2 by lia.
    rewrite Hsh, HP.
    cbn [completions] in Hbody |- *.
    rewrite map_app, for_each_app in *.
    set (l1 := if (k >? 0) && set_ok (Z.of_nat d) P ov
               then map (Z.add (2 ^ Z.of_nat d))
                      (completions d (k - 1) P
                         (set_overlaps (Z.of_nat d) P ov))
               else []) in *.
    set (l0 := if clear_ok (Z.of_nat d) P ov
               then completions d k P (clear_overlaps P ov)
               else []) in *.
    assert (E1 :
      (if k >? 0
       then if set_ok (Z.of_nat d) P ov
            then build_row prev_rows body fuel (m - Z.of_nat d) (k - 1)
                   (Z.lor cur (2 ^ Z.of_nat d))
                   ([] ++ set_overlaps (Z.of_nat d) P ov) m n s
            else Normal None s
       else Normal None s)
      = for_each body (map (Z.lor cur) l1) s).
    { subst l1. destruct (k >? 0); [| reflexivity].
      destruct (set_ok (Z.of_nat d) P ov) eqn:Eok; [| reflexivity].
      cbn [andb app] in *.
      assert (Emap :
        map (Z.lor (Z.lor cur (2 ^ Z.of_nat d)))
            (completions d (k - 1) P (set_overlaps (Z.of_nat d) P ov))
        = map (Z.lor cur)
            (map (Z.add (2 ^ Z.of_nat d))
               (completions d (k - 1) P (set_overlaps (Z.of_nat d) P ov)))).
      { rewrite map_map. apply map_ext_in. intros x Hx.
        apply lor_set_bit. eapply completions_range; eassumption. }
      rewrite <- Emap. apply IH; [lia | lia | assumption |].
      intros c t t' Hin. apply Hbody. rewrite in_app_iff. left.
      now rewrite <- Emap. }
    match goal with
    | |- match ?X with _ => _ end = _ =>
        replace X with (for_each body (map (Z.lor cur) l1) s)
    end.
    2:{ rewrite <- E1. destruct (k >? 0); [| reflexivity].
        destruct (set_ok (Z.of_nat d) P ov); reflexivity. }
    destruct (for_each body (map (Z.lor cur) l1) s)
      as [[r |] s1 | e s1 |] eqn:Efirst; try reflexivity.
    assert (HP1 : prev_rows s1 = P).
    { eapply (for_each_preserves body (fun t => prev_rows t = P));
        [| exact HP | exact Efirst].
      intros c t t' Hin. apply Hbody. rewrite in_app_iff. now left. }
    rewrite clear_scan_spec by lia.
    rewrite Hsh, HP1. subst l0.
    destruct (clear_ok (Z.of_nat d) P ov); [| reflexivity].
    cbn [app]. apply IH; [lia | lia | assumption |].
    intros c t t' Hin. apply Hbody. rewrite in_app_iff. now right.
Qed.

(** ** What [completions] contains *)

Lemma popcount_land_high_bit (d : nat) (y p : Z) :
  0 <= y < 2 ^ Z.of_nat d ->
  popcount (Z.land (2 ^ Z.of_nat d + y) p)
  = b2z (Z.testbit p (Z.of_nat d)) + popcount (Z.land y p).
Proof.
  intros Hy. rewrite land_high_bit by (assumption || lia).
  destruct (Z.testbit p (Z.of_nat d)); simpl b2z.
  - rewrite Z.mul_1_l. apply popcount_high_bit. now apply land_small.
  - reflexivity.
Qed.

Lemma combine_map_r {A B C : Type} (f : A * B -> C) (l : list A)
    (l' : list B) :
  combine l (map f (combine l l')) =
  map (fun ab => (fst ab, f ab)) (combine l l').
Proof.
  revert l'. induction l as [| a l IH]; intros [| b l']; simpl;
    try reflexivity.
  now rewrite IH.
Qed.

Lemma combine_clear_overlaps (P ov : list Z) :
  combine P (clear_overlaps P ov) = combine P ov.
Proof.
  unfold clear_overlaps. rewrite combine_map_r.
  rewrite <- (map_id (combine P ov)) at 2.
  apply map_ext. now intros [p x].
Qed.

Lemma length_set_overlaps (d : Z) (P ov : list Z) :
  length P = length ov -> length P = length (set_overlaps d P ov).
Proof.
  intros H. unfold set_overlaps. rewrite length_map, length_combine. lia.
Qed.

Lemma length_clear_overlaps (P ov : list Z) :
  length P = length ov -> length P = length (clear_overlaps P ov).
Proof.
  intros H. unfold clear_overlaps. rewrite length_map, length_combine. lia.
Qed.

Lemma all_zero_combine (P ov : list Z) :
  length P = length ov ->
  forallb (fun x => x =? 0) ov = true <->
  Forall (fun pn : Z * Z => 0 = snd pn) (combine P ov).
Proof.
  revert ov. induction P as [| p P IH]; intros [| x ov] Hlen;
    simpl in *; try discriminate.
  - split; [constructor | reflexivity].
  - injection Hlen as Hlen. rewrite andb_true_iff, Forall_cons_iff, Z.eqb_eq.
    rewrite (IH _ Hlen). simpl. intuition lia.
Qed.

Theorem completions_valid (d : nat) (k : Z) (P ov : list Z) (x : Z) :
  length P = length ov ->
  In x (completions d k P ov) <-> valid d k P ov x.
Proof.
  revert k ov x. induction d as [| d IH]; intros k ov x Hlen.
  - unfold valid. simpl completions. change (2 ^ Z.of_nat 0) with 1.
    split.
    + destruct ((k =? 0) && forallb (fun x => x =? 0) ov) eqn:Ec;
        [| intros []].
      apply andb_true_iff in Ec as [Hk Hz].
      intros [<- | []]. apply Z.eqb_eq in Hk.
      repeat split; try lia; [now subst |].
      now apply all_zero_combine.
    + intros (Hx & Hk & Hov). assert (x = 0) as -> by lia.
      simpl in Hk. subst k.
      apply (all_zero_combine P ov Hlen) in Hov. rewrite Hov.
      now left.
  - simpl completions. rewrite in_app_iff.
    pose proof (Z.pow_pos_nonneg 2 (Z.of_nat d) eq_refl ltac:(lia)) as Hpos.
    assert (Hpow : 2 ^ Z.of_nat (S d) = 2 * 2 ^ Z.of_nat d).
    { rewrite Nat2Z.inj_succ. apply Z.pow_succ_r. lia. }
    split.
    + intros [Hin | Hin].
      * destruct (Z.gtb_spec k 0) as [Hk | Hk]; [| destruct Hin].
        destruct (set_ok (Z.of_nat d) P ov) eqn:Eok; [| destruct Hin].
        simpl in Hin. apply in_map_iff in Hin as (y & <- & Hy).
        apply IH in Hy; [| now apply length_set_overlaps].
        destruct Hy as (Hy & Hpc & Hov).
        repeat split; try lia.
        -- rewrite popcount_high_bit by assumption. lia.
        -- unfold set_overlaps in Hov. rewrite combine_map_r in Hov.
           rewrite Forall_map in Hov.
           eapply Forall_impl; [| exact Hov].
           intros [p needed]; simpl. intros Hp.
           rewrite popcount_land_high_bit by assumption. lia.
      * destruct (clear_ok (Z.of_nat d) P ov); [| destruct Hin].
        apply IH in Hin; [| now apply length_clear_overlaps].
        destruct Hin as (Hy & Hpc & Hov).
        rewrite combine_clear_overlaps in Hov.
        repeat split; try lia; assumption.
    + intros (Hx & Hpc & Hov).
      destruct (Z.lt_ge_cases x (2 ^ Z.of_nat d)) as [Hlow | Hhigh].
      * right.
        assert (Eok : clear_ok (Z.of_nat d) P ov = true).
        { unfold clear_ok. apply forallb_forall. intros [p needed] Hin.
          rewrite Forall_forall in Hov. specialize (Hov _ Hin).
          simpl in *.
          pose proof (popcount_bounds d (Z.land x p)
                        (land_small x p _ (conj (proj1 Hx) Hlow))) as Hb.
          destruct (Z.gtb_spec needed (Z.of_nat d)); [lia |].
          now rewrite andb_false_r. }
        rewrite Eok. apply IH; [now apply length_clear_overlaps |].
        repeat split; try lia.
        now rewrite combine_clear_overlaps.
      * left. set (y := x - 2 ^ Z.of_nat d).
        assert (Hy : 0 <= y < 2 ^ Z.of_nat d) by (unfold y; lia).
        assert (Ex : x = 2 ^ Z.of_nat d + y) by (unfold y; lia).
        rewrite Ex in Hpc, Hov.
        rewrite popcount_high_bit in Hpc by assumption.
        pose proof (popcount_bounds d y Hy) as Hby.
        assert (Hov' :
          Forall (fun pn => popcount (Z.land y (fst pn)) = snd pn)
                 (combine P (set_overlaps (Z.of_nat d) P ov))).
        { unfold set_overlaps. rewrite combine_map_r, Forall_map.
          eapply Forall_impl; [| exact Hov].
          intros [p needed]; simpl. intros Hp.
          rewrite popcount_land_high_bit in Hp by assumption. lia. }
        assert (Eok : set_ok (Z.of_nat d) P ov = true).
        { unfold set_ok. apply forallb_forall. intros v Hv.
          pose proof (length_set_overlaps (Z.of_nat d) P ov Hlen) as Hl.
          destruct (In_nth _ _ 0 Hv) as (i & Hi & Hnth).
          assert (Hc : In (nth i P 0, v)
                          (combine P (set_overlaps (Z.of_nat d) P ov))).
          { rewrite <- Hnth, <- combine_nth by assumption.
            apply nth_In. rewrite length_combine. lia. }
          rewrite Forall_forall in Hov'. specialize (Hov' _ Hc).
          simpl in Hov'.
          pose proof (popcount_bounds d (Z.land y (nth i P 0))
                        (land_small y _ _ Hy)) as Hb.
          apply andb_true_iff. split; [apply Z.leb_le | apply Z.leb_le];
            lia. }
        rewrite Eok.
        destruct (Z.gtb_spec k 0) as [_ | Hk]; [| lia].
        simpl. rewrite Ex. apply in_map.
        apply IH; [now apply length_set_overlaps |].
        repeat split; try lia. assumption.
Qed.

(** ** In which order *)

Lemma sorted_app (l1 l2 : list Z) :
  StronglySorted Z.gt l1 -> StronglySorted Z.gt l2 ->
  (forall a b, In a l1 -> In b l2 -> a > b) ->
  StronglySorted Z.gt (l1 ++ l2).
Proof.
  intros H1 H2 H12. induction H1 as [| a l1 Hs IH Ha]; simpl;
    [assumption |].
  constructor.
  - apply IH. intros x y Hx. apply H12. now right.
  - apply Forall_app. split; [assumption |].
    apply Forall_forall. intros b Hb. apply H12; [now left | assumption].
Qed.

Lemma sorted_map (f : Z -> Z) (l : list Z) :
  (forall a b, In a l -> In b l -> a > b -> f a > f b) ->
  StronglySorted Z.gt l -> StronglySorted Z.gt (map f l).
Proof.
  intros Hf H. induction H as [| a l Hs IH Ha]; simpl; constructor.
  - apply IH. intros x y Hx Hy. apply Hf; now right.
  - apply Forall_map. rewrite Forall_forall in *. intros b Hb.
    apply Hf; [now left | now right | now apply Ha].
Qed.

Theorem completions_sorted (d : nat) (k : Z) (P ov : list Z) :
  StronglySorted Z.gt (completions d k P ov).
Proof.
  revert k ov. induction d as [| d IH]; intros k ov; simpl completions.
  - destruct ((k =? 0) && forallb (fun x => x =? 0) ov);
      repeat constructor.
  - apply sorted_app.
    + destruct ((k >? 0) && set_ok (Z.of_nat d) P ov); [| constructor].
      apply sorted_map; [intros; lia | apply IH].
    + destruct (clear_ok (Z.of_nat d) P ov); [apply IH | constructor].
    + intros a b Ha Hb.
      destruct ((k >? 0) && set_ok (Z.of_nat d) P ov); [| destruct Ha].
      destruct (clear_ok (Z.of_nat d) P ov); [| destruct Hb].
      apply in_map_iff in Ha as (y & <- & Hy).
      apply completions_range in Hy, Hb. lia.
Qed.

Lemma lor_disjoint_add (cur x : Z) (d : nat) :
  (forall j, 0 <= j < Z.of_nat d -> Z.testbit cur j = false) ->
  0 <= x < 2 ^ Z.of_nat d ->
  Z.lor cur x = cur + x.
Proof.
  intros Hcur Hx.
  assert (E : Z.land cur x = 0).
  { apply Z.bits_inj'. intros j Hj. rewrite Z.land_spec, Z.bits_0.
    destruct (Z.lt_ge_cases j (Z.of_nat d)) as [Hlt | Hge].
    - rewrite Hcur by lia. reflexivity.
    - rewrite (testbit_small x (Z.of_nat d) j) by assumption.
      apply andb_false_r. }
  rewrite <- Z.lxor_lor by assumption.
  symmetry. now apply Z.add_nocarry_lxor.
Qed.

Corollary build_row_top {St R : Type} (prev_rows : St -> list Z)
    (body : Z -> M St (option R)) (P : list Z) (m n k : Z) (ov : list Z)
    (s : St) :
  0 <= m ->
  prev_rows s = P ->
  (forall c t t', In c (completions (Z.to_nat m) k P ov) ->
     prev_rows t = P -> body c t = Normal None t' -> prev_rows t' = P) ->
  build_row prev_rows body (S (Z.to_nat m)) 0 k 0 ov m n s =
  for_each body (completions (Z.to_nat m) k P ov) s.
Proof.
  intros Hm HP Hbody.
  assert (Eid : map (Z.lor 0) (completions (Z.to_nat m) k P ov)
                = completions (Z.to_nat m) k P ov).
  { rewrite <- (map_id (completions _ _ _ _)) at 2. now apply map_ext. }
  rewrite <- Eid.
  replace 0 with (m - Z.of_nat (Z.to_nat m)) at 1 by lia.
  apply build_row_for_each; try lia; [assumption |].
  now rewrite Eid.
Qed.

(** ** A rule for the generator under any consumer *)

Lemma build_row_rule {St R : Type} (prev_rows : St -> list Z)
    (body : Z -> M St (option R)) (Inv : St -> Prop)
    (Post : R -> St -> Prop) :
  (forall c s, Inv s -> loop_post Inv Post (body c s)) ->
  forall fuel bit_index ones_left current_row overlaps_needed m n s,
    Inv s ->
    loop_post Inv Post
      (build_row prev_rows body fuel bit_index ones_left current_row
         overlaps_needed m n s).
Proof.
  intros Hbody.
  induction fuel as [| fuel IH]; intros bi k cur ov m n s Hs;
    cbn [build_row]; [exact I |].
  destruct (bi =? m).
  - destruct ((k =? 0) && forallb (fun x => x =? 0) ov);
      [now apply Hbody | exact Hs].
  - match goal with
    | |- loop_post _ _ (match ?X with _ => _ end) =>
        assert (H1 : loop_post Inv Post X); [| destruct X as [[r |] s1 | |]]
    end.
    + destruct (k >? 0); [| exact Hs].
      destruct (set_scan bi (m - bi) m (prev_rows s) ov []);
        [exact Hs | | exact I].
      destruct (py_lshift 1 (m - 1 - bi)); [now apply IH | exact I].
    + exact H1.
    + simpl in H1.
      destruct (clear_scan bi (m - bi) m (prev_rows s1) ov []);
        [exact H1 | now apply IH | exact I].
    + exact I.
    + exact I.
Qed.

(** ** The backtracking search *)

Section Backtracking.

Context {float : Type}.
Variable n : Z.

Lemma pop_append (s : state float) (c : Z) :
  pop (mkState (matrix s ++ [c]) (stdout s)) = Normal tt s.
Proof.
  unfold pop. cbn [matrix stdout].
  destruct (matrix s ++ [c]) eqn:E.
  - symmetry in E. now apply app_cons_not_nil in E.
  - rewrite <- E, removelast_last. now destruct s.
Qed.

(** One iteration of the loop, once the recursive call is known to put
    the list back when it answers [None]. *)
Lemma loop_body_rule (recurse : M (state float) value) (c : Z)
    (s : state float) :
  (forall t t', recurse t = Normal PyNone t' -> t' = t) ->
  loop_post (fun t => t = s)
    (fun r t => r = MatrixRef /\
                recurse (mkState (matrix s ++ [c]) (stdout s))
                = Normal MatrixRef t)
    (loop_body recurse c s).
Proof.
  intros Hrec. unfold loop_body, bind, append.
  destruct (recurse _) as [[|] s3 | e s3 |] eqn:E; cbn [loop_post truthy].
  - apply Hrec in E. subst s3. rewrite pop_append. reflexivity.
  - destruct (matrix s3) eqn:Em.
    + unfold pop. rewrite Em. exact I.
    + split; reflexivity.
  - exact I.
  - exact I.
Qed.

Lemma backtrack_undoes_appends (fuel : nat) (s s' : state float) :
  backtrack n fuel s = Normal PyNone s' -> s' = s.
Proof.
  revert s s'. induction fuel as [| fuel IH]; intros s s';
    cbn [backtrack]; [discriminate |].
  destruct (Z.of_nat (length (matrix s)) =? size n - 1); [discriminate |].
  unfold bind.
  pose proof (build_row_rule matrix (loop_body (backtrack n fuel))
                (fun t => t = s) (fun r _ => r = MatrixRef)) as Hrule.
  match goal with
  | |- match ?X with _ => _ end = _ -> _ =>
      assert (H : loop_post (fun t => t = s) (fun r _ => r = MatrixRef) X)
  end.
  { apply Hrule; [| reflexivity].
    intros c t ->.
    pose proof (loop_body_rule (backtrack n fuel) c s IH) as Hb.
    destruct (loop_body (backtrack n fuel) c s) as [[r |] t | e t |];
      simpl in *; tauto. }
  match goal with
  | |- match ?X with _ => _ end = _ -> _ =>
      destruct X as [[r |] t | e t |]
  end; simpl in H; unfold ret; try discriminate.
  - intros [= -> <-]. discriminate.
  - intros [= <-]. assumption.
Qed.

Lemma ForallOrdPairs_snoc {A : Type} (R : A -> A -> Prop) (l : list A)
    (c : A) :
  ForallOrdPairs R l -> Forall (fun a => R a c) l ->
  ForallOrdPairs R (l ++ [c]).
Proof.
  intros H. induction H as [| a l Ha Hl IH]; intros Hc; simpl.
  - repeat constructor.
  - apply Forall_cons_iff in Hc as [Hac Hc]. constructor.
    + apply Forall_app. split; [assumption | now constructor].
    + now apply IH.
Qed.

Lemma combine_repeat (P : list Z) (v : Z) :
  combine P (repeat v (length P)) = map (fun p => (p, v)) P.
Proof.
  induction P as [| p P IH]; simpl; [reflexivity | now rewrite IH].
Qed.

Lemma candidate_extends (rows : list Z) (c : Z) :
  0 <= m n ->
  partial_design n rows ->
  In c (completions (Z.to_nat (m n)) (total_ones n) rows
          (repeat (n - 1) (length rows))) ->
  partial_design n (rows ++ [c]).
Proof.
  intros Hm [Hrows Hpairs] Hin.
  apply completions_valid in Hin; [| now rewrite repeat_length].
  destruct Hin as (Hc & Hpc & Hov).
  rewrite Z2Nat.id in Hc by assumption.
  rewrite combine_repeat, Forall_map in Hov. simpl in Hov.
  split.
  - apply Forall_app. split; [assumption |].
    constructor; [now split | constructor].
  - now apply ForallOrdPairs_snoc.
Qed.

Theorem backtrack_total (fuel : nat) (s : state float) :
  1 <= n ->
  partial_design n (matrix s) ->
  Z.of_nat (length (matrix s)) <= size n - 1 ->
  size n - 1 - Z.of_nat (length (matrix s)) < Z.of_nat fuel ->
  match backtrack n fuel s with
  | Normal PyNone s' => s' = s
  | Normal MatrixRef s' => found n s s'
  | _ => False
  end.
Proof.
  intros Hn. revert s.
  induction fuel as [| fuel IH]; intros s Hdes Hlen Hfuel; [lia |].
  cbn [backtrack].
  destruct (Z.eqb_spec (Z.of_nat (length (matrix s))) (size n - 1))
    as [E | E].
  { split; [reflexivity | split; assumption]. }
  unfold bind.
  assert (Hm : 0 <= m n) by (unfold m, size; lia).
  rewrite (build_row_top matrix _ (matrix s)); try reflexivity;
    try assumption.
  2:{ intros c t t' _ Ht Hb.
      pose proof (loop_body_rule (backtrack n fuel) c t
                    (backtrack_undoes_appends fuel)) as Hr.
      rewrite Hb in Hr. simpl in Hr. now subst. }
  pose proof (for_each_rule (loop_body (backtrack n fuel))
                (fun t => t = s)
                (fun r t => r = MatrixRef /\ found n s t)
                (completions (Z.to_nat (m n)) (total_ones n) (matrix s)
                   (repeat (n - 1) (length (matrix s))))) as Hloop.
  match type of Hloop with
  | ?A -> _ => assert (Hb : A)
  end.
  { intros c t Hin ->.
    pose proof (candidate_extends _ c Hm Hdes Hin) as Hext.
    specialize (IH (mkState (matrix s ++ [c]) (stdout s))).
    cbn [matrix stdout] in IH. rewrite length_app in IH. simpl in IH.
    specialize (IH Hext ltac:(lia) ltac:(lia)).
    unfold loop_body, bind, append.
    destruct (backtrack n fuel _) as [[|] s3 | e s3 |]; try contradiction.
    - subst s3. cbn [truthy]. rewrite pop_append. reflexivity.
    - destruct IH as (Hout & Hd & Hl). cbn [truthy stdout] in *.
      destruct (matrix s3) eqn:Em.
      + simpl in Hl. unfold size in Hl. lia.
      + rewrite <- Em in Hd, Hl.
        split; [reflexivity | split; [assumption | split; assumption]]. }
  specialize (Hloop Hb s eq_refl).
  destruct (for_each _ _ s) as [[r |] t | e t |]; try contradiction.
  - destruct Hloop as [-> Hf]. exact Hf.
  - unfold ret. assumption.
Qed.

End Backtracking.

(** ** The first row *)

Lemma popcount_run (e j : nat) :
  popcount (2 ^ Z.of_nat (e + j) - 2 ^ Z.of_nat e) = Z.of_nat j.
Proof.
  induction j as [| j IH].
  - rewrite Nat.add_0_r, Z.sub_diag. reflexivity.
  - pose proof (Z.pow_pos_nonneg 2 (Z.of_nat e) eq_refl ltac:(lia)) as He.
    assert (Hle : 2 ^ Z.of_nat e <= 2 ^ Z.of_nat (e + j))
      by (apply Z.pow_le_mono_r; lia).
    replace (Z.of_nat (e + S j)) with (Z.succ (Z.of_nat (e + j))) by lia.
    rewrite Z.pow_succ_r by lia.
    replace (2 * 2 ^ Z.of_nat (e + j) - 2 ^ Z.of_nat e)
      with (2 ^ Z.of_nat (e + j) + (2 ^ Z.of_nat (e + j) - 2 ^ Z.of_nat e))
      by lia.
    rewrite popcount_high_bit by lia. lia.
Qed.

Lemma first_row_sum (m : Z) (j : nat) :
  Z.of_nat j <= m ->
  fold_left
    (fun acc i =>
       match acc, py_lshift 1 (m - 1 - i) with
       | Some a, Some b => Some (a + b)
       | _, _ => None
       end)
    (map Z.of_nat (seq 0 j)) (Some 0)
  = Some (2 ^ m - 2 ^ (m - Z.of_nat j)).
Proof.
  induction j as [| j IH]; intros Hj.
  - simpl. f_equal. rewrite Z.sub_0_r. lia.
  - rewrite seq_S, map_app, fold_left_app, IH by lia. simpl fold_left.
    rewrite py_lshift_pow2 by lia. f_equal.
    replace (m - Z.of_nat j) with (Z.succ (m - 1 - Z.of_nat j)) by lia.
    rewrite Z.pow_succ_r by lia.
    replace (m - Z.of_nat (S j)) with (m - 1 - Z.of_nat j) by lia.
    lia.
Qed.

Lemma first_row_value (n : Z) :
  1 <= n -> first_row n = Some (2 ^ m n - 2 ^ (2 * n)).
Proof.
  intros Hn. unfold first_row, range.
  rewrite first_row_sum by (unfold total_ones, m, size; lia).
  do 2 f_equal. unfold total_ones, m, size. f_equal. lia.
Qed.

Lemma first_row_nonpositive (n : Z) : n <= 0 -> first_row n = Some 0.
Proof.
  intros Hn. unfold first_row, range, total_ones.
  replace (Z.to_nat (2 * n - 1)) with 0%nat by lia. reflexivity.
Qed.

Lemma first_row_ok (n : Z) :
  1 <= n -> row_ok n (2 ^ m n - 2 ^ (2 * n)).
Proof.
  intros Hn. unfold row_ok, total_ones, m, size.
  pose proof (Z.pow_pos_nonneg 2 (2 * n) eq_refl ltac:(lia)) as He.
  assert (Hle : 2 ^ (2 * n) <= 2 ^ (4 * n - 1))
    by (apply Z.pow_le_mono_r; lia).
  split; [lia |].
  pose proof (popcount_run (Z.to_nat (2 * n)) (Z.to_nat (2 * n - 1))) as Hp.
  replace (Z.of_nat (Z.to_nat (2 * n) + Z.to_nat (2 * n - 1)))
    with (4 * n - 1) in Hp by lia.
  rewrite !Z2Nat.id in Hp by lia. exact Hp.
Qed.

(** ** The search from the first row *)

Section TopLevel.

Context {float : Type}.
Variables (n : Z) (start_time end_time : float).

Theorem find_minimal_hadamard_total (s : state float) :
  1 <= n ->
  match find_minimal_hadamard n start_time end_time s with
  | Normal PyNone s' =>
      s' = mkState [2 ^ m n - 2 ^ (2 * n)]
             (stdout s ++ [ElapsedLine start_time end_time])
  | Normal MatrixRef s' =>
      stdout s' = stdout s ++ [ElapsedLine start_time end_time] /\
      partial_design n (matrix s') /\
      Z.of_nat (length (matrix s')) = size n - 1
  | _ => False
  end.
Proof.
  intros Hn. unfold find_minimal_hadamard.
  rewrite first_row_value by assumption.
  set (s0 := mkState [2 ^ m n - 2 ^ (2 * n)] (stdout s)).
  assert (Hpre : partial_design n (matrix s0)).
  { split.
    - constructor; [exact (first_row_ok n Hn) | constructor].
    - constructor; constructor. }
  assert (Hlen : Z.of_nat (length (matrix s0)) <= size n - 1)
    by (unfold s0, size; cbn [matrix length]; lia).
  assert (Hfuel : size n - 1 - Z.of_nat (length (matrix s0))
                  < Z.of_nat (S (Z.to_nat (size n))))
    by (unfold s0, size; cbn [matrix length]; lia).
  pose proof (backtrack_total n (S (Z.to_nat (size n))) s0
                Hn Hpre Hlen Hfuel) as Hbt.
  unfold bind.
  destruct (backtrack n (S (Z.to_nat (size n))) s0) as [[|] s1 | e s1 |];
    cbn [print ret]; try contradiction.
  - subst s1. reflexivity.
  - destruct Hbt as (Hout & Hd & Hl). cbn [matrix stdout].
    rewrite Hout. split; [reflexivity | split; assumption].
Qed.

End TopLevel.

Lemma in_range (k j : Z) : In j (range k) <-> 0 <= j < k.
Proof.
  unfold range. rewrite in_map_iff. split.
  - intros (i & <- & Hi). apply in_seq in Hi. lia.
  - intros Hj. exists (Z.to_nat j). split; [lia |]. apply in_seq. lia.
Qed.

Lemma row_bits_spec (n row : Z) (js : list Z) :
  Forall (fun j => j < m n) js ->
  row_bits n row js =
  Some (map (fun j => b2z (Z.testbit row (m n - 1 - j))) js).
Proof.
  induction 1 as [| j js Hj Hjs IH]; simpl; [reflexivity |].
  rewrite bit_set_testbit by lia. rewrite IH. simpl.
  now destruct (Z.testbit row (m n - 1 - j)).
Qed.

Lemma row_list_spec (n row : Z) :
  row_list n row = Some (expand_row (m n) row).
Proof.
  unfold row_list. rewrite row_bits_spec; [reflexivity |].
  apply Forall_forall. intros j Hj. apply in_range in Hj. lia.
Qed.

Lemma print_rows_spec {float : Type} (n : Z) (rows : list Z) :
  forall (i : Z) (s : state float),
    print_rows n i rows s =
    Normal tt (mkState (matrix s)
                 (stdout s ++ row_lines i (map (expand_row (m n)) rows))).
Proof.
  induction rows as [| row rows IH]; intros i s; simpl.
  - unfold ret. rewrite app_nil_r. now destruct s.
  - rewrite row_list_spec. unfold bind, print. rewrite IH.
    cbn [matrix stdout]. now rewrite <- app_assoc.
Qed.

Lemma print_hadamard_01_spec {float : Type} (n : Z) (s : state float) :
  print_hadamard_01 n MatrixRef s =
  Normal tt (mkState (matrix s)
               (stdout s ++ row_lines 0 (expand n (matrix s)))).
Proof.
  unfold print_hadamard_01, bind, print. rewrite print_rows_spec.
  cbn [matrix stdout]. unfold expand. simpl row_lines.
  now rewrite <- app_assoc.
Qed.

(** ** Dot products of expanded rows *)

Lemma dot_map (f g : Z -> Z) (js : list Z) :
  dot (map f js) (map g js) = sum (map (fun j => f j * g j) js).
Proof.
  induction js as [| j js IH]; simpl; [reflexivity | now rewrite IH].
Qed.

Lemma sum_app (u v : list Z) : sum (u ++ v) = sum u + sum v.
Proof.
  induction u as [| a u IH]; simpl; [reflexivity |].
  unfold sum in *. simpl. lia.
Qed.

Lemma sum_bits (d : nat) (r : Z) :
  0 <= r < 2 ^ Z.of_nat d -> sum (bits (Z.of_nat d) r) = popcount r.
Proof.
  revert r. induction d as [| d IH]; intros r Hr.
  - simpl in Hr. assert (r = 0) as -> by lia. reflexivity.
  - rewrite Nat2Z.inj_succ, Z.pow_succ_r in Hr by lia.
    pose proof (Z.div_mod r 2 ltac:(lia)) as Hdm.
    pose proof (Z.mod_pos_bound r 2 eq_refl) as Hm.
    assert (Hq : 0 <= r / 2 < 2 ^ Z.of_nat d).
    { split; [apply Z.div_pos; lia | apply Z.div_lt_upper_bound; lia]. }
    unfold bits, range in *. rewrite Nat2Z.id in *.
    rewrite seq_S, !map_app, sum_app. cbn [map Nat.add].
    assert (Elow :
      map (fun j => b2z (Z.testbit r (Z.of_nat (S d) - 1 - j)))
          (map Z.of_nat (seq 0 d))
      = map (fun j => b2z (Z.testbit (r / 2) (Z.of_nat d - 1 - j)))
          (map Z.of_nat (seq 0 d))).
    { apply map_ext_in. intros j Hj.
      apply in_map_iff in Hj as (i & <- & Hi). apply in_seq in Hi.
      replace (Z.of_nat (S d) - 1 - Z.of_nat i)
        with (Z.succ (Z.of_nat d - 1 - Z.of_nat i)) by lia.
      rewrite <- Z.div2_bits by lia. reflexivity. }
    rewrite Elow, IH by assumption.
    replace (Z.of_nat (S d) - 1 - Z.of_nat d) with 0 by lia.
    rewrite Hdm at 3. rewrite popcount_double by lia.
    unfold sum. cbn [fold_right]. rewrite Z.bit0_eqb.
    destruct (Z.eqb_spec (r mod 2) 1); cbn [b2z]; lia.
Qed.

Lemma dot_bits (d : nat) (a b : Z) :
  0 <= a < 2 ^ Z.of_nat d ->
  dot (bits (Z.of_nat d) a) (bits (Z.of_nat d) b) = popcount (Z.land a b).
Proof.
  intros Ha. rewrite <- (sum_bits d) by now apply land_small.
  unfold bits. rewrite dot_map. f_equal. apply map_ext. intros j.
  rewrite Z.land_spec.
  now destruct (Z.testbit a _), (Z.testbit b _).
Qed.

Lemma length_bits (m r : Z) : length (bits m r) = Z.to_nat m.
Proof.
  unfold bits, range. now rewrite !length_map, length_seq.
Qed.

Lemma dot_pm1 (u v : list Z) :
  length u = length v ->
  dot (map pm1 u) (map pm1 v)
  = 4 * dot u v - 2 * sum u - 2 * sum v + Z.of_nat (length u).
Proof.
  revert v. induction u as [| a u IH]; intros [| b v] Hlen;
    try discriminate; [reflexivity |].
  injection Hlen as Hlen. cbn [map dot length]. rewrite (IH v Hlen).
  unfold sum, pm1. cbn [fold_right]. lia.
Qed.

Lemma sum_ones (k : nat) : sum (repeat 1 k) = Z.of_nat k.
Proof.
  induction k as [| k IH]; [reflexivity |].
  unfold sum in *. cbn [repeat fold_right]. lia.
Qed.

Lemma dot_ones_l (k : nat) (v : list Z) :
  length v = k -> dot (repeat 1 k) v = sum v.
Proof.
  revert v. induction k as [| k IH]; intros [| b v] Hlen;
    try discriminate; [reflexivity |].
  injection Hlen as Hlen. cbn [repeat dot]. rewrite (IH v Hlen).
  unfold sum. cbn [fold_right]. lia.
Qed.

Lemma dot_comm (u v : list Z) : dot u v = dot v u.
Proof.
  revert v. induction u as [| a u IH]; intros [| b v]; simpl;
    try reflexivity.
  rewrite (IH v). lia.
Qed.

Lemma ordpairs_nth {A : Type} (R : A -> A -> Prop) (l : list A) (d : A) :
  ForallOrdPairs R l ->
  forall i j, (i < j < length l)%nat -> R (nth i l d) (nth j l d).
Proof.
  induction 1 as [| a l Ha Hl IH]; intros i j Hij; simpl in Hij; [lia |].
  destruct j as [| j]; [lia |]. destruct i as [| i]; simpl.
  - rewrite Forall_forall in Ha. apply Ha, nth_In. lia.
  - apply IH. lia.
Qed.

Lemma dot_expanded (u v : list Z) :
  length u = length v ->
  dot (map pm1 (1 :: u)) (map pm1 (1 :: v))
  = 1 + 4 * dot u v - 2 * sum u - 2 * sum v + Z.of_nat (length u).
Proof.
  intros Hlen. cbn [map dot]. rewrite dot_pm1 by assumption.
  unfold pm1. lia.
Qed.

Lemma pm1_entries (u : list Z) :
  Forall (fun e => e = 0 \/ e = 1) u ->
  Forall (fun e => e = 1 \/ e = -1) (map pm1 u).
Proof.
  intros H. apply Forall_map. eapply Forall_impl; [| exact H].
  unfold pm1. intros e [-> | ->]; simpl; auto.
Qed.

Lemma bits_entries (m r : Z) : Forall (fun e => e = 0 \/ e = 1) (bits m r).
Proof.
  unfold bits. apply Forall_map, Forall_forall. intros j _.
  destruct (Z.testbit r (m - 1 - j)); simpl; auto.
Qed.

Lemma ones_entries (k : nat) : Forall (fun e => e = 0 \/ e = 1) (repeat 1 k).
Proof.
  apply Forall_forall. intros e He. apply repeat_spec in He. auto.
Qed.

Section Hadamard.

Variable n : Z.
Hypothesis Hn : 1 <= n.
Variable rows : list Z.
Hypothesis Hdesign : partial_design n rows.
Hypothesis Hrows : Z.of_nat (length rows) = size n - 1.

Lemma m_nat : m n = Z.of_nat (width n).
Proof. unfold width, m, size. lia. Qed.

Lemma size_nat : Z.to_nat (size n) = S (width n).
Proof. unfold width, m, size. lia. Qed.

Lemma row_facts (i : nat) :
  (i < length rows)%nat ->
  0 <= nth i rows 0 < 2 ^ Z.of_nat (width n) /\
  sum (bits (m n) (nth i rows 0)) = total_ones n.
Proof.
  intros Hi. destruct Hdesign as [Hok _].
  rewrite Forall_forall in Hok.
  destruct (Hok (nth i rows 0) (nth_In _ _ Hi)) as [Hr Hp].
  rewrite m_nat in *. split; [assumption |].
  now rewrite sum_bits.
Qed.

Lemma overlap_facts (i j : nat) :
  (i < length rows)%nat -> (j < length rows)%nat -> i <> j ->
  dot (bits (m n) (nth i rows 0)) (bits (m n) (nth j rows 0)) = n - 1.
Proof.
  intros Hi Hj Hne. destruct Hdesign as [_ Hpairs].
  destruct (row_facts i Hi) as [Hri _].
  rewrite m_nat, dot_bits by assumption.
  destruct (Nat.lt_total i j) as [Hlt | [Heq | Hgt]]; [| contradiction |].
  - rewrite Z.land_comm.
    apply (ordpairs_nth _ _ 0 Hpairs i j). lia.
  - apply (ordpairs_nth _ _ 0 Hpairs j i). lia.
Qed.

Lemma nth_expand_0 : nth 0 (expand n rows) [] = 1 :: repeat 1 (width n).
Proof. unfold expand. simpl. now rewrite size_nat. Qed.

Lemma nth_expand_S (i : nat) :
  (i < length rows)%nat ->
  nth (S i) (expand n rows) [] = 1 :: bits (m n) (nth i rows 0).
Proof.
  intros Hi. unfold expand. cbn [nth].
  rewrite (nth_indep _ [] (expand_row (m n) 0))
    by now rewrite length_map.
  now rewrite map_nth.
Qed.

Theorem design_hadamard :
  hadamard (size n) (map (map pm1) (expand n rows)).
Proof.
  assert (Hsz : size n = Z.of_nat (S (width n))) by (rewrite <- size_nat;
    unfold size; lia).
  assert (Hlen : length (expand n rows) = S (length rows))
    by (unfold expand; simpl; now rewrite length_map).
  split; [| split].
  - rewrite length_map, Hlen. lia.
  - apply Forall_map. unfold expand. constructor.
    + rewrite length_map, repeat_length. split; [lia |].
      apply pm1_entries, ones_entries.
    + apply Forall_map, Forall_forall. intros r _. unfold expand_row.
      rewrite length_map. cbn [length]. rewrite length_bits.
      split; [fold (width n); lia |].
      apply pm1_entries. constructor; [now right | apply bits_entries].
  - rewrite length_map, Hlen. intros i j Hi Hj.
    change (@nil Z) with (map pm1 []). rewrite !map_nth.
    assert (Hk : total_ones n = 2 * n - 1) by reflexivity.
    assert (Hd : Z.of_nat (width n) = 4 * n - 1)
      by (rewrite <- m_nat; reflexivity).
    pose proof m_nat as Hmn.
    destruct i as [| i], j as [| j].
    + rewrite nth_expand_0, dot_expanded by reflexivity.
      rewrite dot_ones_l, sum_ones, repeat_length
        by now rewrite repeat_length.
      simpl Nat.eqb. cbv iota. lia.
    + destruct (row_facts j ltac:(lia)) as [_ Hs].
      rewrite nth_expand_0, nth_expand_S by lia.
      rewrite dot_expanded by now rewrite repeat_length, length_bits.
      rewrite dot_ones_l, sum_ones, repeat_length, Hs
        by (rewrite length_bits; reflexivity).
      simpl Nat.eqb. cbv iota. lia.
    + destruct (row_facts i ltac:(lia)) as [_ Hs].
      rewrite nth_expand_0, nth_expand_S by lia.
      rewrite dot_expanded by now rewrite repeat_length, length_bits.
      rewrite dot_comm, dot_ones_l, sum_ones, length_bits, Hs
        by (rewrite length_bits; reflexivity).
      simpl Nat.eqb. cbv iota. fold (width n). lia.
    + rewrite !nth_expand_S by lia.
      rewrite dot_expanded by now rewrite !length_bits.
      destruct (row_facts i ltac:(lia)) as [Hri Hsi].
      destruct (row_facts j ltac:(lia)) as [Hrj Hsj].
      rewrite Hsi, Hsj, length_bits. fold (width n).
      simpl Nat.eqb. destruct (Nat.eqb_spec i j) as [-> | Hne].
      * rewrite m_nat, dot_bits, Z.land_diag by assumption.
        rewrite <- (sum_bits (width n)), <- m_nat, Hsj by assumption. lia.
      * rewrite overlap_facts by lia. lia.
Qed.

End Hadamard.

(** ** The generator run on its own *)

Lemma for_each_collect (l P acc : list Z) :
  for_each collect l (P, acc) = Normal None (P, acc ++ l).
Proof.
  revert acc. induction l as [| c l IH]; intros acc; simpl.
  - now rewrite app_nil_r.
  - rewrite IH, <- app_assoc. reflexivity.
Qed.

Lemma build_row_list_value (d fuel : nat) (k cur : Z) (P ov : list Z)
    (m n : Z) :
  (d < fuel)%nat ->
  Z.of_nat d <= m ->
  build_row_list fuel (m - Z.of_nat d) k cur P ov m n =
  Normal (map (Z.lor cur) (completions d k P ov)) tt.
Proof.
  intros Hfuel Hm. unfold build_row_list.
  rewrite (build_row_for_each fst collect P); try assumption;
    try reflexivity.
  - now rewrite for_each_collect.
  - intros c [P' acc] t' _ HP. unfold collect. now intros [= <-].
Qed.

Lemma build_row_list_at (fuel : nat) (bit_index k cur : Z) (P ov : list Z)
    (m n : Z) :
  0 <= bit_index <= m ->
  (Z.to_nat (m - bit_index) < fuel)%nat ->
  build_row_list fuel bit_index k cur P ov m n =
  Normal (map (Z.lor cur) (completions (Z.to_nat (m - bit_index)) k P ov))
    tt.
Proof.
  intros Hbi Hfuel.
  rewrite <- (build_row_list_value _ fuel k cur P ov m n) by lia.
  f_equal. lia.
Qed.

Lemma Forall2_combine {A B : Type} (R : A -> B -> Prop) (l : list A)
    (l' : list B) :
  Forall2 R l l' <->
  length l = length l' /\
  Forall (fun ab => R (fst ab) (snd ab)) (combine l l').
Proof.
  split.
  - induction 1 as [| a b l l' Hab H [IHlen IH]]; simpl.
    + split; [reflexivity | constructor].
    + split; [now f_equal | now constructor].
  - revert l'. induction l as [| a l IH]; intros [| b l'] [Hlen H];
      simpl in *; try discriminate; [constructor |].
    apply Forall_cons_iff in H as [Hab H]. constructor; [assumption |].
    apply IH. split; [now injection Hlen | assumption].
Qed.

Lemma sorted_before (l l1 l2 l3 : list Z) (a b : Z) :
  StronglySorted Z.gt l -> l = l1 ++ a :: l2 ++ b :: l3 -> a > b.
Proof.
  intros Hs ->. induction l1 as [| x l1 IH]; simpl in Hs.
  - apply StronglySorted_inv in Hs as [_ Ha].
    rewrite Forall_forall in Ha. apply Ha.
    apply in_app_iff. right. now left.
  - apply StronglySorted_inv in Hs as [Hs _]. now apply IH.
Qed.

Lemma sorted_lor (cur : Z) (d : nat) (l : list Z) :
  (forall j, 0 <= j < Z.of_nat d -> Z.testbit cur j = false) ->
  (forall x, In x l -> 0 <= x < 2 ^ Z.of_nat d) ->
  StronglySorted Z.gt l -> StronglySorted Z.gt (map (Z.lor cur) l).
Proof.
  intros Hcur Hl Hs. apply sorted_map; [| assumption].
  intros a b Ha Hb Hab.
  rewrite !(lor_disjoint_add cur _ d) by auto. lia.
Qed.

Lemma popcount_land_le (d : nat) (x p : Z) :
  0 <= x < 2 ^ Z.of_nat d -> popcount (Z.land x p) <= popcount x.
Proof.
  revert x. induction d as [| d IH]; intros x Hx.
  - simpl in Hx. assert (x = 0) as -> by lia. simpl. lia.
  - rewrite Nat2Z.inj_succ, Z.pow_succ_r in Hx by lia.
    destruct (Z.lt_ge_cases x (2 ^ Z.of_nat d)) as [Hlow | Hhigh].
    + apply IH. lia.
    + set (y := x - 2 ^ Z.of_nat d).
      assert (Hy : 0 <= y < 2 ^ Z.of_nat d) by (unfold y; lia).
      replace x with (2 ^ Z.of_nat d + y) by (unfold y; lia).
      rewrite popcount_land_high_bit, popcount_high_bit by assumption.
      specialize (IH y Hy).
      destruct (Z.testbit p (Z.of_nat d)); simpl b2z; lia.
Qed.

Lemma completions_unsatisfiable (d : nat) (k : Z) (P ov : list Z) :
  length P = length ov ->
  Exists (fun req => req < 0 \/ k < req) ov ->
  completions d k P ov = [].
Proof.
  intros Hlen Hex.
  destruct (completions d k P ov) as [| x l] eqn:E; [reflexivity |].
  exfalso.
  assert (Hin : In x (completions d k P ov)) by (rewrite E; now left).
  apply completions_valid in Hin as (Hx & Hpc & Hov); [| assumption].
  apply Exists_exists in Hex as (req & Hreq & Hbad).
  destruct (In_nth _ _ 0 Hreq) as (i & Hi & Hnth).
  assert (Hc : In (nth i P 0, req) (combine P ov)).
  { rewrite <- Hnth, <- combine_nth by assumption.
    apply nth_In. rewrite length_combine. lia. }
  rewrite Forall_forall in Hov. specialize (Hov _ Hc). simpl in Hov.
  pose proof (popcount_land_le d x (nth i P 0) Hx) as Hle.
  pose proof (popcount_bounds d _ (land_small x (nth i P 0) _ Hx)) as Hb.
  lia.
Qed.

(** ** RowCandidateGenerator: the properties *)

(** C3.  [build_row(0, k, 0, prev_rows, req, m, n)], with one requirement per
    accepted row, yields exactly the rows [r] with [0 <= r < 2^m],
    [popcount r = k] and [popcount (r AND prev)] equal to the requirement of
    each accepted row [prev]; and at [bit_index = m] the accumulated row is
    yielded if and only if [ones_left = 0] and every requirement is [0]. *)
Theorem build_row_yields_exactly (fuel : nat) (k : Z)
    (prev_rows req : list Z) (m n : Z) :
  0 <= m ->
  (Z.to_nat m < fuel)%nat ->
  length prev_rows = length req ->
  (exists yielded,
     build_row_list fuel 0 k 0 prev_rows req m n = Normal yielded tt /\
     forall r,
       In r yielded <->
       0 <= r < 2 ^ m /\
       popcount r = k /\
       Forall2 (fun prev needed => popcount (Z.land r prev) = needed)
         prev_rows req) /\
  (forall current_row,
     build_row_list fuel m k current_row prev_rows req m n =
     Normal (if (k =? 0) && forallb (fun x => x =? 0) req
             then [current_row] else []) tt).
Proof.
  intros Hm Hfuel Hlen. split.
  - exists (completions (Z.to_nat m) k prev_rows req). split.
    + rewrite build_row_list_at by lia.
      rewrite Z.sub_0_r. f_equal.
      rewrite <- (map_id (completions _ _ _ _)) at 2. now apply map_ext.
    + intros r. rewrite completions_valid by assumption.
      unfold valid. rewrite Z2Nat.id by assumption.
      rewrite Forall2_combine. intuition.
  - intros cur. rewrite build_row_list_at by lia.
    rewrite Z.sub_diag. simpl completions.
    destruct ((k =? 0) && forallb (fun x => x =? 0) req); simpl;
      [now rewrite Z.lor_0_r | reflexivity].
Qed.

Lemma build_row_yields_exactly_witness :
  exists yielded,
    build_row_list 4 0 1 0 [4] [0] 3 1 = Normal yielded tt /\
    forall r,
      In r yielded <->
      0 <= r < 2 ^ 3 /\
      popcount r = 1 /\
      Forall2 (fun prev needed => popcount (Z.land r prev) = needed)
        [4] [0].
Proof.
  apply (build_row_yields_exactly 4 1 [4] [0] 3 1); simpl; lia.
Defined.

(** C4.  From a prefix (a current row whose bits at the positions still to
    be decided are clear) the candidates are yielded in strictly descending
    numeric order: a candidate yielded before another is greater. *)
Theorem build_row_descending (fuel : nat) (bit_index ones_left current_row : Z)
    (prev_rows overlaps_needed : list Z) (m n : Z) :
  0 <= bit_index <= m ->
  (Z.to_nat (m - bit_index) < fuel)%nat ->
  (forall j, 0 <= j < m - bit_index -> Z.testbit current_row j = false) ->
  exists yielded,
    build_row_list fuel bit_index ones_left current_row prev_rows
      overlaps_needed m n = Normal yielded tt /\
    StronglySorted Z.gt yielded /\
    forall before a between b after,
      yielded = before ++ a :: between ++ b :: after -> a > b.
Proof.
  intros Hbi Hfuel Hcur.
  eexists. split; [now apply build_row_list_at |].
  assert (Hs : StronglySorted Z.gt
                 (map (Z.lor current_row)
                    (completions (Z.to_nat (m - bit_index)) ones_left
                       prev_rows overlaps_needed))).
  { apply (sorted_lor _ (Z.to_nat (m - bit_index))).
    - intros j Hj. apply Hcur. lia.
    - intros x. apply completions_range.
    - apply completions_sorted. }
  split; [exact Hs |].
  intros l1 a l2 b l3. now apply sorted_before.
Qed.

Lemma build_row_descending_witness :
  exists yielded,
    build_row_list 4 1 1 4 [] [] 3 1 = Normal yielded tt /\
    StronglySorted Z.gt yielded /\
    forall before a between b after,
      yielded = before ++ a :: between ++ b :: after -> a > b.
Proof.
  apply (build_row_descending 4 1 1 4 [] [] 3 1).
  - lia.
  - simpl. lia.
  - intros j Hj. assert (j = 0 \/ j = 1) as [-> | ->] by lia; reflexivity.
Defined.

(** The order is that of the completions: a current row with a bit set at a
    position still to be decided is not a prefix, and its candidates need
    not descend. *)
Example not_a_prefix :
  build_row_list 3 0 1 2 [] [] 2 1 = Normal [2; 3] tt.
Proof. reflexivity. Qed.

(** C5.  For [n >= 1] the search returns: it neither raises nor recurses
    without end, and what it returns is [None], the list then holding the
    first row alone, or the list, then a complete design.  [build_row]
    returns for every input with [0 <= bit_index <= m]; when a requirement
    lies outside [[0, ones_left]] it yields nothing, so that a loop over it
    ends at once with no result and the state untouched. *)
Theorem search_terminates {float : Type} (n : Z)
    (start_time end_time : float) (s : state float)
    (fuel : nat) (bit_index ones_left current_row : Z)
    (prev_rows overlaps_needed : list Z) (m' n' : Z) :
  1 <= n ->
  0 <= bit_index <= m' ->
  (Z.to_nat (m' - bit_index) < fuel)%nat ->
  (exists result s',
     find_minimal_hadamard n start_time end_time s = Normal result s' /\
     match result with
     | PyNone => exists row, first_row n = Some row /\ matrix s' = [row]
     | MatrixRef => design n (matrix s')
     end) /\
  (exists yielded,
     build_row_list fuel bit_index ones_left current_row prev_rows
       overlaps_needed m' n' = Normal yielded tt) /\
  (length prev_rows = length overlaps_needed ->
   Exists (fun req => req < 0 \/ ones_left < req) overlaps_needed ->
   build_row_list fuel bit_index ones_left current_row prev_rows
     overlaps_needed m' n' = Normal [] tt /\
   forall (St R : Type) (rows_of : St -> list Z)
          (body : Z -> M St (option R)) (t : St),
     rows_of t = prev_rows ->
     build_row rows_of body fuel bit_index ones_left current_row
       overlaps_needed m' n' t = Normal None t).
Proof.
  intros Hn Hbi Hfuel. split; [| split].
  - pose proof (find_minimal_hadamard_total n start_time end_time s Hn) as H.
    destruct (find_minimal_hadamard n start_time end_time s)
      as [[|] s' | e s' |]; try contradiction.
    + exists PyNone, s'. split; [reflexivity |]. subst s'.
      exists (2 ^ m n - 2 ^ (2 * n)).
      split; [now apply first_row_value | reflexivity].
    + exists MatrixRef, s'. split; [reflexivity |].
      destruct H as (_ & Hdes & Hlen). now split.
  - eexists. now apply build_row_list_at.
  - intros Hlen Hex.
    pose proof (completions_unsatisfiable (Z.to_nat (m' - bit_index))
                  ones_left prev_rows overlaps_needed Hlen Hex) as Hnil.
    split.
    + rewrite build_row_list_at by assumption. now rewrite Hnil.
    + intros St R rows_of body t Ht.
      replace bit_index
        with (m' - Z.of_nat (Z.to_nat (m' - bit_index))) at 1 by lia.
      rewrite (build_row_for_each rows_of body prev_rows); try lia;
        try assumption.
      * now rewrite Hnil.
      * rewrite Hnil. intros c t0 t' [].
Qed.

Lemma search_terminates_witness :
  (exists result s',
     find_minimal_hadamard 1 tt tt (@initial unit) = Normal result s' /\
     match result with
     | PyNone => exists row, first_row 1 = Some row /\ matrix s' = [row]
     | MatrixRef => design 1 (matrix s')
     end) /\
  (exists yielded,
     build_row_list 4 0 1 0 [4] [5] 3 1 = Normal yielded tt) /\
  build_row_list 4 0 1 0 [4] [5] 3 1 = Normal [] tt.
Proof.
  destruct (search_terminates 1 tt tt initial 4 0 1 0 [4] [5] 3 1)
    as (Hfind & Hrow & Hnone).
  - lia.
  - lia.
  - simpl. lia.
  - split; [exact Hfind | split; [exact Hrow |]].
    apply Hnone; [reflexivity |].
    constructor. right. lia.
Defined.

(** ** MatrixBacktracker: the properties *)

(** C1.  For [n >= 1], when [find_minimal_hadamard(n)] returns a result
    that is not [None], the result holds exactly [4n-1] rows of [4n-1]
    bits, each with [2n-1] bits set, any two of which (at different places
    of the list) have [n-1] set bits in common. *)
Theorem find_minimal_hadamard_design {float : Type} (n : Z)
    (start_time end_time : float) (s s' : state float) :
  1 <= n ->
  find_minimal_hadamard n start_time end_time s = Normal MatrixRef s' ->
  Z.of_nat (length (matrix s')) = 4 * n - 1 /\
  (forall row, In row (matrix s') ->
     0 <= row < 2 ^ (4 * n - 1) /\ popcount row = 2 * n - 1) /\
  (forall i j, (i < length (matrix s'))%nat -> (j < length (matrix s'))%nat ->
     i <> j ->
     popcount (Z.land (nth i (matrix s') 0) (nth j (matrix s') 0)) = n - 1).
Proof.
  intros Hn Hfind.
  pose proof (find_minimal_hadamard_total n start_time end_time s Hn) as H.
  rewrite Hfind in H. destruct H as (_ & [Hok Hpairs] & Hlen).
  split; [exact Hlen | split].
  - intros row Hrow. rewrite Forall_forall in Hok. exact (Hok row Hrow).
  - intros i j Hi Hj Hne.
    destruct (Nat.lt_total i j) as [Hlt | [Heq | Hgt]]; [| contradiction |].
    + rewrite Z.land_comm.
      apply (ordpairs_nth _ _ 0 Hpairs i j). lia.
    + apply (ordpairs_nth _ _ 0 Hpairs j i). lia.
Qed.

Lemma find_minimal_hadamard_design_witness :
  Z.of_nat (length [4; 2; 1]) = 4 * 1 - 1 /\
  (forall row, In row [4; 2; 1] ->
     0 <= row < 2 ^ (4 * 1 - 1) /\ popcount row = 2 * 1 - 1) /\
  (forall i j, (i < length [4; 2; 1])%nat -> (j < length [4; 2; 1])%nat ->
     i <> j ->
     popcount (Z.land (nth i [4; 2; 1] 0) (nth j [4; 2; 1] 0)) = 1 - 1).
Proof.
  apply (find_minimal_hadamard_design 1 tt tt initial
           (mkState [4; 2; 1] [ElapsedLine tt tt])).
  - lia.
  - reflexivity.
Defined.

(** C8.  When [backtrack(rows)] returns [None], the list holds exactly what
    it held at entry: every append was undone by a pop. *)
Theorem backtrack_restores {float : Type} (n : Z) (fuel : nat)
    (s s' : state float) :
  backtrack n fuel s = Normal PyNone s' ->
  matrix s' = matrix s /\ s' = s.
Proof.
  intros H. apply backtrack_undoes_appends in H. now subst.
Qed.

(** A run in which rows are appended and taken off again: for [n = 2]
    the list [[112; 7]] admits nine candidates for a third row, each is
    appended and searched from, none leads to a design, and the list is
    left as it was. *)
Lemma backtrack_restores_witness :
  build_row_list 8 0 3 0 [112; 7] [1; 1] 7 2
  = Normal [76; 74; 73; 44; 42; 41; 28; 26; 25] tt /\
  matrix (@mkState unit [112; 7] []) = [112; 7] /\
  @mkState unit [112; 7] [] = mkState [112; 7] [].
Proof.
  split; [vm_compute; reflexivity |].
  apply (backtrack_restores 2 8 (mkState [112; 7] [])
           (mkState [112; 7] [])).
  vm_compute. reflexivity.
Defined.

(** After an exhausted search from the first row the list holds the first
    row alone. *)
Corollary exhausted_search_leaves_first_row {float : Type} (n : Z)
    (start_time end_time : float) (s s' : state float) :
  find_minimal_hadamard n start_time end_time s = Normal PyNone s' ->
  exists row, first_row n = Some row /\ matrix s' = [row].
Proof.
  unfold find_minimal_hadamard.
  destruct (first_row n) as [row |]; [| discriminate].
  unfold bind.
  destruct (backtrack n _ _) as [[|] s1 | e s1 |] eqn:E;
    cbn [print ret]; try discriminate.
  apply backtrack_undoes_appends in E. subst s1.
  intros [= <-]. now exists row.
Qed.

Lemma find_minimal_hadamard_nonpositive {float : Type} (n : Z)
    (start_time end_time : float) (s : state float) :
  n <= 0 ->
  find_minimal_hadamard n start_time end_time s
  = Raise ValueError (mkState [0] (stdout s)).
Proof.
  intros Hn. unfold find_minimal_hadamard.
  rewrite first_row_nonpositive by assumption.
  unfold bind. cbn [backtrack matrix length].
  destruct (Z.eqb_spec (Z.of_nat 1) (size n - 1)) as [E | _];
    [unfold size in E; lia |].
  unfold bind. cbn [build_row matrix repeat].
  destruct (Z.eqb_spec 0 (m n)) as [E | _]; [unfold m, size in E; lia |].
  destruct (Z.gtb_spec (total_ones n) 0) as [E | _];
    [unfold total_ones in E; lia |].
  cbn [matrix].
  rewrite clear_scan_negative by (unfold m, size; lia).
  reflexivity.
Qed.

(** The recursion budget given to the search never decides its outcome. *)
Corollary recursion_budget_suffices {float : Type} (n : Z)
    (start_time end_time : float) (s : state float) :
  find_minimal_hadamard n start_time end_time s <> OutOfFuel.
Proof.
  destruct (Z.le_gt_cases n 0) as [Hn | Hn].
  - now rewrite find_minimal_hadamard_nonpositive.
  - pose proof (find_minimal_hadamard_total n start_time end_time s
                  ltac:(lia)) as H.
    intros E. now rewrite E in H.
Qed.

(** C10.  For [n <= 0] nothing is validated: the first bit test of
    [build_row] shifts by a negative count and the call raises before
    anything is printed. *)
Theorem nonpositive_raises {float : Type} (n : Z)
    (start_time end_time : float) (s : state float) :
  n <= 0 ->
  find_minimal_hadamard n start_time end_time s
  = Raise ValueError (mkState [0] (stdout s)) /\
  main n start_time end_time s = Raise ValueError (mkState [0] (stdout s)).
Proof.
  intros Hn.
  pose proof (find_minimal_hadamard_nonpositive n start_time end_time s Hn)
    as E.
  split; [exact E |].
  unfold main, bind. now rewrite E.
Qed.

Lemma nonpositive_raises_witness :
  find_minimal_hadamard 0 tt tt (@initial unit)
  = Raise ValueError (mkState [0] []) /\
  main 0 tt tt (@initial unit) = Raise ValueError (mkState [0] []).
Proof.
  apply (nonpositive_raises 0 tt tt initial). lia.
Defined.

(** ** Presenter: the properties *)

(** C2.  For [n >= 1], when a design is found, the grid printed from it
    (the row of ones, then each row as a leading [1] and its [m] bits from
    the most significant), read with [0] as [-1] and [1] as [+1], is a
    Hadamard matrix of order [4n]: the dot product of a row with itself is
    [4n], with any other row [0]. *)
Theorem expanded_matrix_hadamard {float : Type} (n : Z)
    (start_time end_time : float) (s s' : state float) :
  1 <= n ->
  find_minimal_hadamard n start_time end_time s = Normal MatrixRef s' ->
  exists grid,
    grid = expand n (matrix s') /\
    print_hadamard_01 n MatrixRef s'
    = Normal tt (mkState (matrix s') (stdout s' ++ row_lines 0 grid)) /\
    hadamard (4 * n) (map (map pm1) grid).
Proof.
  intros Hn Hfind.
  pose proof (find_minimal_hadamard_total n start_time end_time s Hn) as H.
  rewrite Hfind in H. destruct H as (_ & Hdesign & Hlen).
  exists (expand n (matrix s')). split; [reflexivity | split].
  - apply print_hadamard_01_spec.
  - exact (design_hadamard n Hn (matrix s') Hdesign Hlen).
Qed.

Lemma expanded_matrix_hadamard_witness :
  exists grid,
    grid = expand 1 [4; 2; 1] /\
    print_hadamard_01 1 MatrixRef (mkState [4; 2; 1] [ElapsedLine tt tt])
    = Normal tt (mkState [4; 2; 1] ([ElapsedLine tt tt] ++ row_lines 0 grid))
    /\ hadamard (4 * 1) (map (map pm1) grid).
Proof.
  apply (expanded_matrix_hadamard 1 tt tt initial
           (mkState [4; 2; 1] [ElapsedLine tt tt])).
  - lia.
  - reflexivity.
Defined.

(** C9.  For [n = 1] the search succeeds with the rows [0b100], [0b010],
    [0b001]; the output is the elapsed-time line and the rows [1,1,1,1],
    [1,1,0,0], [1,0,1,0], [1,0,0,1], which make a Hadamard matrix of order
    4 once [0] is read as [-1]. *)
Theorem order_four_output {float : Type} (start_time end_time : float) :
  find_minimal_hadamard 1 start_time end_time initial
  = Normal MatrixRef
      (mkState [4; 2; 1] [ElapsedLine start_time end_time]) /\
  main 1 start_time end_time initial
  = Normal tt
      (mkState [4; 2; 1]
         [ElapsedLine start_time end_time;
          RowLine 0 [1; 1; 1; 1];
          RowLine 1 [1; 1; 0; 0];
          RowLine 2 [1; 0; 1; 0];
          RowLine 3 [1; 0; 0; 1]]) /\
  hadamard 4
    (map (map pm1) [[1; 1; 1; 1]; [1; 1; 0; 0]; [1; 0; 1; 0]; [1; 0; 0; 1]]).
Proof.
  split; [reflexivity | split; [reflexivity |]].
  split; [reflexivity | split].
  - repeat first [ apply Forall_cons | apply Forall_nil | split
                 | reflexivity | (left; reflexivity) | (right; reflexivity) ].
  - intros i j Hi Hj. simpl in Hi, Hj.
    do 4 (destruct i as [| i]; [do 4 (destruct j as [| j];
                                      [reflexivity |]); lia |]).
    lia.
Qed.

Lemma row_lines_nth {float : Type} (grid : list (list Z)) :
  forall (k : Z) (i : nat),
    (i < length grid)%nat ->
    nth_error (row_lines (float := float) k grid) i
    = Some (RowLine (k + Z.of_nat i) (nth i grid [])).
Proof.
  induction grid as [| l grid IH]; intros k i Hi; simpl in Hi; [lia |].
  destruct i as [| i]; simpl.
  - now rewrite Z.add_0_r.
  - rewrite IH by lia. do 2 f_equal. lia.
Qed.

Lemma row_lines_length {float : Type} (grid : list (list Z)) (k : Z) :
  length (row_lines (float := float) k grid) = length grid.
Proof.
  revert k. induction grid as [| l grid IH]; intros k; simpl;
    [reflexivity | now rewrite IH].
Qed.

Lemma expand_entries (n : Z) (rows : list Z) :
  0 <= m n ->
  Forall (fun r => Z.of_nat (length r) = 4 * n /\
                   Forall (fun e => e = 0 \/ e = 1) r) (expand n rows).
Proof.
  intros Hm. unfold expand. constructor.
  - rewrite repeat_length. split; [unfold m, size in *; lia |].
    apply ones_entries.
  - apply Forall_map, Forall_forall. intros r _. unfold expand_row.
    cbn [length]. rewrite length_bits.
    split; [unfold m, size in *; lia |].
    constructor; [now right | apply bits_entries].
Qed.

(** C6.  For [n >= 1] the script prints the elapsed-time line once, after
    the search, whatever its result.  After a failed search nothing else is
    printed.  After a successful one [4n] lines follow, [Row 0] to
    [Row 4n-1], each with [4n] entries [0] or [1]: [Row 0] is all ones, and
    [Row i+1] is [1] followed by the [m] bits of the [i]-th design row from
    the most significant. *)
Theorem program_output {float : Type} (n : Z) (start_time end_time : float) :
  1 <= n ->
  exists result s1 s',
    find_minimal_hadamard n start_time end_time initial = Normal result s1 /\
    main n start_time end_time initial = Normal tt s' /\
    match result with
    | PyNone => stdout s' = [ElapsedLine start_time end_time]
    | MatrixRef =>
        let grid := expand n (matrix s1) in
        stdout s' = ElapsedLine start_time end_time :: row_lines 0 grid /\
        Z.of_nat (length grid) = 4 * n /\
        Z.of_nat (length (stdout s')) = 1 + 4 * n /\
        (forall i, (i < length grid)%nat ->
           nth_error (stdout s') (S i)
           = Some (RowLine (Z.of_nat i) (nth i grid []))) /\
        Forall (fun r => Z.of_nat (length r) = 4 * n /\
                         Forall (fun e => e = 0 \/ e = 1) r) grid /\
        nth 0 grid [] = repeat 1 (Z.to_nat (4 * n)) /\
        (forall i, (i < length (matrix s1))%nat ->
           nth (S i) grid []
           = 1 :: map (fun j => b2z (Z.testbit (nth i (matrix s1) 0)
                                       (4 * n - 1 - 1 - j)))
                      (range (4 * n - 1)))
    end.
Proof.
  intros Hn.
  pose proof (find_minimal_hadamard_total n start_time end_time
                initial Hn) as H.
  unfold main, bind.
  destruct (find_minimal_hadamard n start_time end_time initial)
    as [[|] s1 | e s1 |]; try contradiction.
  - subst s1. do 3 eexists. split; [reflexivity |]. split; reflexivity.
  - destruct H as (Hout & Hdesign & Hlen). cbn [initial stdout app] in Hout.
    assert (Hm : 0 <= m n) by (unfold m, size; lia).
    assert (Htruthy : truthy MatrixRef s1 = true).
    { cbn [truthy]. destruct (matrix s1); [| reflexivity].
      simpl in Hlen. unfold size in Hlen. lia. }
    rewrite Htruthy, print_hadamard_01_spec, Hout.
    do 3 eexists. split; [reflexivity |]. split; [reflexivity |].
    cbn [stdout app length].
    assert (Hgrid : length (expand n (matrix s1)) = S (length (matrix s1)))
      by (unfold expand; simpl; now rewrite length_map).
    repeat split.
    + rewrite Hgrid. unfold size in Hlen. lia.
    + rewrite row_lines_length, Hgrid. unfold size in Hlen. lia.
    + intros i Hi. cbn [nth_error]. now rewrite row_lines_nth.
    + now apply expand_entries.
    + intros i Hi. unfold expand. cbn [nth].
      rewrite (nth_indep _ [] (expand_row (m n) 0))
        by now rewrite length_map.
      now rewrite map_nth.
Qed.

Lemma program_output_witness :
  exists result s1 s',
    find_minimal_hadamard 1 tt tt initial = Normal result s1 /\
    main 1 tt tt initial = Normal tt s' /\
    match result with
    | PyNone => stdout s' = [ElapsedLine tt tt]
    | MatrixRef =>
        let grid := expand 1 (matrix s1) in
        stdout s' = ElapsedLine tt tt :: row_lines 0 grid /\
        Z.of_nat (length grid) = 4 * 1 /\
        Z.of_nat (length (stdout s')) = 1 + 4 * 1 /\
        (forall i, (i < length grid)%nat ->
           nth_error (stdout s') (S i)
           = Some (RowLine (Z.of_nat i) (nth i grid []))) /\
        Forall (fun r => Z.of_nat (length r) = 4 * 1 /\
                         Forall (fun e => e = 0 \/ e = 1) r) grid /\
        nth 0 grid [] = repeat 1 (Z.to_nat (4 * 1)) /\
        (forall i, (i < length (matrix s1))%nat ->
           nth (S i) grid []
           = 1 :: map (fun j => b2z (Z.testbit (nth i (matrix s1) 0)
                                       (4 * 1 - 1 - 1 - j)))
                      (range (4 * 1 - 1)))
    end.
Proof.
  apply (program_output 1 tt tt). lia.
Defined.

(** ** Determinism *)

Lemma build_row_alike {St1 St2 R : Type} (rows1 : St1 -> list Z)
    (rows2 : St2 -> list Z) (body1 : Z -> M St1 (option R))
    (body2 : Z -> M St2 (option R)) (Rel : St1 -> St2 -> Prop) :
  (forall s1 s2, Rel s1 s2 -> rows1 s1 = rows2 s2) ->
  (forall c s1 s2, Rel s1 s2 -> alike Rel (body1 c s1) (body2 c s2)) ->
  forall fuel bit_index ones_left current_row overlaps_needed m n s1 s2,
    Rel s1 s2 ->
    alike Rel
      (build_row rows1 body1 fuel bit_index ones_left current_row
         overlaps_needed m n s1)
      (build_row rows2 body2 fuel bit_index ones_left current_row
         overlaps_needed m n s2).
Proof.
  intros Hrows Hbody.
  induction fuel as [| fuel IH]; intros bi k cur ov m n s1 s2 Hrel;
    cbn [build_row]; [exact I |].
  destruct (bi =? m).
  { destruct ((k =? 0) && forallb (fun x => x =? 0) ov);
      [now apply Hbody | now split]. }
  rewrite (Hrows s1 s2 Hrel).
  match goal with
  | |- alike _ (match ?X1 with _ => _ end) (match ?X2 with _ => _ end) =>
      assert (H1 : alike Rel X1 X2);
        [| destruct X1 as [[r1 |] t1 | e1 t1 |],
                    X2 as [[r2 |] t2 | e2 t2 |];
           simpl in H1; try contradiction; try exact H1;
           try (destruct H1 as [Hd _]; discriminate Hd) ]
  end.
  - destruct (k >? 0); [| now split].
    destruct (set_scan bi (m - bi) m (rows2 s2) ov []); try (now split).
    destruct (py_lshift 1 (m - 1 - bi)); [now apply IH | now split].
  - destruct H1 as [_ Hrel1]. rewrite (Hrows t1 t2 Hrel1).
    destruct (clear_scan bi (m - bi) m (rows2 t2) ov []); try (now split).
    now apply IH.
Qed.

Lemma build_row_collect (fuel : nat) (bit_index k cur : Z) (ov : list Z)
    (m n : Z) (P acc : list Z) :
  rows_kept P (build_row fst collect fuel bit_index k cur ov m n (P, []))
  /\ build_row fst collect fuel bit_index k cur ov m n (P, acc)
     = after acc
         (build_row fst collect fuel bit_index k cur ov m n (P, [])).
Proof.
  pose proof (build_row_alike fst fst collect collect
                (fun s1 s2 => fst s1 = P /\ fst s2 = P
                              /\ snd s2 = acc ++ snd s1)) as H.
  specialize (H ltac:(intros s1 s2 (-> & -> & _); reflexivity)).
  match type of H with
  | ?A -> _ => assert (Hb : A)
  end.
  { intros c [P1 l1] [P2 l2] (E1 & E2 & E3). simpl in *. subst.
    repeat split. symmetry. apply app_assoc. }
  specialize (H Hb fuel bit_index k cur ov m n (P, []) (P, acc)).
  specialize (H ltac:(simpl; rewrite app_nil_r; auto)).
  destruct (build_row fst collect fuel bit_index k cur ov m n (P, []))
    as [a1 [P1 l1] | e1 [P1 l1] |],
    (build_row fst collect fuel bit_index k cur ov m n (P, acc))
    as [a2 [P2 l2] | e2 [P2 l2] |]; simpl in *; try contradiction.
  - destruct H as (-> & -> & -> & ->). split; reflexivity.
  - destruct H as (-> & -> & -> & ->). split; reflexivity.
  - split; reflexivity.
Qed.

Lemma rows_kept_after {A : Type} (P acc : list Z)
    (o : outcome (list Z * list Z) A) :
  rows_kept P o -> rows_kept P (after acc o).
Proof.
  destruct o as [a [P1 l1] | e [P1 l1] |]; simpl; auto.
Qed.

Lemma untimed_row_lines {float : Type} (grid : list (list Z)) (k : Z) :
  map untimed (row_lines (float := float) k grid)
  = map Some (combine (map (fun i => k + Z.of_nat i)
                         (seq 0 (length grid))) grid).
Proof.
  revert k. induction grid as [| l grid IH]; intros k; simpl;
    [reflexivity |].
  rewrite Z.add_0_r, IH. do 3 f_equal.
  rewrite <- seq_shift, map_map. apply map_ext. intros i. lia.
Qed.

(** ** The store *)

Lemma length_store (r : ref) (l : list Z) (h : heap) :
  length (store r l h) = length h.
Proof.
  revert r. induction h as [| x h IH]; intros [| r]; simpl; auto.
Qed.

Lemma deref_store_same (r : ref) (l : list Z) (h : heap) :
  (r < length h)%nat -> deref (store r l h) r = l.
Proof.
  revert r. induction h as [| x h IH]; intros [| r] H; simpl in *;
    try lia; [reflexivity |].
  unfold deref in *. simpl. apply IH. lia.
Qed.

Lemma deref_store_other (r r' : ref) (l : list Z) (h : heap) :
  r' <> r -> deref (store r l h) r' = deref h r'.
Proof.
  revert r r'. induction h as [| x h IH]; intros [| r] [| r'] H; simpl;
    try reflexivity; try congruence.
  unfold deref in *. simpl. apply IH. congruence.
Qed.

Lemma store_store (r : ref) (l l' : list Z) (h : heap) :
  store r l (store r l' h) = store r l h.
Proof.
  revert r. induction h as [| x h IH]; intros [| r]; simpl;
    try reflexivity.
  now rewrite IH.
Qed.

Lemma store_deref (r : ref) (h : heap) : store r (deref h r) h = h.
Proof.
  revert r. induction h as [| x h IH]; intros [| r]; simpl;
    try reflexivity.
  unfold deref in *. simpl. now rewrite IH.
Qed.

Lemma store_app_new (l l' : list Z) (h : heap) :
  store (length h) l (h ++ [l']) = h ++ [l].
Proof.
  induction h as [| x h IH]; simpl; [reflexivity | now rewrite IH].
Qed.

Lemma deref_app_old (r : ref) (h h' : heap) :
  (r < length h)%nat -> deref (h ++ h') r = deref h r.
Proof.
  intros H. unfold deref. now apply app_nth1.
Qed.

Lemma deref_app_new (l : list Z) (h : heap) :
  deref (h ++ [l]) (length h) = l.
Proof.
  unfold deref. apply nth_middle.
Qed.

Lemma with_objects_id {float : Type} (w : world float) :
  with_objects (objects w) w = w.
Proof.
  now destruct w.
Qed.

Lemma nth_error_skipn_cons {A : Type} (l : list A) (i : nat) (x : A) :
  nth_error l i = Some x -> skipn i l = x :: skipn (S i) l.
Proof.
  revert i. induction l as [| a l IH]; intros [| i] H; simpl in *;
    try discriminate.
  - now injection H as ->.
  - now apply IH.
Qed.

Lemma nth_error_skipn_nil {A : Type} (l : list A) (i : nat) :
  nth_error l i = None -> skipn i l = [].
Proof.
  intros H. apply skipn_all2. now apply nth_error_None.
Qed.

Lemma unchanged_except_refl {float : Type} (mine : ref -> Prop)
    (w : world float) :
  unchanged_except mine w w.
Proof.
  split; [lia | reflexivity].
Qed.

Lemma unchanged_except_trans {float : Type} (mine : ref -> Prop)
    (w1 w2 w3 : world float) :
  unchanged_except mine w1 w2 -> unchanged_except mine w2 w3 ->
  unchanged_except mine w1 w3.
Proof.
  intros [H1 E1] [H2 E2]. split; [lia |].
  intros r Hr Hm. rewrite E2 by (try assumption; lia). now apply E1.
Qed.

Lemma unchanged_except_new {float : Type} (mine : ref -> Prop)
    (w : world float) (l : list Z) :
  unchanged_except mine w (with_objects (objects w ++ [l]) w).
Proof.
  split; cbn [with_objects objects].
  - rewrite length_app. lia.
  - intros r Hr _. now apply deref_app_old.
Qed.

(** ** The loops over the two lists *)

(** With [new_overlaps] an object of its own, the loop over the store does
    what the loop over the elements does, and changes [new_overlaps]
    only. *)
Lemma set_scan_heap_spec {float : Type} (bi rem m : Z)
    (prev ov new : ref) (P O : list Z) :
  prev <> new -> ov <> new ->
  forall (steps i : nat) (w : world float),
    (new < length (objects w))%nat ->
    deref (objects w) prev = P -> deref (objects w) ov = O ->
    (i <= length P)%nat -> (length P - i < steps)%nat ->
    match set_scan bi rem m (skipn i P) (skipn i O)
            (deref (objects w) new) with
    | Pruned =>
        exists l, set_scan_heap steps i bi rem m prev ov new w
                  = Normal true (with_objects (store new l (objects w)) w)
    | Kept l =>
        set_scan_heap steps i bi rem m prev ov new w
        = Normal false (with_objects (store new l (objects w)) w)
    | ShiftError =>
        exists l, set_scan_heap steps i bi rem m prev ov new w
                  = Raise ValueError
                      (with_objects (store new l (objects w)) w)
    end.
Proof.
  intros Hp Ho.
  induction steps as [| steps IH]; intros i w Hnew HP HO Hi Hsteps;
    [lia |].
  cbn [set_scan_heap]. rewrite HP, HO.
  destruct (nth_error P i) as [p |] eqn:EP.
  2:{ rewrite (nth_error_skipn_nil _ _ EP). cbn [set_scan].
      now rewrite store_deref, with_objects_id. }
  rewrite (nth_error_skipn_cons _ _ _ EP).
  destruct (nth_error O i) as [needed |] eqn:EO.
  2:{ rewrite (nth_error_skipn_nil _ _ EO). cbn [set_scan].
      now rewrite store_deref, with_objects_id. }
  rewrite (nth_error_skipn_cons _ _ _ EO). cbn [set_scan].
  destruct (bit_set p (m - 1 - bi)) as [b |].
  2:{ exists (deref (objects w) new).
      now rewrite store_deref, with_objects_id. }
  cbv zeta.
  destruct (((if b then needed - 1 else needed) <? 0)
            || ((if b then needed - 1 else needed) >? rem - 1)).
  { exists (deref (objects w) new).
    now rewrite store_deref, with_objects_id. }
  unfold bind, list_append.
  assert (Hlt : (i < length P)%nat)
    by (apply nth_error_Some; congruence).
  specialize (IH (S i)
    (with_objects
       (store new (deref (objects w) new
                   ++ [if b then needed - 1 else needed]) (objects w)) w)).
  cbn [with_objects objects] in IH.
  rewrite length_store, deref_store_same, !deref_store_other in IH
    by assumption.
  specialize (IH Hnew HP HO ltac:(lia) ltac:(lia)).
  destruct (set_scan bi rem m (skipn (S i) P) (skipn (S i) O) _);
    [destruct IH as [l IH]; exists l | | destruct IH as [l IH]; exists l];
    rewrite IH, store_store; reflexivity.
Qed.

Lemma clear_scan_heap_spec {float : Type} (bi rem m : Z)
    (prev ov new : ref) (P O : list Z) :
  prev <> new -> ov <> new ->
  forall (steps i : nat) (w : world float),
    (new < length (objects w))%nat ->
    deref (objects w) prev = P -> deref (objects w) ov = O ->
    (i <= length P)%nat -> (length P - i < steps)%nat ->
    match clear_scan bi rem m (skipn i P) (skipn i O)
            (deref (objects w) new) with
    | Pruned =>
        exists l, clear_scan_heap steps i bi rem m prev ov new w
                  = Normal true (with_objects (store new l (objects w)) w)
    | Kept l =>
        clear_scan_heap steps i bi rem m prev ov new w
        = Normal false (with_objects (store new l (objects w)) w)
    | ShiftError =>
        exists l, clear_scan_heap steps i bi rem m prev ov new w
                  = Raise ValueError
                      (with_objects (store new l (objects w)) w)
    end.
Proof.
  intros Hp Ho.
  induction steps as [| steps IH]; intros i w Hnew HP HO Hi Hsteps;
    [lia |].
  cbn [clear_scan_heap]. rewrite HP, HO.
  destruct (nth_error P i) as [p |] eqn:EP.
  2:{ rewrite (nth_error_skipn_nil _ _ EP). cbn [clear_scan].
      now rewrite store_deref, with_objects_id. }
  rewrite (nth_error_skipn_cons _ _ _ EP).
  destruct (nth_error O i) as [needed |] eqn:EO.
  2:{ rewrite (nth_error_skipn_nil _ _ EO). cbn [clear_scan].
      now rewrite store_deref, with_objects_id. }
  rewrite (nth_error_skipn_cons _ _ _ EO). cbn [clear_scan].
  destruct (bit_set p (m - 1 - bi)) as [b |].
  2:{ exists (deref (objects w) new).
      now rewrite store_deref, with_objects_id. }
  destruct (b && (needed >? rem - 1)).
  { exists (deref (objects w) new).
    now rewrite store_deref, with_objects_id. }
  unfold bind, list_append.
  assert (Hlt : (i < length P)%nat)
    by (apply nth_error_Some; congruence).
  specialize (IH (S i)
    (with_objects
       (store new (deref (objects w) new ++ [needed]) (objects w)) w)).
  cbn [with_objects objects] in IH.
  rewrite length_store, deref_store_same, !deref_store_other in IH
    by assumption.
  specialize (IH Hnew HP HO ltac:(lia) ltac:(lia)).
  destruct (clear_scan bi rem m (skipn (S i) P) (skipn (S i) O) _);
    [destruct IH as [l IH]; exists l | | destruct IH as [l IH]; exists l];
    rewrite IH, store_store; reflexivity.
Qed.

(** The loops as [build_row] runs them: [new_overlaps] was just made. *)
Lemma fresh_set_scan {float : Type} (bi rem m : Z) (prev ov : ref)
    (w : world float) :
  (prev < length (objects w))%nat -> (ov < length (objects w))%nat ->
  match set_scan bi rem m (deref (objects w) prev) (deref (objects w) ov)
          [] with
  | Pruned =>
      exists l,
        set_scan_heap
          (zip_steps prev ov (with_objects (objects w ++ [[]]) w)) 0
          bi rem m prev ov (length (objects w))
          (with_objects (objects w ++ [[]]) w)
        = Normal true (with_objects (objects w ++ [l]) w)
  | Kept l =>
      set_scan_heap
        (zip_steps prev ov (with_objects (objects w ++ [[]]) w)) 0
        bi rem m prev ov (length (objects w))
        (with_objects (objects w ++ [[]]) w)
      = Normal false (with_objects (objects w ++ [l]) w)
  | ShiftError =>
      exists l,
        set_scan_heap
          (zip_steps prev ov (with_objects (objects w ++ [[]]) w)) 0
          bi rem m prev ov (length (objects w))
          (with_objects (objects w ++ [[]]) w)
        = Raise ValueError (with_objects (objects w ++ [l]) w)
  end.
Proof.
  intros Hp Ho.
  pose proof (set_scan_heap_spec bi rem m prev ov (length (objects w))
                (deref (objects w) prev) (deref (objects w) ov)
                ltac:(lia) ltac:(lia)
                (zip_steps prev ov (with_objects (objects w ++ [[]]) w))
                0%nat (with_objects (objects w ++ [[]]) w)) as H.
  cbn [with_objects objects skipn] in H.
  rewrite deref_app_new in H.
  unfold zip_steps in *. cbn [with_objects objects] in *.
  rewrite !deref_app_old in * by assumption.
  rewrite length_app in H. cbn [length] in H.
  specialize (H ltac:(lia) eq_refl eq_refl ltac:(lia) ltac:(lia)).
  destruct (set_scan bi rem m _ _ []);
    [destruct H as [l H]; exists l | | destruct H as [l H]; exists l];
    rewrite H; unfold with_objects; cbn [objects clock now printed];
    now rewrite store_app_new.
Qed.

Lemma fresh_clear_scan {float : Type} (bi rem m : Z) (prev ov : ref)
    (w : world float) :
  (prev < length (objects w))%nat -> (ov < length (objects w))%nat ->
  match clear_scan bi rem m (deref (objects w) prev)
          (deref (objects w) ov) [] with
  | Pruned =>
      exists l,
        clear_scan_heap
          (zip_steps prev ov (with_objects (objects w ++ [[]]) w)) 0
          bi rem m prev ov (length (objects w))
          (with_objects (objects w ++ [[]]) w)
        = Normal true (with_objects (objects w ++ [l]) w)
  | Kept l =>
      clear_scan_heap
        (zip_steps prev ov (with_objects (objects w ++ [[]]) w)) 0
        bi rem m prev ov (length (objects w))
        (with_objects (objects w ++ [[]]) w)
      = Normal false (with_objects (objects w ++ [l]) w)
  | ShiftError =>
      exists l,
        clear_scan_heap
          (zip_steps prev ov (with_objects (objects w ++ [[]]) w)) 0
          bi rem m prev ov (length (objects w))
          (with_objects (objects w ++ [[]]) w)
        = Raise ValueError (with_objects (objects w ++ [l]) w)
  end.
Proof.
  intros Hp Ho.
  pose proof (clear_scan_heap_spec bi rem m prev ov (length (objects w))
                (deref (objects w) prev) (deref (objects w) ov)
                ltac:(lia) ltac:(lia)
                (zip_steps prev ov (with_objects (objects w ++ [[]]) w))
                0%nat (with_objects (objects w ++ [[]]) w)) as H.
  cbn [with_objects objects skipn] in H.
  rewrite deref_app_new in H.
  unfold zip_steps in *. cbn [with_objects objects] in *.
  rewrite !deref_app_old in * by assumption.
  rewrite length_app in H. cbn [length] in H.
  specialize (H ltac:(lia) eq_refl eq_refl ltac:(lia) ltac:(lia)).
  destruct (clear_scan bi rem m _ _ []);
    [destruct H as [l H]; exists l | | destruct H as [l H]; exists l];
    rewrite H; unfold with_objects; cbn [objects clock now printed];
    now rewrite store_app_new.
Qed.

(** ** The generator over the store and over values *)

Lemma sim_mono {St1 St2 A1 A2 : Type}
    (RelA RelA' : A1 -> St1 -> A2 -> St2 -> Prop)
    (RelE RelE' : St1 -> St2 -> Prop)
    (o1 : outcome St1 A1) (o2 : outcome St2 A2) :
  (forall a1 s1 a2 s2, RelA a1 s1 a2 s2 -> RelA' a1 s1 a2 s2) ->
  (forall s1 s2, RelE s1 s2 -> RelE' s1 s2) ->
  sim RelA RelE o1 o2 -> sim RelA' RelE' o1 o2.
Proof.
  intros HA HE. destruct o1, o2; simpl; auto.
  intros [-> H]. auto.
Qed.

Section Simulation.

(** A consumer over values and one over the store, which keep their states
    related by [Rel] and change no object but those of [mine]; [Rel] tells
    the elements of [prev_rows] and is not about objects made later. *)
Context {float St Rv R : Type}.
Variable prev_rows_v : St -> list Z.
Variable body_v : Z -> M St (option Rv).
Variable body_h : Z -> M (world float) (option R).
Variable prev_ref : ref.
Variable mine : ref -> Prop.
Variable Rel : St -> world float -> Prop.
Variable RelR : Rv -> St -> R -> world float -> Prop.

Hypothesis Rel_rows : forall s w,
  Rel s w -> deref (objects w) prev_ref = prev_rows_v s.
Hypothesis Rel_valid : forall s w,
  Rel s w ->
  (prev_ref < length (objects w))%nat /\
  forall r, mine r -> (r < length (objects w))%nat.
Hypothesis Rel_grows : forall s w l,
  Rel s w -> Rel s (with_objects (objects w ++ [l]) w).
Hypothesis body_sim : forall c s w,
  Rel s w ->
  sim (loop_rel mine Rel RelR w)
    (fun s' w' => unchanged_except mine w w' /\ Rel s' w')
    (body_v c s) (body_h c w).

Lemma loop_rel_trans (w w1 : world float) (a1 : option Rv) (s' : St)
    (a2 : option R) (w' : world float) :
  unchanged_except mine w w1 ->
  loop_rel mine Rel RelR w1 a1 s' a2 w' ->
  loop_rel mine Rel RelR w a1 s' a2 w'.
Proof.
  intros H [H1 H2]. split; [| exact H2].
  exact (unchanged_except_trans mine w w1 w' H H1).
Qed.

Lemma build_row_heap_sim (fuel : nat) :
  forall (bit_index ones_left current_row : Z) (overlaps_needed : ref)
         (m n : Z) (s : St) (w : world float),
    Rel s w ->
    (overlaps_needed < length (objects w))%nat ->
    ~ mine overlaps_needed ->
    sim (loop_rel mine Rel RelR w)
      (fun s' w' => unchanged_except mine w w' /\ Rel s' w')
      (build_row prev_rows_v body_v fuel bit_index ones_left current_row
         (deref (objects w) overlaps_needed) m n s)
      (build_row_heap body_h fuel bit_index ones_left current_row
         prev_ref overlaps_needed m n w).
Proof.
  induction fuel as [| fuel IH]; intros bi k cur ov m n s w Hrel Hov Hnm;
    cbn [build_row build_row_heap]; [exact I |].
  destruct (bi =? m).
  { destruct ((k =? 0) && forallb (fun x => x =? 0) (deref (objects w) ov)).
    - now apply body_sim.
    - split; [apply unchanged_except_refl | assumption]. }
  (* what a recursive call in a world with a new list gives *)
  assert (Hrec : forall k' cur' l s1 w1,
    Rel s1 w1 -> unchanged_except mine w w1 ->
    sim (loop_rel mine Rel RelR w)
      (fun s' w' => unchanged_except mine w w' /\ Rel s' w')
      (build_row prev_rows_v body_v fuel (bi + 1) k' cur' l m n s1)
      (build_row_heap body_h fuel (bi + 1) k' cur' prev_ref
         (length (objects w1)) m n (with_objects (objects w1 ++ [l]) w1))).
  { intros k' cur' l s1 w1 Hrel1 Hun1.
    pose proof (IH (bi + 1) k' cur' (length (objects w1)) m n s1
                  (with_objects (objects w1 ++ [l]) w1)) as H.
    cbn [with_objects objects] in H.
    rewrite deref_app_new, length_app in H. cbn [length] in H.
    specialize (H (Rel_grows _ _ l Hrel1) ltac:(lia)).
    assert (Hfresh : ~ mine (length (objects w1))).
    { intros Hmine. apply (Rel_valid _ _ Hrel1) in Hmine. lia. }
    specialize (H Hfresh).
    assert (Hun : unchanged_except mine w
                    (with_objects (objects w1 ++ [l]) w1)).
    { eapply unchanged_except_trans; [exact Hun1 |].
      apply unchanged_except_new. }
    eapply sim_mono; [| | exact H].
    - intros a1 s' a2 w'. now apply loop_rel_trans.
    - intros s' w' [H1 H2]. split; [| exact H2].
      eapply unchanged_except_trans; eassumption. }
  match goal with
  | |- sim _ _ (match ?X with _ => _ end) (match ?Y with _ => _ end) =>
      assert (H1 : sim (loop_rel mine Rel RelR w)
                     (fun s' w' => unchanged_except mine w w' /\ Rel s' w')
                     X Y)
  end.
  { destruct (k >? 0).
    2:{ split; [apply unchanged_except_refl | assumption]. }
    unfold bind, list_new.
    pose proof (fresh_set_scan bi (m - bi) m prev_ref ov w
                  (proj1 (Rel_valid _ _ Hrel)) Hov) as Hs.
    rewrite (Rel_rows _ _ Hrel) in Hs.
    destruct (set_scan bi (m - bi) m (prev_rows_v s)
                (deref (objects w) ov) []) as [| l |].
    - destruct Hs as [l ->].
      split; [apply unchanged_except_new | now apply Rel_grows].
    - rewrite Hs. destruct (py_lshift 1 (m - 1 - bi)) as [b |].
      + apply Hrec; [assumption | apply unchanged_except_refl].
      + split; [reflexivity |].
        split; [apply unchanged_except_new | now apply Rel_grows].
    - destruct Hs as [l ->]. split; [reflexivity |].
      split; [apply unchanged_except_new | now apply Rel_grows]. }
  match goal with
  | |- sim _ _ (match ?X with _ => _ end) (match ?Y with _ => _ end) =>
      destruct X as [[r |] s1 | e s1 |], Y as [[r' |] w1 | e' w1 |];
        try exact H1; try contradiction; try (now destruct H1 as [_ []])
  end.
  destruct H1 as [Hun1 Hrel1].
  assert (Hov1 : (ov < length (objects w1))%nat)
    by (destruct Hun1; lia).
  unfold bind, list_new.
  pose proof (fresh_clear_scan bi (m - bi) m prev_ref ov w1
                (proj1 (Rel_valid _ _ Hrel1)) Hov1) as Hs.
  rewrite (Rel_rows _ _ Hrel1) in Hs.
  rewrite (proj2 Hun1 ov Hov Hnm) in Hs.
  destruct (clear_scan bi (m - bi) m (prev_rows_v s1)
              (deref (objects w) ov) []) as [| l |].
  - destruct Hs as [l ->]. split; [| now apply Rel_grows].
    eapply unchanged_except_trans; [exact Hun1 |].
    apply unchanged_except_new.
  - rewrite Hs. now apply Hrec.
  - destruct Hs as [l ->]. split; [reflexivity |].
    split; [| now apply Rel_grows].
    eapply unchanged_except_trans; [exact Hun1 |].
    apply unchanged_except_new.
Qed.

End Simulation.

(** ** The collecting run *)

Lemma build_row_list_heap_sim {float : Type} (fuel : nat)
    (bit_index ones_left current_row : Z) (prev_rows overlaps_needed : ref)
    (m n : Z) (w : world float) :
  (prev_rows < length (objects w))%nat ->
  (overlaps_needed < length (objects w))%nat ->
  yields (build_row_list_heap fuel bit_index ones_left current_row
            prev_rows overlaps_needed m n w)
  = build_row_list fuel bit_index ones_left current_row
      (deref (objects w) prev_rows) (deref (objects w) overlaps_needed)
      m n /\
  untouched w (build_row_list_heap fuel bit_index ones_left current_row
                 prev_rows overlaps_needed m n w).
Proof.
  intros Hp Ho. unfold build_row_list_heap, build_row_list, bind, list_new.
  set (out := length (objects w)).
  set (w1 := with_objects (objects w ++ [[]]) w).
  assert (Hw1 : unchanged_except (fun _ => False) w w1)
    by apply unchanged_except_new.
  assert (Hrel : collect_rel prev_rows out w
                   (deref (objects w) prev_rows, []) w1).
  { unfold collect_rel, w1, out. cbn [with_objects objects fst snd].
    rewrite deref_app_new, deref_app_old, length_app by assumption.
    cbn [length clock now printed].
    repeat split; lia. }
  pose proof (build_row_heap_sim (Rv := Empty_set) fst collect
                (collect_heap out) prev_rows (fun r => r = out)
                (collect_rel prev_rows out w)
                (fun _ _ _ _ => False)) as Hsim.
  match type of Hsim with
  | ?A -> ?B -> ?C -> ?D -> _ =>
      assert (G1 : A); [| assert (G2 : B); [| assert (G3 : C);
        [| assert (G4 : D) ]]]
  end.
  - intros s w' H. apply H.
  - intros s w' (_ & _ & H1 & H2 & _). split; [assumption |].
    now intros r ->.
  - intros s w' l (E1 & E2 & H1 & H2 & H3 & Hc).
    unfold collect_rel. cbn [with_objects objects clock now printed].
    rewrite !deref_app_old, length_app by assumption.
    repeat split; try assumption; try (apply Hc); lia.
  - intros c s w' (E1 & E2 & H1 & H2 & H3 & Hc).
    unfold collect, collect_heap, bind, list_append, ret. simpl.
    split.
    + split; cbn [with_objects objects]; [now rewrite length_store |].
      intros r _ Hr. now apply deref_store_other.
    + unfold collect_rel. cbn [with_objects objects clock now printed
                                fst snd].
      rewrite length_store, deref_store_same, deref_store_other, E2
        by assumption.
      repeat split; try assumption; apply Hc.
  - specialize (Hsim G1 G2 G3 G4 fuel bit_index ones_left current_row
                  overlaps_needed m n _ w1 Hrel).
    assert (Ho1 : (overlaps_needed < length (objects w1))%nat)
      by (destruct Hw1; lia).
    specialize (Hsim Ho1 ltac:(unfold out; lia)).
    replace (deref (objects w1) overlaps_needed)
      with (deref (objects w) overlaps_needed) in Hsim
      by (symmetry; unfold w1; cbn [with_objects objects];
          now apply deref_app_old).
    assert (Hframe : forall s' w',
      unchanged_except (fun r => r = out) w1 w' ->
      collect_rel prev_rows out w s' w' ->
      unchanged_except (fun _ => False) w w' /\
      clock w' = clock w /\ now w' = now w /\ printed w' = printed w).
    { intros s' w' [Hl Hun] (_ & _ & _ & _ & _ & Hc).
      split; [| exact Hc].
      destruct Hw1 as [Hl1 Hun1]. split; [lia |].
      intros r Hr _. rewrite Hun by (unfold out; lia).
      now apply Hun1. }
    destruct (build_row fst collect fuel bit_index ones_left current_row
                (deref (objects w) overlaps_needed) m n
                (deref (objects w) prev_rows, []))
      as [a1 s' | e s' |],
      (build_row_heap (collect_heap out) fuel bit_index ones_left
         current_row prev_rows overlaps_needed m n w1)
      as [a2 w' | e' w' |]; simpl in Hsim; try contradiction.
    + destruct Hsim as [Hun Hm]. destruct a1 as [[] |], a2 as [[] |].
      unfold ret, yields, untouched.
      split; [| now apply (Hframe s')].
      f_equal. apply Hm.
    + destruct Hsim as [-> [Hun Hm]]. unfold yields, untouched.
      split; [reflexivity | now apply (Hframe s')].
    + split; [reflexivity | exact I].
Qed.

(** ** The search over the store *)

Lemma rows_rel_append {float : Type} (rows : ref) (s0 : state float)
    (w0 : world float) (s : state float) (w : world float) (l : list Z) :
  rows_rel rows s0 w0 s w ->
  rows_rel rows s0 w0 (mkState l (stdout s))
    (with_objects (store rows l (objects w)) w) /\
  unchanged_except (fun r => r = rows) w
    (with_objects (store rows l (objects w)) w).
Proof.
  intros (E & Hr & Hc). split.
  - unfold rows_rel.
    cbn [with_objects objects clock now printed matrix stdout].
    rewrite length_store, deref_store_same by assumption.
    split; [reflexivity | split; assumption].
  - split; cbn [with_objects objects]; [now rewrite length_store |].
    intros r _ Hne. now apply deref_store_other.
Qed.

Lemma backtrack_heap_sim {float : Type} (n : Z) (rows : ref)
    (s0 : state float) (w0 : world float) (fuel : nat) :
  forall (s : state float) (w : world float),
    rows_rel rows s0 w0 s w ->
    sim (fun v s' hv w' =>
           hv_matches rows v hv /\
           unchanged_except (fun r => r = rows) w w' /\
           rows_rel rows s0 w0 s' w')
      (fun s' w' =>
         unchanged_except (fun r => r = rows) w w' /\
         rows_rel rows s0 w0 s' w')
      (backtrack n fuel s) (backtrack_heap n fuel rows w).
Proof.
  induction fuel as [| fuel IH]; intros s w Hrel;
    cbn [backtrack backtrack_heap]; [exact I |].
  pose proof Hrel as (E & Hr & Hc). rewrite E.
  destruct (Z.of_nat (length (matrix s)) =? size n - 1).
  { split; [reflexivity |].
    split; [apply unchanged_except_refl | assumption]. }
  unfold bind, list_new.
  set (w1 := with_objects
               (objects w ++ [repeat (n - 1) (length (matrix s))]) w).
  assert (Hw1 : unchanged_except (fun r => r = rows) w w1)
    by apply unchanged_except_new.
  assert (Hgrow : forall s' w' l, rows_rel rows s0 w0 s' w' ->
            rows_rel rows s0 w0 s' (with_objects (objects w' ++ [l]) w')).
  { intros s' w' l (E' & Hr' & Hc'). unfold rows_rel.
    cbn [with_objects objects clock now printed].
    rewrite deref_app_old, length_app by assumption.
    split; [assumption | split; [lia | assumption]]. }
  pose proof (build_row_heap_sim matrix (loop_body (backtrack n fuel))
                (loop_body_heap (backtrack_heap n fuel) rows) rows
                (fun r => r = rows) (rows_rel rows s0 w0)
                (fun v s' hv w' =>
                   hv_matches rows v hv /\ rows_rel rows s0 w0 s' w'))
    as Hsim.
  match type of Hsim with
  | ?A -> ?B -> ?C -> ?D -> _ =>
      assert (G1 : A); [| assert (G2 : B); [| assert (G3 : C);
        [| assert (G4 : D) ]]]
  end.
  - intros s' w' H. apply H.
  - intros s' w' (_ & H & _). split; [assumption | now intros r ->].
  - exact Hgrow.
  - intros c s2 w2 Hrel2.
    unfold loop_body, loop_body_heap, bind, append, list_append.
    pose proof Hrel2 as (E2 & _).
    destruct (rows_rel_append rows s0 w0 s2 w2 (matrix s2 ++ [c]) Hrel2)
      as [Hrel3 Hun3].
    rewrite E2.
    specialize (IH _ _ Hrel3).
    destruct (backtrack n fuel _) as [v s4 | e s4 |],
      (backtrack_heap n fuel rows _) as [hv w4 | e' w4 |];
      simpl in IH; try contradiction; simpl.
    + destruct IH as (Hv & Hun4 & Hrel4).
      pose proof Hrel4 as (E4 & _).
      assert (Hun : unchanged_except (fun r => r = rows) w2 w4)
        by (eapply unchanged_except_trans; eassumption).
      assert (Ht : htruthy hv w4 = truthy v s4).
      { destruct v, hv; simpl in Hv; try contradiction;
          [reflexivity |].
        subst r. simpl. now rewrite E4. }
      rewrite Ht. destruct (truthy v s4).
      * split; [assumption | split; assumption].
      * unfold pop, list_pop. rewrite E4.
        destruct (matrix s4) as [| x l] eqn:Em4; simpl.
        -- auto.
        -- unfold ret.
           destruct (rows_rel_append rows s0 w0 s4 w4
                       (removelast (x :: l)) Hrel4) as [Hrel5 Hun5].
           split; [| exact Hrel5].
           eapply unchanged_except_trans; eassumption.
    + destruct IH as (-> & Hun4 & Hrel4). split; [reflexivity |].
      split; [| assumption].
      eapply unchanged_except_trans; eassumption.
    + exact I.
  - specialize (Hsim G1 G2 G3 G4 (S (Z.to_nat (m n))) 0 (total_ones n) 0
                  (length (objects w)) (m n) n s w1
                  (Hgrow _ _ _ Hrel)).
    assert (Ed : deref (objects w1) (length (objects w))
                 = repeat (n - 1) (length (matrix s)))
      by apply deref_app_new.
    assert (El : length (objects w1) = S (length (objects w)))
      by (unfold w1; cbn [with_objects objects]; rewrite length_app;
          cbn [length]; lia).
    rewrite Ed, El in Hsim.
    specialize (Hsim ltac:(lia) ltac:(lia)).
    destruct (build_row matrix _ _ _ _ _ _ _ _ s) as [a1 s' | e s' |],
      (build_row_heap _ _ _ _ _ _ _ _ _ w1) as [a2 w' | e' w' |];
      unfold sim, loop_rel in Hsim; try contradiction; simpl.
    + destruct Hsim as [Hun Hm].
      assert (Hun' : unchanged_except (fun r => r = rows) w w')
        by (eapply unchanged_except_trans; eassumption).
      destruct a1 as [v |], a2 as [hv |]; try contradiction; simpl.
      * destruct Hm. split; [assumption | split; assumption].
      * split; [exact I | split; assumption].
    + destruct Hsim as [-> [Hun Hm]]. split; [reflexivity |].
      split; [| assumption].
      eapply unchanged_except_trans; eassumption.
    + exact I.
Qed.

Lemma skipn_length_app {A : Type} (l l' : list A) :
  skipn (length l) (l ++ l') = l'.
Proof.
  induction l as [| a l IH]; simpl; [reflexivity | assumption].
Qed.

Lemma firstn_length_app {A : Type} (l l' : list A) :
  firstn (length l) (l ++ l') = l.
Proof.
  induction l as [| a l IH]; simpl; [reflexivity | now rewrite IH].
Qed.

(** A run of [find_minimal_hadamard] over the store stands to the run over
    values with the two readings of its clock. *)
Lemma find_minimal_hadamard_heap_sim {float : Type} (n : Z)
    (w : world float) :
  sim (fun v s' hv w' =>
         same_result v (matrix s') hv w' /\ same_effects w s' w')
    (fun s' w' => same_effects w s' w')
    (find_minimal_hadamard n (clock w (now w)) (clock w (S (now w)))
       initial)
    (find_minimal_hadamard_heap n w).
Proof.
  unfold find_minimal_hadamard, find_minimal_hadamard_heap.
  destruct (first_row n) as [row |].
  2:{ split; [reflexivity |]. unfold same_effects. simpl.
      rewrite app_nil_r.
      split; [reflexivity | split;
        [apply unchanged_except_refl | reflexivity]]. }
  unfold bind, list_new, perf_counter.
  cbn [with_objects objects clock now printed initial stdout].
  set (s1 := @mkState float [row] []).
  set (w1 := mkWorld (objects w ++ [[row]]) (clock w) (S (now w))
               (printed w)).
  assert (Hrel : rows_rel (length (objects w)) s1 w1 s1 w1).
  { unfold rows_rel, w1, s1. cbn [objects clock now printed matrix].
    rewrite deref_app_new, length_app. cbn [length].
    repeat split; lia. }
  pose proof (backtrack_heap_sim n (length (objects w)) s1 w1
                (S (Z.to_nat (size n))) _ _ Hrel) as Hsim.
  assert (Hframe : forall w',
    unchanged_except (fun r => r = length (objects w)) w1 w' ->
    unchanged_except (fun _ => False) w w').
  { intros w' [Hl Hun]. unfold w1 in Hl, Hun.
    cbn [objects] in Hl, Hun. rewrite length_app in Hl, Hun.
    cbn [length] in Hl, Hun. split; [lia |].
    intros r Hr _. rewrite Hun by lia. now apply deref_app_old. }
  destruct (backtrack n _ s1) as [v s' | e s' |],
    (backtrack_heap n _ _ w1) as [hv w' | e' w' |];
    unfold sim in Hsim; try contradiction.
  - destruct Hsim as (Hv & Hun & (E & Hr & Hc & Hn & Hp & Hs)).
    unfold print, print_line, ret, sim. rewrite Hc, Hn.
    cbn [w1 s1 clock now matrix stdout] in *.
    split.
    + destruct v, hv; simpl in *; try contradiction; [exact I |].
      now subst r.
    + unfold same_effects. cbn [printed stdout clock objects].
      rewrite Hp, Hs. cbn [printed].
      split; [reflexivity | split; [| reflexivity]].
      destruct (Hframe _ Hun) as [Hl Hk]. split; assumption.
  - destruct Hsim as (-> & Hun & (E & Hr & Hc & Hn & Hp & Hs)).
    split; [reflexivity |]. unfold same_effects.
    cbn [w1 s1 clock now matrix stdout printed] in *.
    rewrite Hp, Hs, app_nil_r.
    split; [reflexivity | split; [now apply Hframe | assumption]].
  - exact I.
Qed.

Lemma print_rows_heap_spec {float : Type} (n : Z) (rows : list Z) :
  forall (i : Z) (w : world float),
    print_rows_heap n i rows w =
    Normal tt
      (mkWorld (objects w) (clock w) (now w)
         (printed w ++ row_lines i (map (expand_row (m n)) rows))).
Proof.
  induction rows as [| row rows IH]; intros i w; simpl.
  - unfold ret. rewrite app_nil_r. now destruct w.
  - rewrite row_list_spec. unfold bind, print_line. rewrite IH.
    cbn [objects clock now printed]. now rewrite <- app_assoc.
Qed.

Lemma main_heap_sim {float : Type} (n : Z) (w : world float) :
  sim (fun _ s' _ w' => same_effects w s' w')
    (fun s' w' => same_effects w s' w')
    (main n (clock w (now w)) (clock w (S (now w))) initial)
    (main_heap n w).
Proof.
  unfold main, main_heap, bind.
  pose proof (find_minimal_hadamard_heap_sim n w) as Hsim.
  destruct (find_minimal_hadamard n _ _ initial) as [v s' | e s' |],
    (find_minimal_hadamard_heap n w) as [hv w' | e' w' |];
    unfold sim in Hsim |- *; try contradiction; try assumption.
  destruct Hsim as [Hv (Hp & Hun & Hc)].
  destruct v, hv; simpl in Hv; try contradiction; simpl.
  - split; [assumption | split; assumption].
  - rewrite Hv. destruct (matrix s') as [| x l] eqn:Em.
    + split; [assumption | split; assumption].
    + unfold print_hadamard_01, print_hadamard_01_heap, bind, print,
        print_line.
      cbn [objects matrix]. rewrite Hv.
      rewrite print_rows_spec, print_rows_heap_spec.
      unfold same_effects. cbn [objects clock now printed matrix stdout].
      rewrite Hp, Em, <- !app_assoc.
      split; [reflexivity | split; assumption].
Qed.

(** ** Runs that differ in the clock and in the store *)

(** Over values, the clock readings show on the elapsed-time line only. *)
Lemma search_observe {float : Type} (n : Z)
    (start_time end_time start_time' end_time' : float) :
  observe (find_minimal_hadamard n start_time end_time initial)
  = observe (find_minimal_hadamard n start_time' end_time' initial) /\
  observe (main n start_time end_time initial)
  = observe (main n start_time' end_time' initial).
Proof.
  unfold main, find_minimal_hadamard, bind.
  destruct (first_row n) as [row |]; [| split; reflexivity].
  cbn [initial stdout].
  destruct (backtrack n (S (Z.to_nat (size n))) (mkState [row] []))
    as [[|] s1 | e s1 |]; cbn [print ret truthy matrix stdout observe];
    rewrite ?map_app; try (split; reflexivity).
  split; [reflexivity |].
  destruct (matrix s1) eqn:Em; cbn [observe matrix stdout];
    rewrite ?map_app; [reflexivity |].
  rewrite !print_hadamard_01_spec. cbn [observe matrix stdout].
  rewrite !map_app, !untimed_row_lines. reflexivity.
Qed.

Lemma same_effects_extends {float A : Type} (w : world float)
    (s' : state float) (w' : world float) (a : A) :
  same_effects w s' w' ->
  extends w (Normal a w') /\
  map untimed (skipn (length (printed w)) (printed w'))
  = map untimed (stdout s').
Proof.
  intros (Hp & Hun & Hc). unfold extends. rewrite Hp.
  rewrite firstn_length_app, skipn_length_app.
  split; [split; [assumption | split; [assumption | reflexivity]]
         | reflexivity].
Qed.

(** What a run over the store shows is what the run over values with its
    clock readings shows. *)
Lemma find_minimal_hadamard_heap_observe {float : Type} (n : Z)
    (w : world float) :
  extends w (find_minimal_hadamard_heap n w) /\
  observe_heap contents w (find_minimal_hadamard_heap n w)
  = seen value_contents
      (observe (find_minimal_hadamard n (clock w (now w))
                  (clock w (S (now w))) initial)).
Proof.
  pose proof (find_minimal_hadamard_heap_sim n w) as Hsim.
  destruct (find_minimal_hadamard n _ _ initial) as [v s' | e s' |],
    (find_minimal_hadamard_heap n w) as [hv w' | e' w' |];
    unfold sim in Hsim; try contradiction.
  - destruct Hsim as [Hv He].
    destruct (same_effects_extends w s' w' tt He) as [Hx Hl].
    split; [exact Hx |].
    unfold observe_heap, observe, seen. cbn [fst snd]. rewrite Hl.
    f_equal. destruct v, hv; simpl in Hv; try contradiction;
      [reflexivity |].
    simpl. now rewrite Hv.
  - destruct Hsim as [-> He].
    destruct (same_effects_extends w s' w' tt He) as [Hx Hl].
    split; [exact Hx |].
    unfold observe_heap, observe, seen. cbn [fst snd]. now rewrite Hl.
  - split; [exact I | reflexivity].
Qed.

Lemma main_heap_observe {float : Type} (n : Z) (w : world float) :
  extends w (main_heap n w) /\
  observe_heap (fun _ _ => tt) w (main_heap n w)
  = seen (fun _ _ => tt)
      (observe (main n (clock w (now w)) (clock w (S (now w))) initial)).
Proof.
  pose proof (main_heap_sim n w) as Hsim.
  destruct (main n _ _ initial) as [v s' | e s' |],
    (main_heap n w) as [hv w' | e' w' |];
    unfold sim in Hsim; try contradiction.
  - destruct (same_effects_extends w s' w' tt Hsim) as [Hx Hl].
    split; [exact Hx |].
    unfold observe_heap, observe, seen. cbn [fst snd]. now rewrite Hl.
  - destruct Hsim as [-> He].
    destruct (same_effects_extends w s' w' tt He) as [Hx Hl].
    split; [exact Hx |].
    unfold observe_heap, observe, seen. cbn [fst snd]. now rewrite Hl.
  - split; [exact I | reflexivity].
Qed.

(** C7.  The search is deterministic.  The lists are objects of a store
    here, and [build_row] writes to it: each branch makes a list
    [new_overlaps] and appends to it.  A run of [list(build_row(...))] on
    two lists of the store leaves every object that was there as it was,
    [prev_rows] and [overlaps_needed] among them, reads no clock and
    prints nothing; the sequence it yields is a function of the arguments
    and of the elements of the two lists alone, so that a second run after
    the first, in the store the first has left, yields the same sequence.
    Two runs of [find_minimal_hadamard], and of the script, for the same
    [n], started with any two stores, clocks and earlier output, end the
    same way, return lists of the same elements (or both [None]) and print
    the same lines, except for the value shown on the elapsed-time line;
    they too leave the objects that were there as they were. *)
Theorem search_deterministic {float : Type} :
  (forall fuel bit_index ones_left current_row prev_rows overlaps_needed
          m n (w : world float),
     (prev_rows < length (objects w))%nat ->
     (overlaps_needed < length (objects w))%nat ->
     untouched w
       (build_row_list_heap fuel bit_index ones_left current_row
          prev_rows overlaps_needed m n w) /\
     yields (build_row_list_heap fuel bit_index ones_left current_row
               prev_rows overlaps_needed m n w)
     = build_row_list fuel bit_index ones_left current_row
         (deref (objects w) prev_rows)
         (deref (objects w) overlaps_needed) m n /\
     yields ((let! _ := build_row_list_heap fuel bit_index ones_left
                          current_row prev_rows overlaps_needed m n in
              build_row_list_heap fuel bit_index ones_left current_row
                prev_rows overlaps_needed m n) w)
     = yields (build_row_list_heap fuel bit_index ones_left current_row
                 prev_rows overlaps_needed m n w)) /\
  (forall n (w1 w2 : world float),
     extends w1 (find_minimal_hadamard_heap n w1) /\
     extends w1 (main_heap n w1) /\
     observe_heap contents w1 (find_minimal_hadamard_heap n w1)
     = observe_heap contents w2 (find_minimal_hadamard_heap n w2) /\
     observe_heap (fun _ _ => tt) w1 (main_heap n w1)
     = observe_heap (fun _ _ => tt) w2 (main_heap n w2)).
Proof.
  split.
  - intros fuel bi k cur prev ov m n w Hp Ho.
    destruct (build_row_list_heap_sim fuel bi k cur prev ov m n w Hp Ho)
      as [Hy Hu].
    split; [exact Hu | split; [exact Hy |]].
    unfold bind.
    destruct (build_row_list_heap fuel bi k cur prev ov m n w)
      as [out w' | e w' |] eqn:E; try reflexivity.
    destruct Hu as ([Hl Hun] & _).
    destruct (build_row_list_heap_sim fuel bi k cur prev ov m n w'
                ltac:(lia) ltac:(lia)) as [Hy' _].
    rewrite Hy', !Hun by (try assumption; tauto).
    now rewrite <- Hy.
  - intros n w1 w2.
    destruct (find_minimal_hadamard_heap_observe n w1) as [Hx1 Hf1].
    destruct (find_minimal_hadamard_heap_observe n w2) as [_ Hf2].
    destruct (main_heap_observe n w1) as [Hm1 Ho1].
    destruct (main_heap_observe n w2) as [_ Ho2].
    destruct (search_observe n (clock w1 (now w1)) (clock w1 (S (now w1)))
                (clock w2 (now w2)) (clock w2 (S (now w2)))) as [Ef Em].
    split; [exact Hx1 | split; [exact Hm1 | split]].
    + now rewrite Hf1, Hf2, Ef.
    + now rewrite Ho1, Ho2, Em.
Qed.

(** The generator run twice on the lists [[112; 7]] and [[1; 1]] of a
    store, and the script run for [n = 1] from two worlds that differ in
    the lists they hold, the clock and the lines printed before. *)
Lemma search_deterministic_witness :
  yields ((let! _ := build_row_list_heap 8 0 3 0 0%nat 1%nat 7 2 in
           build_row_list_heap 8 0 3 0 0%nat 1%nat 7 2)
            (mkWorld [[112; 7]; [1; 1]] (fun _ => tt) 0%nat []))
  = Normal [76; 74; 73; 44; 42; 41; 28; 26; 25] tt /\
  observe_heap (fun _ _ => tt) (mkWorld [] Z.of_nat 0%nat [])
    (main_heap 1 (mkWorld [] Z.of_nat 0%nat []))
  = observe_heap (fun _ _ => tt)
      (mkWorld [[5]; [6; 7]] (fun i => 10 - Z.of_nat i) 3%nat
         [RowLine 9 [1]])
      (main_heap 1
         (mkWorld [[5]; [6; 7]] (fun i => 10 - Z.of_nat i) 3%nat
            [RowLine 9 [1]])).
Proof.
  split.
  - destruct (proj1 (@search_deterministic unit) 8%nat 0 3 0 0%nat 1%nat
                7 2 (mkWorld [[112; 7]; [1; 1]] (fun _ => tt) 0%nat []))
      as (_ & E1 & E2); [simpl; lia | simpl; lia |].
    rewrite E2, E1. vm_compute. reflexivity.
  - apply (proj2 (@search_deterministic Z) 1
             (mkWorld [] Z.of_nat 0%nat [])
             (mkWorld [[5]; [6; 7]] (fun i => 10 - Z.of_nat i) 3%nat
                [RowLine 9 [1]])).
Defined.

(** The search for [n = 2], run: a design of seven rows of seven bits. *)
Example order_eight_design :
  find_minimal_hadamard 2 tt tt initial
  = Normal MatrixRef
      (mkState [112; 76; 67; 42; 37; 25; 22] [ElapsedLine tt tt]).
Proof. vm_compute. reflexivity. Qed.

(** * Further properties of the code *)

(** ** The list grows at its end only *)

Lemma backtrack_appends {float : Type} (n : Z) (fuel : nat) :
  forall s s' : state float,
    backtrack n fuel s = Normal MatrixRef s' ->
    exists ext, matrix s' = matrix s ++ ext /\ stdout s' = stdout s.
Proof.
  induction fuel as [| fuel IH]; intros s s'; cbn [backtrack];
    [discriminate |].
  destruct (Z.of_nat (length (matrix s)) =? size n - 1).
  { intros [= <-]. exists []. now rewrite app_nil_r. }
  unfold bind.
  pose proof (build_row_rule matrix (loop_body (backtrack n fuel))
                (fun t => t = s)
                (fun r t => exists ext, matrix t = matrix s ++ ext
                                        /\ stdout t = stdout s)) as Hrule.
  match goal with
  | |- match ?X with _ => _ end = _ -> _ =>
      assert (H : loop_post (fun t => t = s)
                    (fun r t => exists ext, matrix t = matrix s ++ ext
                                            /\ stdout t = stdout s) X)
  end.
  { apply Hrule; [| reflexivity].
    intros c t ->.
    pose proof (loop_body_rule (backtrack n fuel) c s
                  (backtrack_undoes_appends n fuel)) as Hb.
    destruct (loop_body (backtrack n fuel) c s) as [[r |] t | e t |];
      simpl in *; try tauto.
    destruct Hb as [_ Hb]. apply IH in Hb as (ext & Hm & Ho).
    cbn [matrix stdout] in Hm, Ho.
    exists (c :: ext). rewrite Hm, <- app_assoc. now split. }
  match goal with
  | |- match ?X with _ => _ end = _ -> _ =>
      destruct X as [[r |] t | e t |]
  end; simpl in H; unfold ret; try discriminate.
  intros [= -> <-]. exact H.
Qed.

(** ** The search is complete and finds the greatest design *)

Lemma ordpairs_app_l {A : Type} (R : A -> A -> Prop) (l1 l2 : list A) :
  ForallOrdPairs R (l1 ++ l2) -> ForallOrdPairs R l1.
Proof.
  induction l1 as [| a l1 IH]; simpl; intros H; [constructor |].
  inversion H as [| a' l' Ha Hl]; subst. constructor.
  - apply Forall_app in Ha. tauto.
  - now apply IH.
Qed.

Lemma ordpairs_before {A : Type} (R : A -> A -> Prop) (l1 l2 : list A)
    (c : A) :
  ForallOrdPairs R (l1 ++ c :: l2) -> Forall (fun p => R p c) l1.
Proof.
  induction l1 as [| a l1 IH]; simpl; intros H; [constructor |].
  inversion H as [| a' l' Ha Hl]; subst. constructor.
  - rewrite Forall_forall in Ha. apply Ha.
    apply in_app_iff. right. now left.
  - now apply IH.
Qed.

Lemma partial_design_app_l (n : Z) (l1 l2 : list Z) :
  partial_design n (l1 ++ l2) -> partial_design n l1.
Proof.
  intros [Hok Hpairs]. split.
  - apply Forall_app in Hok. tauto.
  - eapply ordpairs_app_l. eassumption.
Qed.

Lemma next_row_is_candidate (n : Z) (rows ext : list Z) (c : Z) :
  0 <= m n ->
  partial_design n (rows ++ c :: ext) ->
  In c (completions (Z.to_nat (m n)) (total_ones n) rows
          (repeat (n - 1) (length rows))).
Proof.
  intros Hm [Hok Hpairs].
  apply completions_valid; [now rewrite repeat_length |].
  apply Forall_app in Hok as [_ Hok].
  apply Forall_cons_iff in Hok as [[Hc Hpc] _].
  unfold valid. rewrite Z2Nat.id by assumption.
  split; [assumption | split; [assumption |]].
  rewrite combine_repeat, Forall_map. simpl.
  exact (ordpairs_before _ _ _ _ Hpairs).
Qed.

Lemma for_each_search {St R : Type} (body : Z -> M St (option R)) (s : St)
    (l : list Z) (c2 : Z) :
  StronglySorted Z.gt l ->
  (forall c, In c l ->
     body c s = Normal None s \/ exists r t, body c s = Normal (Some r) t) ->
  In c2 l ->
  (exists r t, body c2 s = Normal (Some r) t) ->
  exists c r t,
    In c l /\ c >= c2 /\ body c s = Normal (Some r) t /\
    for_each body l s = Normal (Some r) t.
Proof.
  intros Hs. induction Hs as [| a l Hs IH Ha]; intros Hdich Hin Hc2;
    [destruct Hin |].
  destruct (Hdich a (or_introl eq_refl)) as [Hn | (r & t & Hsome)].
  - destruct Hin as [-> | Hin].
    { destruct Hc2 as (r & t & Hc2). rewrite Hn in Hc2. discriminate. }
    destruct IH as (c & r & t & Hc & Hge & Hb & Hf); try assumption.
    { intros c Hc. apply Hdich. now right. }
    exists c, r, t. repeat split; try assumption; [now right |].
    simpl. now rewrite Hn.
  - exists a, r, t. repeat split; try assumption; [now left | |].
    + destruct Hin as [-> | Hin]; [lia |].
      rewrite Forall_forall in Ha. specialize (Ha _ Hin). lia.
    + simpl. now rewrite Hsome.
Qed.

Section Greatest.

Context {float : Type}.
Variable n : Z.
Hypothesis Hn : 1 <= n.

Lemma loop_body_step (fuel : nat) (s : state float) (c : Z) :
  partial_design n (matrix s) ->
  Z.of_nat (length (matrix s)) < size n - 1 ->
  size n - 1 - Z.of_nat (length (matrix s)) < Z.of_nat (S fuel) ->
  In c (completions (Z.to_nat (m n)) (total_ones n) (matrix s)
          (repeat (n - 1) (length (matrix s)))) ->
  let s1 := mkState (matrix s ++ [c]) (stdout s) in
  (backtrack n fuel s1 = Normal PyNone s1 /\
   loop_body (backtrack n fuel) c s = Normal None s) \/
  (exists t,
     backtrack n fuel s1 = Normal MatrixRef t /\
     loop_body (backtrack n fuel) c s = Normal (Some MatrixRef) t).
Proof.
  intros Hdes Hlen Hfuel Hin s1.
  assert (Hm : 0 <= m n) by (unfold m, size; lia).
  pose proof (candidate_extends n _ c Hm Hdes Hin) as Hext.
  pose proof (backtrack_total n fuel s1 Hn) as Ht.
  unfold s1 in Ht. cbn [matrix stdout] in Ht.
  rewrite length_app in Ht. cbn [length] in Ht.
  specialize (Ht Hext ltac:(lia) ltac:(lia)). fold s1 in Ht.
  unfold loop_body, bind, append. fold s1.
  destruct (backtrack n fuel s1) as [[|] t | e t |]; try contradiction.
  - left. subst t. split; [reflexivity |].
    cbn [truthy]. unfold s1. rewrite pop_append. reflexivity.
  - right. exists t. split; [reflexivity |].
    destruct Ht as (_ & _ & Hl). cbn [truthy].
    destruct (matrix t); [| reflexivity].
    simpl in Hl. unfold size in Hl. lia.
Qed.

Theorem backtrack_greatest (fuel : nat) :
  forall (s : state float) (ext2 : list Z),
    partial_design n (matrix s ++ ext2) ->
    Z.of_nat (length (matrix s ++ ext2)) = size n - 1 ->
    size n - 1 - Z.of_nat (length (matrix s)) < Z.of_nat fuel ->
    exists s' ext,
      backtrack n fuel s = Normal MatrixRef s' /\
      matrix s' = matrix s ++ ext /\
      stdout s' = stdout s /\
      lex_ge ext ext2.
Proof.
  induction fuel as [| fuel IH]; intros s ext2 Hdes Hfull Hfuel.
  { rewrite length_app in Hfull. lia. }
  assert (Hm : 0 <= m n) by (unfold m, size; lia).
  cbn [backtrack].
  destruct (Z.eqb_spec (Z.of_nat (length (matrix s))) (size n - 1))
    as [E | E].
  { rewrite length_app in Hfull.
    assert (ext2 = []) as ->
      by (destruct ext2; [reflexivity | simpl in *; lia]).
    exists s, []. rewrite app_nil_r. repeat split. constructor. }
  destruct ext2 as [| c2 e2].
  { rewrite app_nil_r in Hfull. contradiction. }
  assert (Hlen : Z.of_nat (length (matrix s)) < size n - 1).
  { rewrite length_app in Hfull. simpl in Hfull. lia. }
  pose proof (partial_design_app_l n _ _ Hdes) as Hs.
  unfold bind.
  rewrite (build_row_top matrix _ (matrix s)); try reflexivity;
    try assumption.
  2:{ intros c t t' _ Ht Hb.
      pose proof (loop_body_rule (backtrack n fuel) c t
                    (backtrack_undoes_appends n fuel)) as Hr.
      rewrite Hb in Hr. simpl in Hr. now subst. }
  set (l := completions (Z.to_nat (m n)) (total_ones n) (matrix s)
              (repeat (n - 1) (length (matrix s)))).
  assert (Hc2 : In c2 l) by (eapply next_row_is_candidate; eassumption).
  (* the recursive call on the row that the other design has next *)
  destruct (IH (mkState (matrix s ++ [c2]) (stdout s)) e2)
    as (s2 & x2 & Hb2 & Hm2 & Ho2 & Hlex2).
  { cbn [matrix]. now rewrite <- app_assoc. }
  { cbn [matrix]. now rewrite <- app_assoc. }
  { cbn [matrix]. rewrite length_app. simpl. lia. }
  cbn [matrix stdout] in Hm2, Ho2.
  destruct (for_each_search (loop_body (backtrack n fuel)) s l c2)
    as (c & r & t & Hc & Hge & Hbody & Hfor).
  - apply completions_sorted.
  - intros c Hc.
    destruct (loop_body_step fuel s c Hs Hlen Hfuel Hc)
      as [[_ H] | (t & _ & H)]; [now left | right; eauto].
  - exact Hc2.
  - destruct (loop_body_step fuel s c2 Hs Hlen Hfuel Hc2)
      as [[H _] | (t & _ & H)]; [| eauto].
    rewrite Hb2 in H. discriminate.
  - fold l. rewrite Hfor.
    destruct (loop_body_step fuel s c Hs Hlen Hfuel Hc)
      as [[_ H] | (t' & Hbt & H)]; rewrite Hbody in H; [discriminate |].
    injection H as -> ->. unfold ret.
    destruct (Z.eq_dec c c2) as [-> | Hne].
    + rewrite Hb2 in Hbt. injection Hbt as ->.
      exists t', (c2 :: x2). rewrite Hm2, <- app_assoc.
      repeat split; try assumption. now constructor.
    + apply backtrack_appends in Hbt as (x & Hx & Ho).
      cbn [matrix stdout] in Hx, Ho.
      exists t', (c :: x). rewrite Hx, <- app_assoc.
      repeat split; try assumption. apply lex_ge_head. lia.
Qed.

End Greatest.

Lemma find_minimal_hadamard_greatest {float : Type} (n : Z)
    (start_time end_time : float) (s : state float) (row : Z)
    (rest : list Z) :
  1 <= n ->
  first_row n = Some row ->
  design n (row :: rest) ->
  exists s' rest',
    find_minimal_hadamard n start_time end_time s = Normal MatrixRef s' /\
    matrix s' = row :: rest' /\
    lex_ge rest' rest.
Proof.
  intros Hn Hrow [Hdes Hlen]. unfold find_minimal_hadamard. rewrite Hrow.
  destruct (backtrack_greatest n Hn (S (Z.to_nat (size n)))
              (mkState [row] (stdout s)) rest)
    as (s1 & ext & Hbt & Hm & _ & Hlex).
  - exact Hdes.
  - exact Hlen.
  - cbn [matrix length]. unfold size. lia.
  - unfold bind. rewrite Hbt. cbn [print ret matrix].
    eexists. exists ext. split; [reflexivity |]. split; assumption.
Qed.

Lemma design_4_1_2 : design 1 [4; 1; 2].
Proof.
  split; [split |]; [| | reflexivity].
  - repeat (constructor; [split; [cbv; intuition discriminate
                                 | reflexivity] |]).
    constructor.
  - repeat (constructor; [repeat (constructor; [reflexivity |]);
                          constructor |]).
    constructor.
Qed.

(** X1.  The search is complete: for [n >= 1], if any design at all begins
    with the first row, [find_minimal_hadamard(n)] does not return [None]
    but a list. *)
Theorem search_complete {float : Type} (n : Z)
    (start_time end_time : float) (s : state float) (row : Z)
    (rest : list Z) :
  1 <= n ->
  first_row n = Some row ->
  design n (row :: rest) ->
  exists s',
    find_minimal_hadamard n start_time end_time s = Normal MatrixRef s'.
Proof.
  intros Hn Hrow Hdes.
  destruct (find_minimal_hadamard_greatest n start_time end_time s row rest
              Hn Hrow Hdes) as (s' & _ & H & _).
  now exists s'.
Qed.

Lemma search_complete_witness :
  exists s',
    find_minimal_hadamard 1 tt tt (@initial unit) = Normal MatrixRef s'.
Proof.
  apply (search_complete 1 tt tt initial 4 [1; 2]).
  - lia.
  - reflexivity.
  - exact design_4_1_2.
Defined.

(** X2.  The list found is the greatest: for [n >= 1] it begins with the
    first row, and its other rows, compared in order and as integers with
    any design that begins with the first row, are lexicographically
    greater or the same. *)
Theorem search_greatest {float : Type} (n : Z)
    (start_time end_time : float) (s s' : state float) (row : Z)
    (rest : list Z) :
  1 <= n ->
  find_minimal_hadamard n start_time end_time s = Normal MatrixRef s' ->
  first_row n = Some row ->
  design n (row :: rest) ->
  exists rest', matrix s' = row :: rest' /\ lex_ge rest' rest.
Proof.
  intros Hn Hfind Hrow Hdes.
  destruct (find_minimal_hadamard_greatest n start_time end_time s row rest
              Hn Hrow Hdes) as (s1 & rest' & H & Hm & Hlex).
  rewrite Hfind in H. injection H as <-.
  now exists rest'.
Qed.

Lemma search_greatest_witness :
  exists rest', [4; 2; 1] = 4 :: rest' /\ lex_ge rest' [1; 2].
Proof.
  apply (search_greatest 1 tt tt initial
           (mkState [4; 2; 1] [ElapsedLine tt tt]) 4 [1; 2]).
  - lia.
  - reflexivity.
  - reflexivity.
  - exact design_4_1_2.
Defined.

(** X3.  For every [n] and every list: when [backtrack(rows)] returns the
    list, the rows it held at entry are still there, in place, as a prefix
    (rows are only added at the end), and nothing was printed. *)
Theorem backtrack_keeps_prefix {float : Type} (n : Z) (fuel : nat)
    (s s' : state float) :
  backtrack n fuel s = Normal MatrixRef s' ->
  exists added, matrix s' = matrix s ++ added /\ stdout s' = stdout s.
Proof.
  apply backtrack_appends.
Qed.

Lemma backtrack_keeps_prefix_witness :
  exists added,
    [4; 2; 1] = [4; 2] ++ added /\ @nil (line unit) = [].
Proof.
  apply (backtrack_keeps_prefix 1 3 (mkState [4; 2] [])
           (mkState [4; 2; 1] [])).
  reflexivity.
Defined.

(** ** The rows found are distinct and descend *)

Lemma partial_design_nodup (n : Z) (rows : list Z) :
  1 <= n -> partial_design n rows -> NoDup rows.
Proof.
  intros Hn [Hok Hpairs].
  induction Hpairs as [| a l Ha Hl IH]; constructor.
  - intros Hin. rewrite Forall_forall in Ha. specialize (Ha a Hin).
    apply Forall_cons_iff in Hok as [[_ Hpc] _].
    unfold overlap_ok in Ha. rewrite Z.land_diag, Hpc in Ha.
    unfold total_ones in Ha. lia.
  - apply IH. now apply Forall_cons_iff in Hok.
Qed.

Lemma popcount_greatest (d : nat) (x : Z) :
  0 <= x < 2 ^ Z.of_nat d ->
  x <= 2 ^ Z.of_nat d - 2 ^ (Z.of_nat d - popcount x).
Proof.
  revert x. induction d as [| d IH]; intros x Hx.
  - simpl in Hx. assert (x = 0) as -> by lia. simpl. lia.
  - rewrite Nat2Z.inj_succ, Z.pow_succ_r in * by lia.
    destruct (Z.lt_ge_cases x (2 ^ Z.of_nat d)) as [Hlow | Hhigh].
    + pose proof (popcount_bounds d x ltac:(lia)) as Hb.
      specialize (IH x ltac:(lia)).
      replace (Z.succ (Z.of_nat d) - popcount x)
        with (Z.succ (Z.of_nat d - popcount x)) by lia.
      rewrite Z.pow_succ_r by lia. lia.
    + set (y := x - 2 ^ Z.of_nat d).
      assert (Hy : 0 <= y < 2 ^ Z.of_nat d) by (unfold y; lia).
      assert (Ex : x = 2 ^ Z.of_nat d + y) by (unfold y; lia).
      specialize (IH y Hy).
      rewrite Ex at 2. rewrite popcount_high_bit by assumption.
      replace (Z.succ (Z.of_nat d) - (1 + popcount y))
        with (Z.of_nat d - popcount y) by lia.
      lia.
Qed.

Lemma row_below_first_row (n c : Z) :
  1 <= n -> row_ok n c -> c <= 2 ^ m n - 2 ^ (2 * n).
Proof.
  intros Hn [Hc Hpc].
  assert (Hm : m n = Z.of_nat (Z.to_nat (m n))) by (unfold m, size; lia).
  rewrite Hm in Hc.
  pose proof (popcount_greatest _ c Hc) as H.
  rewrite <- Hm, Hpc in H.
  replace (m n - total_ones n) with (2 * n) in H
    by (unfold m, size, total_ones; lia).
  exact H.
Qed.

Lemma ordpairs_swap {A : Type} (R : A -> A -> Prop) (l1 l2 : list A)
    (a b : A) :
  (forall x y, R x y -> R y x) ->
  ForallOrdPairs R (l1 ++ a :: b :: l2) ->
  ForallOrdPairs R (l1 ++ b :: a :: l2).
Proof.
  intros Hsym. induction l1 as [| x l1 IH]; simpl; intros H.
  - inversion H as [| a' l' Ha Hl]; subst.
    inversion Hl as [| b' l'' Hb Hl2]; subst.
    apply Forall_cons_iff in Ha as [Hab Ha].
    repeat constructor; auto.
  - inversion H as [| x' l' Hx Hl]; subst. constructor; [| now apply IH].
    rewrite Forall_app in *. destruct Hx as [Hx1 Hx2].
    apply Forall_cons_iff in Hx2 as [Hxa Hx2].
    apply Forall_cons_iff in Hx2 as [Hxb Hx2].
    split; [assumption |]. repeat constructor; assumption.
Qed.

Lemma design_swap (n : Z) (l1 l2 : list Z) (a b : Z) :
  design n (l1 ++ a :: b :: l2) -> design n (l1 ++ b :: a :: l2).
Proof.
  intros [[Hok Hpairs] Hlen]. split; [split |].
  - rewrite Forall_app in *. destruct Hok as [H1 H2].
    apply Forall_cons_iff in H2 as [Ha H2].
    apply Forall_cons_iff in H2 as [Hb H2].
    split; [assumption |].
    constructor; [assumption | constructor; assumption].
  - apply ordpairs_swap; [| assumption].
    intros x y. unfold overlap_ok. now rewrite Z.land_comm.
  - rewrite length_app in *. simpl in *. exact Hlen.
Qed.

Lemma lex_ge_app_inv (l x y : list Z) :
  lex_ge (l ++ x) (l ++ y) -> lex_ge x y.
Proof.
  induction l as [| a l IH]; simpl; intros H; [assumption |].
  inversion H; subst; [lia | now apply IH].
Qed.

Lemma adjacent_sorted (l : list Z) :
  (forall l1 a b l2, l = l1 ++ a :: b :: l2 -> a > b) ->
  StronglySorted Z.gt l.
Proof.
  induction l as [| x l IH]; intros Hadj; constructor.
  - apply IH. intros l1 a b l2 ->. apply (Hadj (x :: l1) a b l2).
    reflexivity.
  - destruct l as [| y l]; constructor.
    + apply (Hadj [] x y l). reflexivity.
    + assert (Hs : StronglySorted Z.gt (y :: l)).
      { apply IH. intros l1 a b l2 E. apply (Hadj (x :: l1) a b l2).
        simpl. now rewrite E. }
      apply StronglySorted_inv in Hs as [_ Hy].
      pose proof (Hadj [] x y l eq_refl) as Hxy.
      eapply Forall_impl; [| exact Hy]. intros z Hz. simpl in Hz. lia.
Qed.

Lemma found_design_descends {float : Type} (n : Z)
    (start_time end_time : float) (s s' : state float) :
  1 <= n ->
  find_minimal_hadamard n start_time end_time s = Normal MatrixRef s' ->
  StronglySorted Z.gt (matrix s').
Proof.
  intros Hn Hfind.
  pose proof (find_minimal_hadamard_total n start_time end_time s Hn) as H.
  rewrite Hfind in H. destruct H as (_ & Hdes & Hlen).
  pose proof (first_row_value n Hn) as Hrow.
  assert (Hself : design n (matrix s')) by (split; assumption).
  pose proof (partial_design_nodup n _ Hn Hdes) as Hnd.
  (* the list begins with the first row *)
  destruct (matrix s') as [| row0 rest] eqn:Em.
  { simpl in Hlen. unfold size in Hlen. lia. }
  assert (E0 : row0 = 2 ^ m n - 2 ^ (2 * n)).
  { unfold find_minimal_hadamard in Hfind. rewrite Hrow in Hfind.
    unfold bind in Hfind.
    destruct (backtrack n _ _) as [[|] s1 | e s1 |] eqn:Ebt;
      cbn [print ret] in Hfind; try discriminate.
    apply backtrack_appends in Ebt as (ext & Hx & _).
    injection Hfind as <-. cbn [matrix] in Em, Hx.
    rewrite Hx in Em. now injection Em. }
  subst row0.
  apply adjacent_sorted. intros l1 a b l2 E.
  destruct l1 as [| x l1]; cbn [app] in E.
  - (* the first row and the second *)
    assert (Ex : 2 ^ m n - 2 ^ (2 * n) = a) by congruence.
    assert (Er : rest = b :: l2) by congruence.
    clear E. subst a rest.
    assert (Hb : row_ok n b).
    { destruct Hdes as [Hok _]. apply Forall_cons_iff in Hok as [_ Hok].
      now apply Forall_cons_iff in Hok. }
    pose proof (row_below_first_row n b Hn Hb) as Hle.
    apply NoDup_cons_iff in Hnd as [Hnot _].
    assert (b <> 2 ^ m n - 2 ^ (2 * n)).
    { intros Eb. apply Hnot. rewrite Eb. now left. }
    lia.
  - (* two later rows: were they ascending, swapping them would give a
       greater design *)
    assert (Ex : 2 ^ m n - 2 ^ (2 * n) = x) by congruence.
    assert (Er : rest = l1 ++ a :: b :: l2) by congruence.
    clear E. subst x rest.
    destruct (Z.lt_trichotomy a b) as [Hlt | [Heq | Hgt]]; [| | lia].
    + exfalso.
      pose proof (design_swap n ((2 ^ m n - 2 ^ (2 * n)) :: l1) l2 a b Hself)
        as Hswap.
      cbn [app] in Hswap.
      destruct (find_minimal_hadamard_greatest n start_time end_time s _ _
                  Hn Hrow Hswap) as (s1 & rest' & Hf & Hm1 & Hlex).
      rewrite Hfind in Hf. injection Hf as <-.
      rewrite Em in Hm1. injection Hm1 as <-.
      apply lex_ge_app_inv in Hlex.
      inversion Hlex; subst; lia.
    + exfalso. subst b.
      apply NoDup_cons_iff in Hnd as [_ Hnd].
      apply NoDup_remove_2 in Hnd. apply Hnd.
      apply in_app_iff. right. now left.
Qed.

(** X4.  For [n >= 1] the rows of the list found are pairwise distinct. *)
Theorem found_rows_distinct {float : Type} (n : Z)
    (start_time end_time : float) (s s' : state float) :
  1 <= n ->
  find_minimal_hadamard n start_time end_time s = Normal MatrixRef s' ->
  NoDup (matrix s').
Proof.
  intros Hn Hfind.
  pose proof (find_minimal_hadamard_total n start_time end_time s Hn) as H.
  rewrite Hfind in H. destruct H as (_ & Hdes & _).
  now apply (partial_design_nodup n).
Qed.

Lemma found_rows_distinct_witness : NoDup [4; 2; 1].
Proof.
  apply (found_rows_distinct 1 tt tt initial
           (mkState [4; 2; 1] [ElapsedLine tt tt])).
  - lia.
  - reflexivity.
Defined.

(** X5.  For [n >= 1] the rows of the list found are in strictly
    descending numeric order: the first row is the greatest row with
    [2n-1] ones, and no two later rows can ascend, since the search tries
    greater candidates first and a design stays a design when two of its
    rows change places. *)
Theorem found_rows_descend {float : Type} (n : Z)
    (start_time end_time : float) (s s' : state float) :
  1 <= n ->
  find_minimal_hadamard n start_time end_time s = Normal MatrixRef s' ->
  StronglySorted Z.gt (matrix s').
Proof.
  apply found_design_descends.
Qed.

Lemma found_rows_descend_witness : StronglySorted Z.gt [4; 2; 1].
Proof.
  apply (found_rows_descend 1 tt tt initial
           (mkState [4; 2; 1] [ElapsedLine tt tt])).
  - lia.
  - reflexivity.
Defined.

(** ** The first row *)

Lemma first_row_shifted_ones (n : Z) :
  1 <= n ->
  2 ^ m n - 2 ^ (2 * n) = Z.shiftl (Z.ones (total_ones n)) (2 * n).
Proof.
  intros Hn. unfold m, size, total_ones.
  rewrite Z.shiftl_mul_pow2, Z.ones_equiv by lia.
  replace (4 * n - 1) with ((2 * n - 1) + 2 * n) by lia.
  rewrite Z.pow_add_r by lia. lia.
Qed.

(** X6.  The first row never fails to be built.  For [n <= 0] it is [0]
    (an empty sum); for [n >= 1] it is below [2^m] and its bit at column
    [j], counted from the most significant of the [m] columns, is set
    exactly when [j < 2n-1]: the leftmost [2n-1] ones. *)
Theorem first_row_leftmost_ones (n : Z) :
  exists row,
    first_row n = Some row /\
    (n <= 0 -> row = 0) /\
    (1 <= n ->
     0 <= row < 2 ^ m n /\
     forall j, 0 <= j < m n ->
       bit_set row (m n - 1 - j) = Some (j <? total_ones n)).
Proof.
  destruct (Z.le_gt_cases n 0) as [Hn | Hn].
  - exists 0. split; [now apply first_row_nonpositive |].
    split; [reflexivity | lia].
  - exists (2 ^ m n - 2 ^ (2 * n)).
    split; [apply first_row_value; lia |]. split; [lia |].
    intros Hn1. split; [apply (first_row_ok n Hn1) |].
    intros j Hj. rewrite bit_set_testbit by lia. f_equal.
    rewrite first_row_shifted_ones by assumption.
    rewrite Z.shiftl_spec by lia.
    rewrite Z.testbit_ones by (unfold total_ones; lia).
    unfold m, size, total_ones in *.
    destruct (Z.leb_spec 0 (4 * n - 1 - 1 - j - 2 * n));
      destruct (Z.ltb_spec (4 * n - 1 - 1 - j - 2 * n) (2 * n - 1));
      destruct (Z.ltb_spec j (2 * n - 1)); simpl; reflexivity || lia.
Qed.

Lemma first_row_leftmost_ones_witness :
  exists row,
    first_row 2 = Some row /\
    0 <= row < 2 ^ m 2 /\
    forall j, 0 <= j < m 2 ->
      bit_set row (m 2 - 1 - j) = Some (j <? total_ones 2).
Proof.
  destruct (first_row_leftmost_ones 2) as (row & Hrow & _ & H).
  exists row. split; [exact Hrow |]. apply H. lia.
Defined.

(** ** What is printed can be read back *)

Lemma bits_succ (d : nat) (r : Z) :
  bits (Z.of_nat (S d)) r
  = bits (Z.of_nat d) (r / 2) ++ [b2z (Z.testbit r 0)].
Proof.
  unfold bits, range. rewrite !Nat2Z.id.
  rewrite seq_S, !map_app. cbn [map Nat.add]. f_equal.
  - apply map_ext_in. intros j Hj.
    apply in_map_iff in Hj as (i & <- & Hi). apply in_seq in Hi.
    replace (Z.of_nat (S d) - 1 - Z.of_nat i)
      with (Z.succ (Z.of_nat d - 1 - Z.of_nat i)) by lia.
    rewrite <- Z.div2_bits by lia. reflexivity.
  - do 3 f_equal. lia.
Qed.

Lemma decode_snoc (l : list Z) (b : Z) :
  decode (l ++ [b]) = 2 * decode l + b.
Proof.
  unfold decode. now rewrite fold_left_app.
Qed.

Lemma decode_bits (d : nat) (r : Z) :
  decode (bits (Z.of_nat d) r) = r mod 2 ^ Z.of_nat d.
Proof.
  revert r. induction d as [| d IH]; intros r.
  - simpl. now rewrite Z.mod_1_r.
  - rewrite bits_succ, decode_snoc, IH.
    rewrite Nat2Z.inj_succ, Z.pow_succ_r by lia.
    rewrite Z.rem_mul_r by lia.
    rewrite Z.bit0_eqb.
    pose proof (Z.mod_pos_bound r 2 eq_refl) as Hb.
    destruct (Z.eqb_spec (r mod 2) 1); cbn [b2z]; lia.
Qed.

(** X7.  For [n >= 1] the list printed for a row is [1] followed by [m]
    binary digits which, read most significant first, give the row back
    modulo [2^m]: a row below [2^m] is printed without loss, and of a wider
    (or negative) one only the [m] lowest bits are shown. *)
Theorem printed_row_reads_back (n row : Z) :
  1 <= n ->
  exists digits,
    row_list n row = Some (1 :: digits) /\
    Z.of_nat (length digits) = m n /\
    decode digits = row mod 2 ^ m n /\
    (0 <= row < 2 ^ m n -> decode digits = row).
Proof.
  intros Hn. exists (bits (m n) row).
  assert (Hm : m n = Z.of_nat (Z.to_nat (m n))) by (unfold m, size; lia).
  split; [apply row_list_spec |].
  split; [rewrite length_bits; lia |].
  assert (E : decode (bits (m n) row) = row mod 2 ^ m n).
  { rewrite Hm at 1. rewrite decode_bits. now rewrite <- Hm. }
  split; [exact E |].
  intros Hrow. rewrite E. now apply Z.mod_small.
Qed.

Lemma printed_row_reads_back_witness :
  exists digits,
    row_list 2 76 = Some (1 :: digits) /\
    Z.of_nat (length digits) = m 2 /\
    decode digits = 76 mod 2 ^ m 2 /\
    (0 <= 76 < 2 ^ m 2 -> decode digits = 76).
Proof.
  apply (printed_row_reads_back 2 76). lia.
Defined.

(** X8.  [print_hadamard_01] checks nothing and never raises: for every
    [n] and every list of integers, design or not, it leaves the list as it
    is and prints one line more than the list has rows, labelled [0], [1],
    ... in order, each with entries [0] or [1] only. *)
Theorem print_hadamard_01_any_rows {float : Type} (n : Z)
    (s : state float) :
  exists lines,
    print_hadamard_01 n MatrixRef s
    = Normal tt (mkState (matrix s) (stdout s ++ lines)) /\
    length lines = S (length (matrix s)) /\
    forall i, (i < length lines)%nat ->
      exists l,
        nth_error lines i = Some (RowLine (Z.of_nat i) l) /\
        Forall (fun e => e = 0 \/ e = 1) l.
Proof.
  exists (row_lines 0 (expand n (matrix s))).
  assert (Hgrid : length (expand n (matrix s)) = S (length (matrix s)))
    by (unfold expand; simpl; now rewrite length_map).
  split; [apply print_hadamard_01_spec |].
  split; [now rewrite row_lines_length |].
  intros i Hi. rewrite row_lines_length in Hi.
  exists (nth i (expand n (matrix s)) []).
  split; [now rewrite row_lines_nth |].
  assert (Hall : Forall (fun r => Forall (fun e => e = 0 \/ e = 1) r)
                   (expand n (matrix s))).
  { unfold expand. constructor; [apply ones_entries |].
    apply Forall_map, Forall_forall. intros r _. unfold expand_row.
    constructor; [now right | apply bits_entries]. }
  rewrite Forall_forall in Hall. apply Hall, nth_In. assumption.
Qed.

(** ** The generator outside its domain and at its edges *)

Lemma scan_past_the_end (bit_index remaining m : Z) (P ov acc : list Z) :
  m - 1 - bit_index < 0 ->
  combine P ov <> [] ->
  set_scan bit_index remaining m P ov acc = ShiftError /\
  clear_scan bit_index remaining m P ov acc = ShiftError.
Proof.
  intros Hd Hne.
  destruct P as [| p P], ov as [| x ov]; simpl in Hne; try contradiction.
  simpl. now rewrite bit_set_negative.
Qed.

Lemma scan_nothing (bit_index remaining m : Z) (P ov acc : list Z) :
  combine P ov = [] ->
  set_scan bit_index remaining m P ov acc = Kept acc /\
  clear_scan bit_index remaining m P ov acc = Kept acc.
Proof.
  intros He.
  destruct P as [| p P], ov as [| x ov]; simpl in He; try discriminate;
    split; reflexivity.
Qed.

Lemma build_row_recurses_forever (fuel : nat) :
  forall (bit_index k cur : Z) (ov : list Z) (m n : Z) (P acc : list Z),
    m < bit_index ->
    k <= 0 ->
    combine P ov = [] ->
    build_row fst collect fuel bit_index k cur ov m n (P, acc) = OutOfFuel.
Proof.
  induction fuel as [| fuel IH]; intros bi k cur ov m n P acc Hbi Hk He;
    cbn [build_row]; [reflexivity |].
  destruct (Z.eqb_spec bi m); [lia |].
  destruct (Z.gtb_spec k 0); [lia |].
  cbn [fst].
  destruct (scan_nothing bi (m - bi) m P ov [] He) as [_ ->].
  apply IH; [lia | assumption |].
  now destruct P.
Qed.

(** X9.  Past the last position ([bit_index > m], as in every call with
    [bit_index >= 0] and [m < 0]) [build_row] never yields.  If a one is left to place, or there is a row
    paired with a requirement, its first step shifts by a negative count
    and raises [ValueError]; otherwise it calls itself without end,
    whatever the depth allowed. *)
Theorem build_row_past_the_end (fuel : nat)
    (bit_index ones_left current_row : Z)
    (prev_rows overlaps_needed : list Z) (m n : Z) :
  m < bit_index ->
  (0 < ones_left \/ combine prev_rows overlaps_needed <> [] ->
   (0 < fuel)%nat ->
   build_row_list fuel bit_index ones_left current_row prev_rows
     overlaps_needed m n = Raise ValueError tt) /\
  (ones_left <= 0 -> combine prev_rows overlaps_needed = [] ->
   build_row_list fuel bit_index ones_left current_row prev_rows
     overlaps_needed m n = OutOfFuel).
Proof.
  intros Hbi. split.
  - intros Hcase Hfuel. destruct fuel as [| fuel]; [lia |].
    unfold build_row_list. cbn [build_row fst].
    destruct (Z.eqb_spec bit_index m); [lia |].
    destruct (Z.gtb_spec ones_left 0) as [Hk | Hk].
    + destruct (combine prev_rows overlaps_needed) eqn:Ec.
      * destruct (scan_nothing bit_index (m - bit_index) m prev_rows
                    overlaps_needed [] Ec) as [-> _].
        unfold py_lshift.
        destruct (Z.ltb_spec (m - 1 - bit_index) 0); [reflexivity | lia].
      * destruct (scan_past_the_end bit_index (m - bit_index) m prev_rows
                    overlaps_needed []) as [-> _];
          [lia | now rewrite Ec | reflexivity].
    + destruct Hcase as [Hpos | Hne]; [lia |]. cbn [fst].
      destruct (scan_past_the_end bit_index (m - bit_index) m prev_rows
                  overlaps_needed []) as [_ ->];
        [lia | assumption | reflexivity].
  - intros Hk He. unfold build_row_list.
    now rewrite build_row_recurses_forever.
Qed.

Lemma build_row_past_the_end_witness :
  build_row_list 3 1 1 0 [] [] 0 1 = Raise ValueError tt /\
  build_row_list 3 1 0 0 [] [] 0 1 = OutOfFuel.
Proof.
  split.
  - apply (build_row_past_the_end 3 1 1 0 [] [] 0 1); try lia.
  - apply (build_row_past_the_end 3 1 0 0 [] [] 0 1); try lia.
    reflexivity.
Defined.

Lemma completions_popcount (d : nat) (k : Z) (P ov : list Z) (x : Z) :
  In x (completions d k P ov) -> popcount x = k.
Proof.
  revert k ov x. induction d as [| d IH]; intros k ov x; simpl completions.
  - destruct (Z.eqb_spec k 0); simpl; [| intros []].
    destruct (forallb _ ov); [| intros []].
    intros [<- | []]. now subst.
  - rewrite in_app_iff. intros [Hin | Hin].
    + destruct ((k >? 0) && set_ok (Z.of_nat d) P ov); [| destruct Hin].
      apply in_map_iff in Hin as (y & <- & Hy).
      pose proof (completions_range _ _ _ _ _ Hy) as Hr.
      apply IH in Hy. rewrite popcount_high_bit by assumption. lia.
    + destruct (clear_ok (Z.of_nat d) P ov); [| destruct Hin].
      now apply IH in Hin.
Qed.

(** X10.  Asking for a number of ones that the positions left cannot hold,
    or for a negative number, is no error: with [0 <= bit_index <= m] and
    [ones_left < 0] or [ones_left > m - bit_index], [build_row] yields
    nothing, whatever the rows and requirements. *)
Theorem build_row_impossible_ones (fuel : nat)
    (bit_index ones_left current_row : Z)
    (prev_rows overlaps_needed : list Z) (m n : Z) :
  0 <= bit_index <= m ->
  (Z.to_nat (m - bit_index) < fuel)%nat ->
  ones_left < 0 \/ m - bit_index < ones_left ->
  build_row_list fuel bit_index ones_left current_row prev_rows
    overlaps_needed m n = Normal [] tt.
Proof.
  intros Hbi Hfuel Hk. rewrite build_row_list_at by assumption.
  destruct (completions (Z.to_nat (m - bit_index)) ones_left prev_rows
              overlaps_needed) as [| x l] eqn:E; [reflexivity |].
  exfalso.
  assert (Hin : In x (completions (Z.to_nat (m - bit_index)) ones_left
                        prev_rows overlaps_needed))
    by (rewrite E; now left).
  pose proof (completions_range _ _ _ _ _ Hin) as Hr.
  pose proof (popcount_bounds _ _ Hr) as Hb.
  apply completions_popcount in Hin. lia.
Qed.

Lemma build_row_impossible_ones_witness :
  build_row_list 4 1 3 4 [4] [0] 3 1 = Normal [] tt.
Proof.
  apply (build_row_impossible_ones 4 1 3 4 [4] [0] 3 1).
  - lia.
  - simpl. lia.
  - lia.
Defined.

Lemma combine_app_l {A B : Type} (l extra : list A) (l' : list B) :
  (length l' <= length l)%nat -> combine (l ++ extra) l' = combine l l'.
Proof.
  revert l'. induction l as [| a l IH]; intros [| b l'] Hlen; simpl in *;
    try reflexivity; try lia.
  - now destruct extra.
  - rewrite IH by lia. reflexivity.
Qed.

Lemma combine_app_r {A B : Type} (l : list A) (l' extra : list B) :
  (length l <= length l')%nat -> combine l (l' ++ extra) = combine l l'.
Proof.
  revert l'. induction l as [| a l IH]; intros [| b l'] Hlen; simpl in *;
    try reflexivity; try lia.
  rewrite IH by lia. reflexivity.
Qed.

Lemma completions_extra_rows (d : nat) :
  forall (k : Z) (P extra ov : list Z),
    (length ov <= length P)%nat ->
    completions d k (P ++ extra) ov = completions d k P ov.
Proof.
  induction d as [| d IH]; intros k P extra ov Hlen; [reflexivity |].
  cbn [completions].
  unfold set_ok, set_overlaps, clear_ok, clear_overlaps.
  rewrite !combine_app_l by assumption.
  rewrite !IH; [reflexivity | |];
    rewrite length_map, length_combine; lia.
Qed.

Lemma completions_extra_requirements (d : nat) (k : Z)
    (P ov extra : list Z) :
  (length P <= length ov)%nat ->
  completions (S d) k P (ov ++ extra) = completions (S d) k P ov.
Proof.
  intros Hlen. cbn [completions].
  unfold set_ok, set_overlaps, clear_ok, clear_overlaps.
  now rewrite !combine_app_r by assumption.
Qed.

(** X11.  Rows and requirements are paired in order and what is left over
    on either side is ignored: rows beyond the last requirement never
    count, and requirements beyond the last row are dropped as soon as one
    position is processed ([bit_index < m]).  Only at [bit_index = m] are
    such requirements still looked at. *)
Theorem build_row_pairs_in_order (fuel : nat)
    (bit_index ones_left current_row : Z)
    (prev_rows overlaps_needed more_rows more_needed : list Z) (m n : Z) :
  0 <= bit_index <= m ->
  (Z.to_nat (m - bit_index) < fuel)%nat ->
  ((length overlaps_needed <= length prev_rows)%nat ->
   build_row_list fuel bit_index ones_left current_row
     (prev_rows ++ more_rows) overlaps_needed m n
   = build_row_list fuel bit_index ones_left current_row
       prev_rows overlaps_needed m n) /\
  ((length prev_rows <= length overlaps_needed)%nat ->
   bit_index < m ->
   build_row_list fuel bit_index ones_left current_row
     prev_rows (overlaps_needed ++ more_needed) m n
   = build_row_list fuel bit_index ones_left current_row
       prev_rows overlaps_needed m n).
Proof.
  intros Hbi Hfuel. split.
  - intros Hlen. rewrite !build_row_list_at by assumption.
    now rewrite completions_extra_rows.
  - intros Hlen Hlt. rewrite !build_row_list_at by assumption.
    destruct (Z.to_nat (m - bit_index)) as [| d] eqn:Ed; [lia |].
    now rewrite completions_extra_requirements.
Qed.

Lemma build_row_pairs_in_order_witness :
  build_row_list 4 0 1 0 ([4] ++ [7]) [0] 3 1
  = build_row_list 4 0 1 0 [4] [0] 3 1 /\
  build_row_list 4 0 1 0 [4] ([0] ++ [9]) 3 1
  = build_row_list 4 0 1 0 [4] [0] 3 1.
Proof.
  destruct (build_row_pairs_in_order 4 0 1 0 [4] [0] [7] [9] 3 1)
    as [Hrows Hneeded].
  - lia.
  - simpl. lia.
  - split; [apply Hrows; simpl; lia | apply Hneeded; simpl; lia].
Defined.

(** The contrast at the last position: a requirement without a row still
    decides whether the row is yielded. *)
Example requirement_without_row_at_the_end :
  build_row_list 1 3 0 5 [] [9] 3 1 = Normal [] tt /\
  build_row_list 1 3 0 5 [] [] 3 1 = Normal [5] tt.
Proof. split; reflexivity. Qed.

(** X12.  The parameter [n] of [build_row] is passed along and never read:
    the run is the same for any two values of it, under any consumer. *)
Theorem build_row_ignores_n {St R : Type} (rows_of : St -> list Z)
    (body : Z -> M St (option R)) (n n' : Z) :
  forall fuel bit_index ones_left current_row overlaps_needed m s,
    build_row rows_of body fuel bit_index ones_left current_row
      overlaps_needed m n s
    = build_row rows_of body fuel bit_index ones_left current_row
        overlaps_needed m n' s.
Proof.
  induction fuel as [| fuel IH]; intros bi k cur ov m s; cbn [build_row];
    [reflexivity |].
  destruct (bi =? m); [reflexivity |].
  assert (E :
    (if k >? 0
     then match set_scan bi (m - bi) m (rows_of s) ov [] with
          | Pruned => Normal None s
          | Kept new_overlaps =>
              match py_lshift 1 (m - 1 - bi) with
              | Some b =>
                  build_row rows_of body fuel (bi + 1) (k - 1)
                    (Z.lor cur b) new_overlaps m n s
              | None => Raise ValueError s
              end
          | ShiftError => Raise ValueError s
          end
     else Normal None s)
    = (if k >? 0
       then match set_scan bi (m - bi) m (rows_of s) ov [] with
            | Pruned => Normal None s
            | Kept new_overlaps =>
                match py_lshift 1 (m - 1 - bi) with
                | Some b =>
                    build_row rows_of body fuel (bi + 1) (k - 1)
                      (Z.lor cur b) new_overlaps m n' s
                | None => Raise ValueError s
                end
            | ShiftError => Raise ValueError s
            end
       else Normal None s)).
  { destruct (k >? 0); [| reflexivity].
    destruct (set_scan bi (m - bi) m (rows_of s) ov []); try reflexivity.
    destruct (py_lshift 1 (m - 1 - bi)); [apply IH | reflexivity]. }
  rewrite E.
  match goal with
  | |- match ?X with _ => _ end = _ => destruct X as [[r |] s1 | e s1 |]
  end; try reflexivity.
  destruct (clear_scan bi (m - bi) m (rows_of s1) ov []); try reflexivity.
  apply IH.
Qed.

(** X13.  The contract of [build_row] at any position.  With
    [0 <= bit_index <= m] and one requirement per row, the rows yielded are
    exactly the values [current_row | x] where [x] fills the
    [m - bit_index] positions left with [ones_left] ones and overlaps each
    accepted row, on those positions, in as many places as still required.
    The bits of [current_row] are all kept. *)
Theorem build_row_completes_prefix (fuel : nat)
    (bit_index ones_left current_row : Z)
    (prev_rows overlaps_needed : list Z) (m n : Z) :
  0 <= bit_index <= m ->
  (Z.to_nat (m - bit_index) < fuel)%nat ->
  length prev_rows = length overlaps_needed ->
  exists yielded,
    build_row_list fuel bit_index ones_left current_row prev_rows
      overlaps_needed m n = Normal yielded tt /\
    (forall r,
       In r yielded <->
       exists x,
         r = Z.lor current_row x /\
         0 <= x < 2 ^ (m - bit_index) /\
         popcount x = ones_left /\
         Forall2 (fun prev needed => popcount (Z.land x prev) = needed)
           prev_rows overlaps_needed) /\
    (forall r, In r yielded -> Z.land r current_row = current_row).
Proof.
  intros Hbi Hfuel Hlen.
  eexists. split; [now apply build_row_list_at |].
  assert (Hchar : forall r,
    In r (map (Z.lor current_row)
            (completions (Z.to_nat (m - bit_index)) ones_left prev_rows
               overlaps_needed)) <->
    exists x,
      r = Z.lor current_row x /\
      0 <= x < 2 ^ (m - bit_index) /\
      popcount x = ones_left /\
      Forall2 (fun prev needed => popcount (Z.land x prev) = needed)
        prev_rows overlaps_needed).
  { intros r. rewrite in_map_iff. split.
    - intros (x & <- & Hx). exists x. split; [reflexivity |].
      apply completions_valid in Hx; [| assumption].
      destruct Hx as (Hr & Hp & Hov). rewrite Z2Nat.id in Hr by lia.
      repeat split; try assumption; try lia.
      apply Forall2_combine. now split.
    - intros (x & -> & Hr & Hp & Hov). exists x. split; [reflexivity |].
      apply completions_valid; [assumption |].
      unfold valid. rewrite Z2Nat.id by lia.
      apply Forall2_combine in Hov as [_ Hov].
      split; [assumption | split; assumption]. }
  split; [exact Hchar |].
  intros r Hr. apply Hchar in Hr as (x & -> & _).
  apply Z.bits_inj'. intros j Hj.
  rewrite Z.land_spec, Z.lor_spec.
  now destruct (Z.testbit current_row j), (Z.testbit x j).
Qed.

Lemma build_row_completes_prefix_witness :
  exists yielded,
    build_row_list 4 1 1 0 [4] [0] 3 1 = Normal yielded tt /\
    (forall r,
       In r yielded <->
       exists x,
         r = Z.lor 0 x /\
         0 <= x < 2 ^ (3 - 1) /\
         popcount x = 1 /\
         Forall2 (fun prev needed => popcount (Z.land x prev) = needed)
           [4] [0]) /\
    (forall r, In r yielded -> Z.land r 0 = 0).
Proof.
  apply (build_row_completes_prefix 4 1 1 0 [4] [0] 3 1).
  - lia.
  - simpl. lia.
  - reflexivity.
Defined.

(** ** What the search can raise *)

Lemma build_row_outcomes {St R : Type} (rows_of : St -> list Z)
    (body : Z -> M St (option R)) (Inv : St -> Prop)
    (Q : outcome St (option R) -> Prop) :
  (forall s, Inv s -> Q (Normal None s)) ->
  (forall s, Inv s -> Q (Raise ValueError s)) ->
  Q OutOfFuel ->
  (forall c s, Inv s ->
     Q (body c s) /\ forall s', body c s = Normal None s' -> Inv s') ->
  forall fuel bit_index ones_left current_row overlaps_needed m n s,
    Inv s ->
    Q (build_row rows_of body fuel bit_index ones_left current_row
         overlaps_needed m n s) /\
    forall s',
      build_row rows_of body fuel bit_index ones_left current_row
        overlaps_needed m n s = Normal None s' -> Inv s'.
Proof.
  intros Hnone Hraise Hfuel Hbody.
  induction fuel as [| fuel IH]; intros bi k cur ov m n s Hs;
    cbn [build_row]; [split; [assumption | discriminate] |].
  destruct (bi =? m).
  { destruct ((k =? 0) && forallb (fun x => x =? 0) ov);
      [now apply Hbody |].
    split; [now apply Hnone | now intros s' [= <-]]. }
  match goal with
  | |- Q (match ?X with _ => _ end) /\ _ =>
      assert (H1 : Q X /\ forall s', X = Normal None s' -> Inv s');
        [| destruct X as [[r |] s1 | e s1 |] ]
  end.
  - destruct (k >? 0);
      [| split; [now apply Hnone | now intros s' [= <-]]].
    destruct (set_scan bi (m - bi) m (rows_of s) ov []).
    + split; [now apply Hnone | now intros s' [= <-]].
    + destruct (py_lshift 1 (m - 1 - bi)); [now apply IH |].
      split; [now apply Hraise | discriminate].
    + split; [now apply Hraise | discriminate].
  - split; [apply H1 | discriminate].
  - destruct H1 as [_ H1]. specialize (H1 s1 eq_refl).
    destruct (clear_scan bi (m - bi) m (rows_of s1) ov []).
    + split; [now apply Hnone | now intros s' [= <-]].
    + now apply IH.
    + split; [now apply Hraise | discriminate].
  - split; [apply H1 | discriminate].
  - split; [apply H1 | discriminate].
Qed.

Lemma loop_body_outcomes {float : Type} (recurse : M (state float) value)
    (Q : exn -> Prop) (c : Z) (s : state float) :
  (forall t t', recurse t = Normal PyNone t' -> t' = t) ->
  (forall t t', recurse t = Normal MatrixRef t' ->
     exists ext, matrix t' = matrix t ++ ext /\ stdout t' = stdout t) ->
  (forall t e t', recurse t = Raise e t' -> Q e) ->
  match loop_body recurse c s with
  | Raise e _ => Q e
  | _ => True
  end.
Proof.
  intros Hnone Hsome Hraise. unfold loop_body, bind, append.
  destruct (recurse _) as [[|] s3 | e s3 |] eqn:E; cbn [truthy].
  - apply Hnone in E. subst s3. now rewrite pop_append.
  - apply Hsome in E as (ext & Hm & _). cbn [matrix] in Hm.
    destruct (matrix s3) eqn:Em; [| exact I].
    symmetry in Hm. apply app_eq_nil in Hm as [Hm _].
    now apply app_eq_nil in Hm as [_ Hm].
  - now apply Hraise in E.
  - exact I.
Qed.

Lemma backtrack_raises_value_error {float : Type} (n : Z) (fuel : nat) :
  forall (s : state float) (e : exn) (s' : state float),
    backtrack n fuel s = Raise e s' -> e = ValueError.
Proof.
  induction fuel as [| fuel IH]; intros s e s'; cbn [backtrack];
    [discriminate |].
  destruct (Z.of_nat (length (matrix s)) =? size n - 1); [discriminate |].
  unfold bind.
  pose proof (build_row_outcomes (@matrix float)
                (loop_body (backtrack n fuel)) (fun _ => True)
                (fun o => match o with
                          | Raise e _ => e = ValueError
                          | _ => True
                          end)) as Hrule.
  specialize (Hrule ltac:(intros; exact I) ltac:(intros; reflexivity) I).
  match type of Hrule with
  | ?A -> _ => assert (Hb : A)
  end.
  { intros c t _. split; [| auto].
    apply (loop_body_outcomes (backtrack n fuel) (fun e => e = ValueError)).
    - apply backtrack_undoes_appends.
    - apply backtrack_appends.
    - exact IH. }
  destruct (Hrule Hb (S (Z.to_nat (m n))) 0 (total_ones n) 0
              (repeat (n - 1) (length (matrix s))) (m n) n s I) as [H _].
  destruct (build_row _ _ _ _ _ _ _ _ _ _) as [[r |] t | e0 t |];
    unfold ret; try discriminate.
  now intros [= <- _].
Qed.

Lemma for_each_no_raise {St R : Type} (body : Z -> M St (option R))
    (l : list Z) :
  (forall c s, In c l ->
     match body c s with Raise _ _ => False | _ => True end) ->
  forall s, match for_each body l s with Raise _ _ => False | _ => True end.
Proof.
  induction l as [| c l IH]; intros Hbody s; simpl; [exact I |].
  pose proof (Hbody c s (or_introl eq_refl)) as Hc.
  destruct (body c s) as [[r |] s' | e s' |]; try exact I; [| assumption].
  apply IH. intros c' t Hin. apply Hbody. now right.
Qed.

Lemma backtrack_no_raise {float : Type} (n : Z) (fuel : nat) :
  1 <= n ->
  forall (s : state float) (e : exn) (s' : state float),
    backtrack n fuel s <> Raise e s'.
Proof.
  intros Hn. induction fuel as [| fuel IH]; intros s e s';
    cbn [backtrack]; [discriminate |].
  destruct (Z.of_nat (length (matrix s)) =? size n - 1); [discriminate |].
  unfold bind.
  assert (Hm : 0 <= m n) by (unfold m, size; lia).
  rewrite (build_row_top matrix _ (matrix s)); try reflexivity;
    try assumption.
  2:{ intros c t t' _ Ht Hb.
      pose proof (loop_body_rule (backtrack n fuel) c t
                    (backtrack_undoes_appends n fuel)) as Hr.
      rewrite Hb in Hr. simpl in Hr. now subst. }
  pose proof (for_each_no_raise
                (loop_body (backtrack (float := float) n fuel))
                (completions (Z.to_nat (m n)) (total_ones n) (matrix s)
                   (repeat (n - 1) (length (matrix s))))) as Hloop.
  match type of Hloop with
  | ?A -> _ => assert (Hb : A)
  end.
  { intros c t _.
    apply (loop_body_outcomes (backtrack n fuel) (fun _ => False)).
    - apply backtrack_undoes_appends.
    - apply backtrack_appends.
    - intros t0 e0 t0' E. exact (IH _ _ _ E). }
  specialize (Hloop Hb s).
  destruct (for_each _ _ s) as [[r |] t | e0 t |]; unfold ret;
    try discriminate.
  contradiction.
Qed.

Lemma filter_length_le {A : Type} (f g : A -> bool) (l : list A) :
  (forall x, g x = true -> f x = true) ->
  (length (filter g l) <= length (filter f l))%nat.
Proof.
  intros Hgf. induction l as [| a l IH]; simpl; [lia |].
  destruct (g a) eqn:Eg.
  - rewrite (Hgf a Eg). simpl. lia.
  - destruct (f a); simpl; lia.
Qed.

Lemma filter_length_lt {A : Type} (f g : A -> bool) (l : list A) (c : A) :
  (forall x, g x = true -> f x = true) ->
  In c l -> f c = true -> g c = false ->
  (length (filter g l) < length (filter f l))%nat.
Proof.
  intros Hgf Hin Hf Hg. induction l as [| a l IH]; [destruct Hin |].
  simpl. destruct Hin as [-> | Hin].
  - rewrite Hf, Hg. simpl.
    pose proof (filter_length_le f g l Hgf). lia.
  - specialize (IH Hin). destruct (g a) eqn:Eg.
    + rewrite (Hgf a Eg). simpl. lia.
    + destruct (f a); simpl; lia.
Qed.

Lemma existsb_eqb_In (x : Z) (rows : list Z) :
  existsb (Z.eqb x) rows = true <-> In x rows.
Proof.
  rewrite existsb_exists. split.
  - intros (y & Hy & E). apply Z.eqb_eq in E. now subst.
  - intros H. exists x. split; [assumption | apply Z.eqb_refl].
Qed.

(** A candidate for the next row is a row that the list does not hold: it
    has [2n - 1] ones and overlaps each row of the list in [n - 1]. *)
Lemma candidate_untried (n : Z) (rows : list Z) (c : Z) :
  1 <= n ->
  In c (completions (Z.to_nat (m n)) (total_ones n) rows
          (repeat (n - 1) (length rows))) ->
  In c (completions (Z.to_nat (m n)) (total_ones n) [] []) /\
  ~ In c rows.
Proof.
  intros Hn Hin.
  apply completions_valid in Hin; [| now rewrite repeat_length].
  destruct Hin as (Hc & Hpc & Hov). split.
  - apply completions_valid; [reflexivity |].
    split; [assumption | split; [assumption | constructor]].
  - intros Hrows. rewrite combine_repeat, Forall_map in Hov.
    rewrite Forall_forall in Hov. specialize (Hov c Hrows).
    simpl in Hov. rewrite Z.land_diag in Hov.
    unfold total_ones in Hpc. lia.
Qed.

Lemma untried_shrinks (n : Z) (rows : list Z) (c : Z) :
  1 <= n ->
  In c (completions (Z.to_nat (m n)) (total_ones n) rows
          (repeat (n - 1) (length rows))) ->
  (length (untried n (rows ++ [c])) < length (untried n rows))%nat.
Proof.
  intros Hn Hin.
  destruct (candidate_untried n rows c Hn Hin) as [Hall Hnot].
  unfold untried. apply (filter_length_lt _ _ _ c).
  - intros x Hx. rewrite existsb_app in Hx.
    destruct (existsb (Z.eqb x) rows); [discriminate | reflexivity].
  - assumption.
  - destruct (existsb (Z.eqb c) rows) eqn:E; [| reflexivity].
    apply existsb_eqb_In in E. contradiction.
  - rewrite existsb_app. simpl. rewrite Z.eqb_refl.
    now rewrite orb_true_r.
Qed.

(** For [n >= 1], [backtrack] returns from any list at all, once its budget
    exceeds the number of rows it can still append. *)
Lemma backtrack_returns {float : Type} (n : Z) (fuel : nat) :
  1 <= n ->
  forall s : state float,
    (length (untried n (matrix s)) < fuel)%nat ->
    exists result s', backtrack n fuel s = Normal result s'.
Proof.
  intros Hn.
  induction fuel as [| fuel IH]; intros s Hfuel; [lia |].
  cbn [backtrack].
  destruct (Z.of_nat (length (matrix s)) =? size n - 1);
    [now exists MatrixRef, s |].
  unfold bind.
  assert (Hm : 0 <= m n) by (unfold m, size; lia).
  rewrite (build_row_top matrix _ (matrix s)); try reflexivity;
    try assumption.
  2:{ intros c t t' _ Ht Hb.
      pose proof (loop_body_rule (backtrack n fuel) c t
                    (backtrack_undoes_appends n fuel)) as Hr.
      rewrite Hb in Hr. simpl in Hr. now subst. }
  pose proof (for_each_rule (loop_body (backtrack n fuel))
                (fun t => t = s) (fun _ _ => True)
                (completions (Z.to_nat (m n)) (total_ones n) (matrix s)
                   (repeat (n - 1) (length (matrix s))))) as Hloop.
  match type of Hloop with
  | ?A -> _ => assert (Hb : A)
  end.
  { intros c t Hin ->.
    pose proof (untried_shrinks n (matrix s) c Hn Hin) as Hlt.
    destruct (IH (mkState (matrix s ++ [c]) (stdout s)))
      as (r & s3 & E); [cbn [matrix]; lia |].
    unfold loop_body, bind, append. rewrite E.
    destruct r.
    - apply backtrack_undoes_appends in E. subst s3.
      cbn [truthy]. rewrite pop_append. reflexivity.
    - apply backtrack_appends in E as (ext & Em & _).
      cbn [matrix] in Em. cbn [truthy].
      destruct (matrix s3) eqn:E3; [| exact I].
      symmetry in Em. apply app_eq_nil in Em as [Em _].
      symmetry in Em. now apply app_cons_not_nil in Em. }
  specialize (Hloop Hb s eq_refl).
  destruct (for_each _ _ s) as [[r |] t | e t |]; try contradiction;
    unfold ret; eauto.
Qed.

(** For [n <= 0] and a list that is not empty, the first shift of the
    first call of the generator has a negative count. *)
Lemma backtrack_nonpositive_raises {float : Type} (n : Z) (fuel : nat)
    (s : state float) :
  n <= 0 -> matrix s <> [] ->
  backtrack n (S fuel) s = Raise ValueError s.
Proof.
  intros Hn Hrows. cbn [backtrack].
  destruct (Z.eqb_spec (Z.of_nat (length (matrix s))) (size n - 1))
    as [E | _]; [unfold size in E; lia |].
  unfold bind. cbn [build_row].
  destruct (Z.eqb_spec 0 (m n)) as [E | _]; [unfold m, size in E; lia |].
  destruct (Z.gtb_spec (total_ones n) 0) as [E | _];
    [unfold total_ones in E; lia |].
  destruct (matrix s) as [| p rows] eqn:Em; [contradiction |].
  cbn [length repeat].
  rewrite clear_scan_negative by (unfold m, size; lia).
  reflexivity.
Qed.

(** For [n <= 0] and the empty list, no shift is evaluated and the
    generator calls itself without end, on its own as under [backtrack]. *)
Lemma backtrack_nonpositive_diverges {float : Type} (n : Z) (fuel : nat)
    (s : state float) :
  n <= 0 -> matrix s = [] ->
  backtrack n fuel s = OutOfFuel.
Proof.
  intros Hn Hrows. destruct fuel as [| fuel]; [reflexivity |].
  cbn [backtrack]. rewrite Hrows. cbn [length repeat].
  destruct (Z.eqb_spec (Z.of_nat 0) (size n - 1)) as [E | _];
    [unfold size in E; lia |].
  unfold bind.
  replace (Z.to_nat (m n)) with 0%nat by (unfold m, size; lia).
  cbn [build_row].
  destruct (Z.eqb_spec 0 (m n)) as [E | _]; [unfold m, size in E; lia |].
  destruct (Z.gtb_spec (total_ones n) 0) as [E | _];
    [unfold total_ones in E; lia |].
  rewrite Hrows. reflexivity.
Qed.

(** X14.  Whatever list it is given, [backtrack] raises only if [n <= 0]
    and the list is not empty, and then a [ValueError] (a negative shift
    count) before the list is touched: [rows.pop()] always finds the
    candidate just appended, so no [IndexError].  The other runs are
    settled too: for [n >= 1] the call returns from any list, once the
    recursion budget exceeds the number of rows of [2n - 1] ones that the
    list does not hold; for [n <= 0] and a list that is not empty the
    [ValueError] is raised at once; for [n <= 0] and the empty list no
    budget suffices, as the generator [build_row(0, total_ones, 0, [], [],
    m, n)] calls itself without end (in Python a [RecursionError], which
    is not a [ValueError]). *)
Theorem backtrack_raises_only_for_bad_n {float : Type} (n : Z)
    (fuel : nat) (s : state float) :
  (forall e s', backtrack n fuel s = Raise e s' ->
     e = ValueError /\ n <= 0 /\ matrix s <> [] /\ s' = s) /\
  (1 <= n -> (length (untried n (matrix s)) < fuel)%nat ->
   exists result s', backtrack n fuel s = Normal result s') /\
  (n <= 0 -> matrix s <> [] -> (0 < fuel)%nat ->
   backtrack n fuel s = Raise ValueError s) /\
  (n <= 0 -> matrix s = [] ->
   backtrack n fuel s = OutOfFuel /\
   forall fuel', build_row_list fuel' 0 (total_ones n) 0 [] [] (m n) n
                 = OutOfFuel).
Proof.
  split; [| split; [| split]].
  - intros e s' H.
    assert (Hn : n <= 0).
    { destruct (Z.le_gt_cases n 0) as [Hn | Hn]; [assumption |].
      exfalso. exact (backtrack_no_raise n fuel ltac:(lia) s e s' H). }
    destruct (matrix s) as [| p rows] eqn:Em.
    + rewrite backtrack_nonpositive_diverges in H by assumption.
      discriminate.
    + destruct fuel as [| fuel]; [discriminate |].
      rewrite backtrack_nonpositive_raises in H
        by (try assumption; rewrite Em; discriminate).
      injection H as <- <-.
      split; [reflexivity |].
      split; [assumption | split; [discriminate | reflexivity]].
  - intros Hn Hfuel. exact (backtrack_returns n fuel Hn s Hfuel).
  - intros Hn Hrows Hfuel. destruct fuel as [| fuel]; [lia |].
    now apply backtrack_nonpositive_raises.
  - intros Hn Hrows. split.
    + now apply backtrack_nonpositive_diverges.
    + intros fuel'. unfold build_row_list.
      rewrite build_row_recurses_forever;
        [reflexivity | unfold m, size; lia | unfold total_ones; lia
        | reflexivity].
Qed.

(** The cases, each at an input where it applies: [n = 0] with the list
    [[0]] raises, [n = 1] with the list [[5; 5; 5; 9]], which no search
    reaches, returns, and [n = 0] with the empty list exhausts the
    budget. *)
Lemma backtrack_raises_only_for_bad_n_witness :
  backtrack 0 1 (@mkState unit [0] []) = Raise ValueError (mkState [0] [])
  /\ (exists result s',
        backtrack 1 4 (@mkState unit [5; 5; 5; 9] [])
        = Normal result s')
  /\ backtrack 0 9 (@mkState unit [] []) = OutOfFuel.
Proof.
  split; [| split].
  - apply (backtrack_raises_only_for_bad_n 0 1 (@mkState unit [0] []));
      [lia | discriminate | lia].
  - apply (backtrack_raises_only_for_bad_n 1 4
             (@mkState unit [5; 5; 5; 9] []));
      [lia | vm_compute; lia].
  - apply (backtrack_raises_only_for_bad_n 0 9 (@mkState unit [] []));
      [lia | reflexivity].
Defined.

(** ** The search from any partial design *)

(** X15.  [backtrack] from any partial design.  For [n >= 1], given a list
    of at most [4n-1] rows that is a partial design, [backtrack] returns
    (a recursion depth of one more than the rows still missing is enough):
    either [None], the list being as at entry, or the list itself, then a
    complete design that begins with the rows given. *)
Theorem backtrack_from_partial_design {float : Type} (n : Z) (fuel : nat)
    (s : state float) :
  1 <= n ->
  partial_design n (matrix s) ->
  Z.of_nat (length (matrix s)) <= 4 * n - 1 ->
  4 * n - 1 - Z.of_nat (length (matrix s)) < Z.of_nat fuel ->
  backtrack n fuel s = Normal PyNone s \/
  exists s' added,
    backtrack n fuel s = Normal MatrixRef s' /\
    matrix s' = matrix s ++ added /\
    stdout s' = stdout s /\
    design n (matrix s').
Proof.
  intros Hn Hdes Hlen Hfuel.
  pose proof (backtrack_total n fuel s Hn Hdes) as H.
  unfold size in H. specialize (H Hlen Hfuel).
  destruct (backtrack n fuel s) as [[|] s' | e s' |] eqn:E;
    try contradiction.
  - left. now subst.
  - right. destruct H as (Hout & Hd & Hl).
    apply backtrack_appends in E as (added & Hm & _).
    exists s', added.
    split; [reflexivity | split; [exact Hm | split; [exact Hout |]]].
    split; [exact Hd | exact Hl].
Qed.

Lemma backtrack_from_partial_design_witness :
  backtrack 1 2 (@mkState unit [4; 1] []) = Normal PyNone (mkState [4; 1] [])
  \/ exists s' added,
       backtrack 1 2 (@mkState unit [4; 1] []) = Normal MatrixRef s' /\
       matrix s' = [4; 1] ++ added /\
       stdout s' = [] /\
       design 1 (matrix s').
Proof.
  apply (backtrack_from_partial_design 1 2 (mkState [4; 1] [])).
  - lia.
  - split.
    + repeat (constructor; [split; [cbv; intuition discriminate
                                   | reflexivity] |]).
      constructor.
    + repeat (constructor; [repeat (constructor; [reflexivity |]);
                            constructor |]).
      constructor.
  - simpl. lia.
  - simpl. lia.
Defined.

(** ** The generator under a loop that changes the list *)

(** X16.  A loop over the generator whose body, each time it asks for the
    next candidate, has put [prev_rows] back as it was, sees the candidates
    of [list(build_row(...))], in that order and one at a time, and stops
    the generator at the first candidate at which the body leaves the
    loop. *)
Theorem loop_sees_the_list {St R : Type} (rows_of : St -> list Z)
    (body : Z -> M St (option R)) (fuel : nat)
    (bit_index ones_left current_row : Z) (overlaps_needed : list Z)
    (m n : Z) (s : St) :
  0 <= bit_index <= m ->
  (Z.to_nat (m - bit_index) < fuel)%nat ->
  (forall c t t',
     rows_of t = rows_of s -> body c t = Normal None t' ->
     rows_of t' = rows_of s) ->
  exists yielded,
    build_row_list fuel bit_index ones_left current_row (rows_of s)
      overlaps_needed m n = Normal yielded tt /\
    build_row rows_of body fuel bit_index ones_left current_row
      overlaps_needed m n s = for_each body yielded s.
Proof.
  intros Hbi Hfuel Hbody.
  eexists. split; [now apply build_row_list_at |].
  replace bit_index with (m - Z.of_nat (Z.to_nat (m - bit_index))) at 1
    by lia.
  apply build_row_for_each; try lia; [reflexivity |].
  intros c t t' _. apply Hbody.
Qed.

Lemma loop_sees_the_list_witness :
  exists yielded,
    build_row_list 3 0 1 0 [] [5] 2 1 = Normal yielded tt /\
    build_row (fun s : list Z => []) (fun c s => Normal (@None unit) (c :: s))
      3 0 1 0 [5] 2 1 [] =
    for_each (fun c s => Normal (@None unit) (c :: s)) yielded [].
Proof.
  apply (loop_sees_the_list (fun s : list Z => [])
           (fun c s => Normal (@None unit) (c :: s)) 3 0 1 0 [5] 2 1 []).
  - lia.
  - simpl. lia.
  - reflexivity.
Defined.

(** A body that appends to the list the generator reads, and does not take
    the row off again, changes what the generator yields next: here the
    second candidate [1] of [list(build_row(...)) = [2; 1]] is pruned
    against the row [2] appended meanwhile. *)
Example loop_that_keeps_its_rows :
  build_row_list 3 0 1 0 [] [5] 2 1 = Normal [2; 1] tt /\
  build_row (fun s : list Z => s)
    (fun c s => Normal (@None unit) (s ++ [c])) 3 0 1 0 [5] 2 1 []
  = Normal None [2].
Proof. split; reflexivity. Qed.
